(** * hanabi-live: table persistence, return-to-lobby handler and card notes

    A shallow embedding of

    - [server/src/serialize_tables.go]: [serializeTables] and [restoreTables],
      which write the running tables to JSON files at shutdown and rebuild
      them at startup;
    - the return-to-lobby command handler [step1] of the earlier JavaScript
      server;
    - [public/js/src/game/ui/notes.js]: the note editor ([openEditTooltip]
      and its key handler, [set], [get], [update], [stripHTMLtags]) and the
      note indicators ([shouldShowIndicator], [setCardIndicator],
      [setAllCardIndicators]).

    The first part of the file holds the definitions, the second part the
    lemmas and theorems about them. *)

From Stdlib Require Import ZArith String.
From stdpp Require Import gmap strings list fin_maps pretty sorting.

Open Scope string_scope.
Open Scope list_scope.
Open Scope Z_scope.

(* ===================================================================== *)
(** * Part I: definitions                                                 *)
(* ===================================================================== *)

(** ** Machine numbers *)

Module Num.

(** Go's [int] and [int64] (the server runs on 64-bit platforms),
    [time.Duration] and [uint64]. *)
Definition int64_min : Z := - 2 ^ 63.
Definition int64_max : Z := 2 ^ 63 - 1.
Definition uint64_max : Z := 2 ^ 64 - 1.

Definition in_int64 (z : Z) : bool := (int64_min <=? z) && (z <=? int64_max).
Definition in_uint64 (z : Z) : bool := (0 <=? z) && (z <=? uint64_max).

(** Two's complement wrap-around of a signed 64-bit addition. *)
Definition wrap64 (z : Z) : Z := (z + 2 ^ 63) mod 2 ^ 64 - 2 ^ 63.

(** [time.Second], in nanoseconds. *)
Definition Second : Z := 1000000000.

(** The float64 nearest to the integer [z] (round to nearest, ties to even):
    the 53 leading bits of [|z|] are kept.  Integers up to [2^53] in
    magnitude are exact. *)
Definition round53 (z : Z) : Z :=
  let a := Z.abs z in
  if a <=? 2 ^ 53 then z
  else
    let e := Z.log2 a - 52 in
    let q := a / 2 ^ e in
    let r := a mod 2 ^ e in
    let h := 2 ^ (e - 1) in
    let q' := if r <? h then q
              else if h <? r then q + 1
              else if Z.even q then q else q + 1 in
    Z.sgn z * (q' * 2 ^ e).

(** The largest finite float64. *)
Definition float64_max : Z := (2 ^ 53 - 1) * 2 ^ 971.

(** [strconv.ParseFloat] on an integer literal: a range error when the
    rounded value is not finite. *)
Definition float_in_range (z : Z) : bool := Z.abs (round53 z) <=? float64_max.

(** An integer that is a float64 value. *)
Definition is_float64 (z : Z) : bool :=
  (round53 z =? z) && (Z.abs z <=? float64_max).

(** The Go conversion [int64(f)] of an integer-valued float64.  Out of range
    the result is implementation-defined; amd64 yields the smallest int64. *)
Definition int_of_float64 (z : Z) : Z := if in_int64 z then z else int64_min.

#[global] Arguments in_int64 : simpl never.
#[global] Arguments in_uint64 : simpl never.
#[global] Arguments wrap64 : simpl never.
#[global] Arguments round53 : simpl never.
#[global] Arguments float_in_range : simpl never.
#[global] Arguments is_float64 : simpl never.
#[global] Arguments int_of_float64 : simpl never.

End Num.

(** ** JSON documents and the values of [interface{}] *)

Module Json.
Import Num.

(** A JSON document.  A number literal is identified with its value; the
    records of this program hold integers only.  Objects are string-keyed
    maps (a repeated key keeps its last value, and the order of keys carries
    no information for the decoders used here).  Strings are taken as they
    are: the text of the records is valid UTF-8, which [encoding/json]
    leaves alone. *)
#[warnings="-register-all"]
Inductive json : Type :=
| JNull
| JBool (b : bool)
| JNum (z : Z)
| JStr (s : string)
| JArr (l : list json)
| JObj (m : gmap string json).

(** What a Go [interface{}] holds after [json.Unmarshal] decoded into it
    ([nil], [bool], [float64], [string], [[]interface{}],
    [map[string]interface{}]), and [VFunc] for a value of a type that
    [encoding/json] refuses to encode (a function or a channel). *)
#[warnings="-register-all"]
Inductive goval : Type :=
| VNil
| VBool (b : bool)
| VFloat (z : Z)
| VString (s : string)
| VSlice (l : list goval)
| VMap (m : gmap string goval)
| VFunc.

(** Decoding a document into an [interface{}]: every number becomes a
    float64. *)
Fixpoint of_json (j : json) : goval :=
  match j with
  | JNull => VNil
  | JBool b => VBool b
  | JNum z => VFloat (round53 z)
  | JStr s => VString s
  | JArr l => VSlice (of_json <$> l)
  | JObj m => VMap (of_json <$> m)
  end.

(** The decoder fails on a number that no finite float64 approximates. *)
Fixpoint floats_in_range (j : json) : bool :=
  match j with
  | JNum z => float_in_range z
  | JArr l => forallb floats_in_range l
  | JObj m => map_fold (λ _ x b, floats_in_range x && b) true m
  | _ => true
  end.

Definition decode_generic (j : json) : option goval :=
  if floats_in_range j then Some (of_json j) else None.

(** [json.Marshal] of an [interface{}] value. *)
Fixpoint to_json (v : goval) : json :=
  match v with
  | VNil => JNull
  | VBool b => JBool b
  | VFloat z => JNum z
  | VString s => JStr s
  | VSlice l => JArr (to_json <$> l)
  | VMap m => JObj (to_json <$> m)
  | VFunc => JNull
  end.

Fixpoint encodable (v : goval) : bool :=
  match v with
  | VFunc => false
  | VSlice l => forallb encodable l
  | VMap m => map_fold (λ _ x b, encodable x && b) true m
  | _ => true
  end.

Definition encode_generic (v : goval) : option json :=
  if encodable v then Some (to_json v) else None.

(** Documents all of whose numbers are float64 values, and Go values all of
    whose floats are. *)
Fixpoint json_exact (j : json) : bool :=
  match j with
  | JNum z => is_float64 z
  | JArr l => forallb json_exact l
  | JObj m => map_fold (λ _ x b, json_exact x && b) true m
  | _ => true
  end.

Fixpoint goval_exact (v : goval) : bool :=
  match v with
  | VFloat z => is_float64 z
  | VSlice l => forallb goval_exact l
  | VMap m => map_fold (λ _ x b, goval_exact x && b) true m
  | _ => true
  end.

Fixpoint json_size (j : json) : nat :=
  match j with
  | JArr l => S (foldr (λ x n, json_size x + n)%nat 0%nat l)
  | JObj m => S (map_fold (λ _ x n, json_size x + n)%nat 0%nat m)
  | _ => 1%nat
  end.

Fixpoint goval_size (v : goval) : nat :=
  match v with
  | VSlice l => S (foldr (λ x n, goval_size x + n)%nat 0%nat l)
  | VMap m => S (map_fold (λ _ x n, goval_size x + n)%nat 0%nat m)
  | _ => 1%nat
  end.

(** *** Decoding into typed fields

    [json.Unmarshal] into a struct: an absent key or [null] leaves the zero
    value, a value of the wrong JSON type or a number outside the range of
    the field's type is an error.  A key is looked up under the exact name
    that [json.Marshal] writes (Go would also take a key that differs from
    it in case only). *)
Definition field (m : gmap string json) (k : string) : json :=
  default JNull (m !! k).

Definition dec_int (j : json) : option Z :=
  match j with
  | JNull => Some 0
  | JNum z => if in_int64 z then Some z else None
  | _ => None
  end.

Definition dec_uint64 (j : json) : option N :=
  match j with
  | JNull => Some 0%N
  | JNum z => if in_uint64 z then Some (Z.to_N z) else None
  | _ => None
  end.

Definition dec_bool (j : json) : option bool :=
  match j with
  | JNull => Some false
  | JBool b => Some b
  | _ => None
  end.

Definition dec_string (j : json) : option string :=
  match j with
  | JNull => Some ""
  | JStr s => Some s
  | _ => None
  end.

(** A slice ([null] is the nil slice, modelled as the empty list). *)
Definition dec_slice {A} (f : json → option A) (j : json) : option (list A) :=
  match j with
  | JNull => Some []
  | JArr l => mapM f l
  | _ => None
  end.

(** A struct value. *)
Definition dec_struct {A} (zero : A) (f : gmap string json → option A)
    (j : json) : option A :=
  match j with
  | JNull => Some zero
  | JObj m => f m
  | _ => None
  end.

(** A pointer to a struct: [null] is the nil pointer. *)
Definition dec_ptr {A} (f : gmap string json → option A)
    (j : json) : option (option A) :=
  match j with
  | JNull => Some None
  | JObj m => Some <$> f m
  | _ => None
  end.

Definition enc_ptr {A} (f : A → json) (o : option A) : json :=
  match o with
  | None => JNull
  | Some x => f x
  end.

(** An object literal with the given fields. *)
Definition obj (fields : list (string * json)) : json :=
  JObj (list_to_map fields).

End Json.

(** ** Tables, games and their JSON records ([serialize_tables.go]) *)

Module Persist.
Import Num Json.

(** *** The data model

    The structs [Table], [Game], [Player], [GamePlayer], [Card], [Options],
    [ExtraOptions] and the action structs are declared in files of the
    server that are not among the sources at hand.  Their fields below are
    the ones that [serialize_tables.go] reads or writes, together with the
    attributes that the data model of the specification lists.  A field
    marked (-) carries the tag [json:"-"] in Go and is left out of the
    record: the back-references and the session handle. *)

(** Modelled from the spec: the declaration of [Options] is missing; the
    options of a table say which variant is played and whether the game is
    timed. *)
Record Options : Type := mkOptions {
  oVariant : string;
  oTimed : bool;
}.

(** Modelled from the spec: the declaration of [ExtraOptions] is missing and
    the code only copies the pointer; the struct is identified with the JSON
    object that [encoding/json] writes for it. *)
Record ExtraOptions : Type := mkExtraOptions {
  eoFields : gmap string json;
}.

(** Modelled from the spec: the declaration of [Card] is missing; a card has
    its place in the deck, a suit and a rank. *)
Record Card : Type := mkCard {
  cOrder : Z;
  cSuit : Z;
  cRank : Z;
}.

(** Modelled from the spec: the declaration of [Player] is missing; a seat
    at the table has the user, the session and the presence flag that
    [restoreTables] clears. *)
Record Player : Type := mkPlayer {
  pID : Z;
  pName : string;
  pSession : option N;       (* (-) the WebSocket session, by its number *)
  pPresent : bool;
}.

(** Modelled from the spec: the declaration of [GamePlayer] is missing; the
    state of a player inside the game has the hand, the remaining time that
    [restoreTables] extends and the back-reference that it restores. *)
Record GamePlayer : Type := mkGamePlayer {
  gpName : string;
  gpIndex : Z;
  gpHand : list Card;
  gpTime : Z;                (* time.Duration: nanoseconds, int64 *)
  gpGame : option N;         (* (-) back-reference to the game, by table ID *)
}.

(** Modelled from the spec: the declaration of [ActionDraw] is missing; it
    is spelled out because [restoreTables] decodes into it: who drew which
    card. *)
Record ActionDraw : Type := mkActionDraw {
  dType : string;
  dWho : Z;
  dRank : Z;
  dSuit : Z;
  dOrder : Z;
}.

(** Modelled from the spec: the other kinds of typed actions of the log. *)
Inductive action_kind : Type :=
| KClue | KPlay | KDiscard | KTurn | KGameOver.

Definition kind_name (k : action_kind) : string :=
  match k with
  | KClue => "clue"
  | KPlay => "play"
  | KDiscard => "discard"
  | KTurn => "turn"
  | KGameOver => "gameOver"
  end.

(** An entry of [Game.Actions], of Go type [interface{}]: an [ActionDraw], a
    struct of one of the other kinds (their declarations are missing: such a
    value is identified with the JSON object written for it), or whatever
    else an [interface{}] holds. *)
Inductive action : Type :=
| ADraw (d : ActionDraw)
| AStruct (k : action_kind) (fields : gmap string json)
| AValue (v : goval).

(** Modelled from the spec: the declaration of [Game] is missing; the
    fields are those that [restoreTables] uses and the rules state that the
    specification lists. *)
Record Game : Type := mkGame {
  gTable : option N;                 (* (-) back-reference, by table ID *)
  gOptions : option Options;         (* (-) *)
  gExtraOptions : option ExtraOptions; (* (-) *)
  gPlayers : list (option GamePlayer); (* []*GamePlayer *)
  gDeck : list Card;
  gStacks : list Z;
  gDiscardPile : list Card;
  gClueTokens : Z;
  gStrikes : Z;
  gTurn : Z;
  gActivePlayerIndex : Z;
  gPauseCount : Z;
  gActions : list action;            (* []interface{} *)
}.

(** Modelled from the spec: the declaration of [Table] is missing; the
    fields are those that the two functions use. *)
Record Table : Type := mkTable {
  tID : N;                           (* uint64 *)
  tName : string;
  tPlayers : list (option Player);   (* []*Player *)
  tOptions : option Options;         (* *Options *)
  tExtraOptions : option ExtraOptions;
  tRunning : bool;
  tReplay : bool;
  tGame : option Game;               (* *Game *)
}.

(** *** [json.Marshal] of a table *)

Definition enc_Options (o : Options) : json :=
  obj [("Variant", JStr (oVariant o)); ("Timed", JBool (oTimed o))].

Definition enc_ExtraOptions (e : ExtraOptions) : json := JObj (eoFields e).

Definition enc_Card (c : Card) : json :=
  obj [("Order", JNum (cOrder c)); ("Suit", JNum (cSuit c));
       ("Rank", JNum (cRank c))].

Definition enc_Player (p : Player) : json :=
  obj [("ID", JNum (pID p)); ("Name", JStr (pName p));
       ("Present", JBool (pPresent p))].

Definition enc_GamePlayer (gp : GamePlayer) : json :=
  obj [("Name", JStr (gpName gp)); ("Index", JNum (gpIndex gp));
       ("Hand", JArr (enc_Card <$> gpHand gp)); ("Time", JNum (gpTime gp))].

Definition enc_ActionDraw (d : ActionDraw) : json :=
  obj [("type", JStr (dType d)); ("who", JNum (dWho d));
       ("rank", JNum (dRank d)); ("suit", JNum (dSuit d));
       ("order", JNum (dOrder d))].

Definition enc_action (a : action) : option json :=
  match a with
  | ADraw d => Some (enc_ActionDraw d)
  | AStruct _ fields => Some (JObj fields)
  | AValue v => encode_generic v
  end.

Definition enc_Game (g : Game) : option json :=
  acts ← mapM enc_action (gActions g);
  Some (obj [("Players", JArr (enc_ptr enc_GamePlayer <$> gPlayers g));
             ("Deck", JArr (enc_Card <$> gDeck g));
             ("Stacks", JArr (JNum <$> gStacks g));
             ("DiscardPile", JArr (enc_Card <$> gDiscardPile g));
             ("ClueTokens", JNum (gClueTokens g));
             ("Strikes", JNum (gStrikes g));
             ("Turn", JNum (gTurn g));
             ("ActivePlayerIndex", JNum (gActivePlayerIndex g));
             ("PauseCount", JNum (gPauseCount g));
             ("Actions", JArr acts)]).

Definition enc_Table (t : Table) : option json :=
  gj ← match tGame t with
       | None => Some JNull
       | Some g => enc_Game g
       end;
  Some (obj [("ID", JNum (Z.of_N (tID t))); ("Name", JStr (tName t));
             ("Players", JArr (enc_ptr enc_Player <$> tPlayers t));
             ("Options", enc_ptr enc_Options (tOptions t));
             ("ExtraOptions", enc_ptr enc_ExtraOptions (tExtraOptions t));
             ("Running", JBool (tRunning t)); ("Replay", JBool (tReplay t));
             ("Game", gj)]).

(** *** [json.Unmarshal] into a fresh [Table] *)

Definition dec_Options (m : gmap string json) : option Options :=
  v ← dec_string (field m "Variant");
  t ← dec_bool (field m "Timed");
  Some (mkOptions v t).

Definition dec_ExtraOptions (m : gmap string json) : option ExtraOptions :=
  Some (mkExtraOptions m).

Definition zeroCard : Card := mkCard 0 0 0.

Definition dec_Card (m : gmap string json) : option Card :=
  o ← dec_int (field m "Order");
  s ← dec_int (field m "Suit");
  r ← dec_int (field m "Rank");
  Some (mkCard o s r).

Definition dec_Player (m : gmap string json) : option Player :=
  i ← dec_int (field m "ID");
  n ← dec_string (field m "Name");
  p ← dec_bool (field m "Present");
  Some (mkPlayer i n None p).

Definition dec_GamePlayer (m : gmap string json) : option GamePlayer :=
  n ← dec_string (field m "Name");
  i ← dec_int (field m "Index");
  h ← dec_slice (dec_struct zeroCard dec_Card) (field m "Hand");
  t ← dec_int (field m "Time");
  Some (mkGamePlayer n i h t None).

Definition dec_Game (m : gmap string json) : option Game :=
  ps ← dec_slice (dec_ptr dec_GamePlayer) (field m "Players");
  deck ← dec_slice (dec_struct zeroCard dec_Card) (field m "Deck");
  stacks ← dec_slice dec_int (field m "Stacks");
  discard ← dec_slice (dec_struct zeroCard dec_Card) (field m "DiscardPile");
  clues ← dec_int (field m "ClueTokens");
  strikes ← dec_int (field m "Strikes");
  turn ← dec_int (field m "Turn");
  active ← dec_int (field m "ActivePlayerIndex");
  pause ← dec_int (field m "PauseCount");
  acts ← dec_slice (λ j, AValue <$> decode_generic j) (field m "Actions");
  Some (mkGame None None None ps deck stacks discard clues strikes turn
               active pause acts).

Definition zeroTable : Table := mkTable 0%N "" [] None None false false None.

Definition dec_Table (m : gmap string json) : option Table :=
  i ← dec_uint64 (field m "ID");
  n ← dec_string (field m "Name");
  ps ← dec_slice (dec_ptr dec_Player) (field m "Players");
  o ← dec_ptr dec_Options (field m "Options");
  e ← dec_ptr dec_ExtraOptions (field m "ExtraOptions");
  run ← dec_bool (field m "Running");
  rep ← dec_bool (field m "Replay");
  g ← dec_ptr dec_Game (field m "Game");
  Some (mkTable i n ps o e run rep g).

(** *** Files

    The bytes of a file: either a JSON text, identified with the document
    it denotes, or something that is not JSON. *)
Inductive filedata : Type :=
| Doc (j : json)
| Garbage.

Definition Marshal (t : Table) : option filedata := Doc <$> enc_Table t.

Definition Unmarshal (d : filedata) : option Table :=
  match d with
  | Garbage => None
  | Doc j => dec_struct zeroTable dec_Table j
  end.

(** The directory [tablesPath]: its entries by file name, or [None] when it
    does not exist; and the names on which the operating system refuses to
    read, write or delete (permissions, a sub-directory, a full disk). *)
Record FS : Type := mkFS {
  fs_dir : option (gmap string filedata);
  fs_noread : gset string;
  fs_nowrite : gset string;
  fs_noremove : gset string;
}.

Definition with_dir (d : gmap string filedata) (fs : FS) : FS :=
  mkFS (Some d) (fs_noread fs) (fs_nowrite fs) (fs_noremove fs).

(** [ioutil.ReadDir]: the names of the entries, sorted. *)
Definition name_le (a b : string) : Prop := String.leb a b = true.

#[global] Instance name_le_dec a b : Decision (name_le a b).
Proof. unfold name_le. apply _. Defined.

Definition ReadDir (fs : FS) : option (list string) :=
  d ← fs_dir fs; Some (merge_sort name_le (map_to_list d).*1).

Definition ReadFile (fs : FS) (name : string) : option filedata :=
  d ← fs_dir fs;
  if decide (name ∈ fs_noread fs) then None else d !! name.

Definition WriteFile (fs : FS) (name : string) (data : filedata) : option FS :=
  d ← fs_dir fs;
  if decide (name ∈ fs_nowrite fs) then None
  else Some (with_dir (<[name := data]> d) fs).

Definition Remove (fs : FS) (name : string) : option FS :=
  d ← fs_dir fs;
  if decide (name ∈ fs_noremove fs) then None
  else match d !! name with
       | None => None
       | Some _ => Some (with_dir (delete name d) fs)
       end.

(** *** Effects

    What the two functions do besides returning: log lines, file writes and
    deletions, goroutines started.  They are kept in a trace, oldest
    first. *)

(** The failures that the code reports, one per call of [logger.Error],
    [log.Fatal] or [logger.Fatal]. *)
Inductive failure : Type :=
| MarshalFailed (id : N)
| WriteFailed (name : string)
| ReadDirFailed
| ReadFailed (name : string)
| UnmarshalFailed (name : string)
| ActionNotMap (i : nat) (id : N)
| ActionNotDraw (i : nat) (id : N)
| DeleteFailed (name : string).

Inductive goroutine : Type :=
| CheckTimer (id : N) (turn pauseCount : Z) (player : nat)
| CheckIdle (id : N).

Inductive event : Type :=
| InfoSkipping
| InfoSerializing (id : N)
| InfoRestored (id : N)
| InfoSummary (msg : string)
| LogError (f : failure)
| EvWrite (name : string) (data : filedata)
| EvRemove (name : string)
| EvGo (g : goroutine).

(** The table registry [tables] (a Go map keyed by table ID), the tables
    directory and the trace. *)
Record world : Type := mkWorld {
  w_tables : gmap N Table;
  w_fs : FS;
  w_trace : list event;
}.

Definition emit (e : event) (w : world) : world :=
  mkWorld (w_tables w) (w_fs w) (w_trace w ++ [e]).

Definition set_fs (fs : FS) (w : world) : world :=
  mkWorld (w_tables w) fs (w_trace w).

Definition set_table (t : Table) (w : world) : world :=
  mkWorld (<[tID t := t]> (w_tables w)) (w_fs w) (w_trace w).

(** *** [serializeTables] *)

(** [strconv.FormatUint(t.ID, 10) + ".json"] *)
Definition tableFilename (id : N) : string := pretty id +:+ ".json".

(** The body of the loop over the tables already enumerated in the order
    [ts]: the result is the returned boolean and the world left behind.
    The mutexes are left out: the function runs at shutdown, after the
    commands in flight have drained. *)
Fixpoint serializeList (ts : list Table) (w : world) : bool * world :=
  match ts with
  | [] => (true, w)
  | t :: rest =>
      if negb (tRunning t) || tReplay t then
        serializeList rest (emit InfoSkipping w)
      else
        let w := emit (InfoSerializing (tID t)) w in
        match Marshal t with
        | None => (false, emit (LogError (MarshalFailed (tID t))) w)
        | Some tableJSON =>
            let name := tableFilename (tID t) in
            match WriteFile (w_fs w) name tableJSON with
            | None => (false, emit (LogError (WriteFailed name)) w)
            | Some fs' =>
                serializeList rest (emit (EvWrite name tableJSON) (set_fs fs' w))
            end
        end
  end.

(** Go enumerates a map in an order of its own choosing: [serializeTables]
    is a relation between the world before and the result. *)
Definition serializeTables (w : world) (r : bool * world) : Prop :=
  ∃ ts : list Table, ts ≡ₚ (map_to_list (w_tables w)).*2 ∧ serializeList ts w = r.

(** *** [restoreTables] *)

(** How a run ends: normally, by a fatal log call (the process exits with
    the world as it is), or by a run-time panic. *)
Inductive outcome (A : Type) : Type :=
| Done (a : A)
| Fatal (f : failure) (w : world)
| Panic (w : world).
Arguments Done {A} a.
Arguments Fatal {A} f w.
Arguments Panic {A} w.

(** [log.Fatal] of the Go library: print and [os.Exit(1)]. *)
Definition log_Fatal {A} (f : failure) (w : world) : outcome A := Fatal f w.

(** Modelled from the spec: [logger] is the server's own logging wrapper and
    is not among the sources at hand; a failure during recovery is fatal to
    the process, so [logger.Fatal] ends it like [log.Fatal]. *)
Definition logger_Fatal {A} (f : failure) (w : world) : outcome A := Fatal f w.

(** [mapstructure.Decode] of a generic map into an [ActionDraw]: a missing
    or nil entry leaves the zero value, a float64 is converted to [int],
    anything else of the wrong kind is an error. *)
Definition ms_int (m : gmap string goval) (k : string) : option Z :=
  match m !! k with
  | None => Some 0
  | Some VNil => Some 0
  | Some (VFloat z) => Some (int_of_float64 z)
  | Some _ => None
  end.

Definition ms_string (m : gmap string goval) (k : string) : option string :=
  match m !! k with
  | None => Some ""
  | Some VNil => Some ""
  | Some (VString s) => Some s
  | Some _ => None
  end.

Definition decode_ActionDraw (m : gmap string goval) : option ActionDraw :=
  ty ← ms_string m "type";
  who ← ms_int m "who";
  rank ← ms_int m "rank";
  suit ← ms_int m "suit";
  order ← ms_int m "order";
  Some (mkActionDraw ty who rank suit order).

(** [action["type"] == "draw"] *)
Definition type_is_draw (m : gmap string goval) : bool :=
  match m !! "type" with
  | Some (VString s) => String.eqb s "draw"
  | _ => false
  end.

(** One round of the loop "Restore the types of the actions". *)
Definition restoreAction (id : N) (i : nat) (a : action) : failure + action :=
  match a with
  | AValue (VMap m) =>
      if type_is_draw m then
        match decode_ActionDraw m with
        | None => inl (ActionNotDraw i id)
        | Some actionDraw => inr (ADraw actionDraw)
        end
      else inr a   (* we don't have to bother converting any other actions *)
  | _ => inl (ActionNotMap i id)
  end.

Fixpoint restoreActions (id : N) (i : nat) (l : list action)
    : failure + list action :=
  match l with
  | [] => inr []
  | a :: rest =>
      match restoreAction id i a with
      | inl f => inl f
      | inr a' =>
          match restoreActions id (S i) rest with
          | inl f => inl f
          | inr rest' => inr (a' :: rest')
          end
      end
  end.

Definition set_gpGame (r : option N) (gp : GamePlayer) : GamePlayer :=
  mkGamePlayer (gpName gp) (gpIndex gp) (gpHand gp) (gpTime gp) r.

Definition set_gpTime (t : Z) (gp : GamePlayer) : GamePlayer :=
  mkGamePlayer (gpName gp) (gpIndex gp) (gpHand gp) t (gpGame gp).

Definition set_pPresent (b : bool) (p : Player) : Player :=
  mkPlayer (pID p) (pName p) (pSession p) b.

(** [for _, gp := range g.Players { gp.Game = g }]: a nil player makes the
    assignment panic ([None]). *)
Definition relinkPlayers (id : N) (gps : list (option GamePlayer))
    : option (list (option GamePlayer)) :=
  mapM (λ o, gp ← o; Some (Some (set_gpGame (Some id) gp))) gps.

(** [for _, p := range t.Players { p.Present = false }] *)
Definition markAbsent (ps : list (option Player))
    : option (list (option Player)) :=
  mapM (λ o, p ← o; Some (Some (set_pPresent false p))) ps.

(** [g.Players[g.ActivePlayerIndex]]: an index out of range panics. *)
Definition activePlayer (gps : list (option GamePlayer)) (i : Z)
    : option (nat * GamePlayer) :=
  if i <? 0 then None
  else match gps !! Z.to_nat i with
       | Some (Some gp) => Some (Z.to_nat i, gp)
       | _ => None
       end.

(** The grace allowance: [20 * time.Second]. *)
Definition grace : Z := 20 * Second.

(** The result of repairing a decoded table in memory. *)
Inductive repaired : Type :=
| RepOk (t : Table) (timer : list goroutine)
| RepFatal (f : failure)
| RepPanic.

(** Lines 85-124 of [restoreTables]: the back-references, the action types,
    the presence flags and the timer of one decoded table [t]. *)
Definition repair (t : Table) : repaired :=
  match tGame t with
  | None => RepPanic                          (* g.Table = t with g == nil *)
  | Some g =>
  match relinkPlayers (tID t) (gPlayers g) with
  | None => RepPanic
  | Some gps =>
  match restoreActions (tID t) 0 (gActions g) with
  | inl f => RepFatal f
  | inr acts =>
  match markAbsent (tPlayers t) with
  | None => RepPanic
  | Some ps =>
  match tOptions t with
  | None => RepPanic                          (* g.Options.Timed *)
  | Some o =>
      let mk gps' :=
        mkTable (tID t) (tName t) ps (tOptions t) (tExtraOptions t)
          (tRunning t) (tReplay t)
          (Some (mkGame (Some (tID t)) (tOptions t) (tExtraOptions t) gps'
                   (gDeck g) (gStacks g) (gDiscardPile g) (gClueTokens g)
                   (gStrikes g) (gTurn g) (gActivePlayerIndex g)
                   (gPauseCount g) acts)) in
      if oTimed o then
        match activePlayer gps (gActivePlayerIndex g) with
        | None => RepPanic
        | Some (i, gp) =>
            let gp' := set_gpTime (wrap64 (gpTime gp + grace)) gp in
            RepOk (mk (<[i := Some gp']> gps))
                  [CheckTimer (tID t) (gTurn g) (gPauseCount g) i]
        end
      else RepOk (mk gps) []
  end end end end end.

Definition emit_all (gs : list goroutine) (w : world) : world :=
  foldl (λ w g, emit (EvGo g) w) w gs.

(** The body of the loop over the directory entries, for the entry
    [name]. *)
Definition restoreFile (name : string) (w : world) : outcome world :=
  if decide (name = ".gitignore") then Done w
  else
    match ReadFile (w_fs w) name with
    | None => log_Fatal (ReadFailed name) w
    | Some tableJSON =>
    match Unmarshal tableJSON with
    | None => logger_Fatal (UnmarshalFailed name) w
    | Some t =>
    match repair t with
    | RepPanic => Panic w
    | RepFatal f => logger_Fatal f w
    | RepOk t' timer =>
        let w := emit (InfoRestored (tID t'))
                   (set_table t' (emit_all timer w)) in
        match Remove (w_fs w) name with
        | None => logger_Fatal (DeleteFailed name) w
        | Some fs' =>
            Done (emit (EvGo (CheckIdle (tID t')))
                    (emit (EvRemove name) (set_fs fs' w)))
        end
    end end end.

Fixpoint restoreFiles (files : list string) (w : world) : outcome world :=
  match files with
  | [] => Done w
  | f :: rest =>
      match restoreFile f w with
      | Done w' => restoreFiles rest w'
      | Fatal e w' => Fatal e w'
      | Panic w' => Panic w'
      end
  end.

Definition summary (n : nat) : string :=
  "Restored " +:+ pretty n +:+ " table" +:+
  (if decide (2 ≤ n)%nat then "s" else "") +:+ ".".

Definition restoreTables (w : world) : outcome world :=
  match ReadDir (w_fs w) with
  | None => log_Fatal ReadDirFailed w
  | Some files =>
      match restoreFiles files w with
      | Done w' => Done (emit (InfoSummary (summary (size (w_tables w')))) w')
      | o => o
      end
  end.

(** *** Tables of games in progress

    The properties that a table has while its game runs, as far as the
    record and the recovery depend on them. *)

(** An integer that a float64 holds exactly and that fits an [int]: the
    values that come back unchanged when the JSON number is decoded as a
    float64 and converted to [int]. *)
Definition small (z : Z) : bool := is_float64 z && in_int64 z.

Definition card_ok (c : Card) : bool :=
  in_int64 (cOrder c) && in_int64 (cSuit c) && in_int64 (cRank c).

Definition player_ok (o : option Player) : bool :=
  match o with
  | Some p => in_int64 (pID p)
  | None => false
  end.

Definition gameplayer_ok (o : option GamePlayer) : bool :=
  match o with
  | Some gp =>
      in_int64 (gpIndex gp) && in_int64 (gpTime gp) && forallb card_ok (gpHand gp)
  | None => false
  end.

Definition draw_ok (d : ActionDraw) : bool :=
  String.eqb (dType d) "draw" && small (dWho d) && small (dRank d) &&
  small (dSuit d) && small (dOrder d).

(** The name under ["type"] in the record of an action struct. *)
Definition struct_type (fields : gmap string json) : option string :=
  match fields !! "type" with
  | Some (JStr s) => Some s
  | _ => None
  end.

Definition action_ok (a : action) : bool :=
  match a with
  | ADraw d => draw_ok d
  | AStruct k fields =>
      bool_decide (struct_type fields = Some (kind_name k)) &&
      json_exact (JObj fields)
  | AValue (VMap m) =>
      negb (type_is_draw m) && goval_exact (VMap m) && encodable (VMap m)
  | AValue _ => false
  end.

Definition game_ok (g : Game) : bool :=
  forallb gameplayer_ok (gPlayers g) && forallb card_ok (gDeck g) &&
  forallb in_int64 (gStacks g) && forallb card_ok (gDiscardPile g) &&
  in_int64 (gClueTokens g) && in_int64 (gStrikes g) && in_int64 (gTurn g) &&
  in_int64 (gActivePlayerIndex g) && in_int64 (gPauseCount g) &&
  forallb action_ok (gActions g).

Definition table_ok (t : Table) : bool :=
  in_uint64 (Z.of_N (tID t)) && forallb player_ok (tPlayers t) &&
  match tGame t, tOptions t with
  | Some g, Some o =>
      game_ok g &&
      (negb (oTimed o) ||
       ((0 <=? gActivePlayerIndex g) &&
        (gActivePlayerIndex g <? Z.of_nat (length (gPlayers g)))))
  | _, _ => false
  end.


(** The typed entries of a log. *)
Definition is_typed (a : action) : bool :=
  match a with
  | ADraw _ => true
  | AStruct _ _ => true
  | AValue _ => false
  end.

(** The server process that starts after a shutdown: an empty registry and
    the disk as it was left. *)
Definition restart (w : world) : world := mkWorld ∅ (w_fs w) [].

(** The file writes of a trace. *)
Definition writes (l : list event) : list (string * filedata) :=
  omap (λ e, match e with EvWrite n d => Some (n, d) | _ => None end) l.

(** The goroutines started in a trace. *)
Definition started (l : list event) : list goroutine :=
  omap (λ e, match e with EvGo g => Some g | _ => None end) l.

(** [t.Running && !t.Replay] *)
Definition ongoing (t : Table) : bool := tRunning t && negb (tReplay t).

(** The write [wr] is the record of the table [t]. *)
Definition record_of (t : Table) (wr : string * filedata) : Prop :=
  wr.1 = tableFilename (tID t) ∧ Marshal t = Some wr.2.


(** A file that cannot be read or cannot be decoded. *)
Definition unusable (fs : FS) (f : string) : Prop :=
  ReadFile fs f = None ∨
  ∃ data, ReadFile fs f = Some data ∧ Unmarshal data = None.


Definition stored_GamePlayer (gp : GamePlayer) : GamePlayer := set_gpGame None gp.

Definition stored_action (a : action) : action :=
  match enc_action a with
  | Some j => AValue (of_json j)
  | None => a
  end.

Definition stored_Game (g : Game) : Game :=
  mkGame None None None (fmap (M:=option) stored_GamePlayer <$> gPlayers g)
    (gDeck g) (gStacks g) (gDiscardPile g) (gClueTokens g) (gStrikes g)
    (gTurn g) (gActivePlayerIndex g) (gPauseCount g)
    (stored_action <$> gActions g).


(** What the re-typing loop makes of the decoded entry [a]: [a] is a
    string-keyed map; when its type is draw, the entry [a'] is the draw
    action that it decodes into, and otherwise [a'] is [a] itself. *)
Definition retyped_entry (a a' : action) : Prop :=
  ∃ m, a = AValue (VMap m) ∧
    if type_is_draw m
    then ∃ dr, decode_ActionDraw m = Some dr ∧ a' = ADraw dr ∧ dType dr = "draw"
    else a' = a.

(** The two sorts of entries that the re-typing loop leaves: draw actions,
    and generic maps whose type is not draw. *)
Definition retyped (a : action) : Prop :=
  (∃ d, a = ADraw d ∧ dType d = "draw") ∨
  (∃ m, a = AValue (VMap m) ∧ type_is_draw m = false).

Definition logs_retyped (tables : gmap N Table) : Prop :=
  ∀ id t, tables !! id = Some t →
    ∃ g, tGame t = Some g ∧ Forall retyped (gActions g).

(** The times of the players are int64 values. *)
Definition times_in_range (gps : list (option GamePlayer)) : Prop :=
  Forall (λ o, ∀ gp, o = Some gp → in_int64 (gpTime gp) = true) gps.

(** The world that [restoreFile] leaves when it gets through. *)
Definition restored_world (name : string) (t' : Table) (timer : list goroutine)
    (fs' : FS) (w : world) : world :=
  mkWorld (<[tID t' := t']> (w_tables w)) fs'
    (w_trace w ++ (EvGo <$> timer) ++
     [InfoRestored (tID t'); EvRemove name; EvGo (CheckIdle (tID t'))]).

End Persist.

(** ** The return-to-lobby handler ([step1]) *)

Module Lobby.

(** Modelled from the spec: the player objects are built by files of the
    JavaScript server that are not among the sources at hand; [step1] uses
    [userID] and [present], and the hand stands for the rest. *)
Record Player : Type := mkPlayer {
  p_userID : Z;
  p_username : string;
  present : bool;
  hand : list Z;
}.

(** Modelled from the spec: the game objects are built elsewhere; [step1]
    uses [spectators], [num_spec], [players] and [running], and the turn,
    the stacks and the clue tokens stand for the rest of the game state that
    the specification lists. *)
Record Game : Type := mkGame {
  spectators : gmap Z string;    (* user ID ↦ the spectator's entry *)
  num_spec : Z;                  (* a count: far below 2^53, where the
                                    numbers of JavaScript are exact *)
  players : list Player;
  running : bool;
  turn_num : Z;
  stacks : list Z;
  clue_num : Z;
}.

(** Modelled from the spec: [socket.atTable], set when the user joins or
    watches a table. *)
Record AtTable : Type := mkAtTable {
  id : Z;
  spectating : bool;
}.

(** Modelled from the spec: the session object of a connected user, with
    the fields that [step1] uses. *)
Record Socket : Type := mkSocket {
  userID : Z;
  username : string;
  status : string;
  atTable : AtTable;
}.

(** Modelled from the spec: the module [notify] is not among the sources at
    hand; its functions send the notifications, and a call is recorded with
    what it is given: [data] (of which only [gameID] is set) or the
    socket. *)
Inductive notification : Type :=
| allUserChange (user : Z) (status : string)
| gameMemberChange (gameID : Z)
| gameNumSpec (gameID : Z)
| gameConnected (gameID : Z)
| playerTable (user : Z) (gameID : Z).

Inductive event : Type :=
| Notify (n : notification)
| LogInfoNoTable                           (* "(Table does not exist.)" *)
| LogErrorNotSpectator (user : string) (gameID : Z).

(** [globals.currentGames] and the trace of notifications and log lines,
    oldest first. *)
Record Globals : Type := mkGlobals {
  currentGames : gmap Z Game;
  trace : list event;
}.

Definition set_status (s : string) (socket : Socket) : Socket :=
  mkSocket (userID socket) (username socket) s (atTable socket).

Definition emit (e : event) (g : Globals) : Globals :=
  mkGlobals (currentGames g) (trace g ++ [e]).

Definition set_game (gameID : Z) (game : Game) (g : Globals) : Globals :=
  mkGlobals (<[gameID := game]> (currentGames g)) (trace g).

Definition set_present (b : bool) (p : Player) : Player :=
  mkPlayer (p_userID p) (p_username p) b (hand p).

(** [for (let player of game.players) { if (player.userID === socket.userID)
    { player.present = false; break; } }] *)
Fixpoint markAway (uid : Z) (ps : list Player) : list Player :=
  match ps with
  | [] => []
  | player :: rest =>
      if decide (p_userID player = uid) then set_present false player :: rest
      else player :: markAway uid rest
  end.

Definition set_players (ps : list Player) (game : Game) : Game :=
  mkGame (spectators game) (num_spec game) ps (running game)
         (turn_num game) (stacks game) (clue_num game).

(** [delete game.spectators[socket.userID]; game.num_spec--;] *)
Definition removeSpectator (uid : Z) (game : Game) : Game :=
  mkGame (delete uid (spectators game)) (num_spec game - 1) (players game)
         (running game) (turn_num game) (stacks game) (clue_num game).

(** [exports.step1 = function(socket, data)]: the socket and the globals
    after the call. *)
Definition step1 (socket : Socket) (g : Globals) : Socket * Globals :=
  let gameID := id (atTable socket) in
  (* Set their status *)
  let socket := set_status "Lobby" socket in
  let g := emit (Notify (allUserChange (userID socket) (status socket))) g in
  (* Validate that this table exists *)
  match currentGames g !! gameID with
  | None => (socket, emit LogInfoNoTable g)
  | Some game =>
      (* Check to see if they are a spectator *)
      if spectating (atTable socket) then
        match spectators game !! userID socket with
        | None =>
            (socket, emit (LogErrorNotSpectator (username socket) gameID) g)
        | Some _ =>
            let g := set_game gameID (removeSpectator (userID socket) game) g in
            let g := emit (Notify (gameMemberChange gameID)) g in
            let g := emit (Notify (gameNumSpec gameID)) g in
            (socket, g)
        end
      else
        let g := set_game gameID
                   (set_players (markAway (userID socket) (players game)) game)
                   g in
        let g := if running game
                 then emit (Notify (gameConnected gameID)) g
                 else emit (Notify (gameMemberChange gameID)) g in
        let g := emit (Notify (playerTable (userID socket) gameID)) g in
        (socket, g)
  end.

(** The notifications of a trace. *)
Definition notifications (l : list event) : list notification :=
  omap (λ e, match e with Notify n => Some n | _ => None end) l.

(** The notifications that one call of [step1] emits. *)
Definition fired (socket : Socket) (g : Globals) : list notification :=
  notifications (drop (length (trace g)) (trace (step1 socket g).2)).

(** The part of a game that belongs to the players and to the turn. *)
Definition play_state (game : Game) : list Player * bool * Z * list Z * Z :=
  (players game, running game, turn_num game, stacks game, clue_num game).

End Lobby.

(** ** Committing a card note ([notes.js]) *)

Module Notes.

Record NoteObject : Type := mkNoteObject {
  name : string;
  note : string;
}.

(** [globals.lobby.conn.send('note', { order, note })] *)
Inductive message : Type :=
| NoteMsg (order : N) (note : string).

(** The globals that the note code reads and writes.  [ourNotes] and
    [allNotes] are arrays indexed by card order; an index without an
    element reads as [undefined] ([None]). *)
Record Globals : Type := mkGlobals {
  replay : bool;
  spectating : bool;
  username : string;                       (* globals.lobby.username *)
  ourNotes : gmap N string;
  allNotes : gmap N (list NoteObject);
  lastNote : option string;
  editingNote : option N;
  actionOccured : bool;
  sent : list message;                     (* what went to the server *)
}.

(** A call either returns or throws; the assignments made before a throw
    stay. *)
Inductive result (A : Type) : Type :=
| Ok (a : A) (g : Globals)
| Throw (g : Globals).
Arguments Ok {A} a g.
Arguments Throw {A} g.

Definition globals_of {A} (r : result A) : Globals :=
  match r with
  | Ok _ g => g
  | Throw g => g
  end.

Inductive key : Type :=
| Enter
| Escape
| OtherKey (k : string).

Definition set_ourNote (order : N) (n : string) (g : Globals) : Globals :=
  mkGlobals (replay g) (spectating g) (username g) (<[order := n]> (ourNotes g))
            (allNotes g) (lastNote g) (editingNote g) (actionOccured g) (sent g).

Definition set_allNotes (order : N) (l : list NoteObject) (g : Globals) : Globals :=
  mkGlobals (replay g) (spectating g) (username g) (ourNotes g)
            (<[order := l]> (allNotes g)) (lastNote g) (editingNote g)
            (actionOccured g) (sent g).

Definition set_lastNote (n : string) (g : Globals) : Globals :=
  mkGlobals (replay g) (spectating g) (username g) (ourNotes g) (allNotes g)
            (Some n) (editingNote g) (actionOccured g) (sent g).

Definition set_editingNote (e : option N) (g : Globals) : Globals :=
  mkGlobals (replay g) (spectating g) (username g) (ourNotes g) (allNotes g)
            (lastNote g) e (actionOccured g) (sent g).

Definition set_actionOccured (b : bool) (g : Globals) : Globals :=
  mkGlobals (replay g) (spectating g) (username g) (ourNotes g) (allNotes g)
            (lastNote g) (editingNote g) b (sent g).

Definition send (m : message) (g : Globals) : Globals :=
  mkGlobals (replay g) (spectating g) (username g) (ourNotes g) (allNotes g)
            (lastNote g) (editingNote g) (actionOccured g) (sent g ++ [m]).

(** [const get = (order, our) => ...]; [None] is [undefined]. *)
Definition get (order : N) (our : bool) (g : Globals) : result (option string) :=
  if our || (negb (replay g) && negb (spectating g)) then
    Ok (ourNotes g !! order) g
  else
    match allNotes g !! order with
    | None => Throw g                       (* for-of over undefined *)
    | Some l =>
        let content :=
          foldl (λ content noteObject,
                   if (0 <? String.length (note noteObject))%nat then
                     content +:+ "<strong>" +:+ name noteObject +:+
                     ":</strong> " +:+ note noteObject +:+ "<br />"
                   else content) "" l in
        let content :=
          if negb (String.length content =? 0)%nat then
            substring 0 (String.length content - 6) content
          else content in
        Ok (Some content) g
    end.

Section WithBrowser.

(** [new DOMParser().parseFromString(input, 'text/html').body.textContent]:
    the HTML parser belongs to the browser. *)
Variable body_textContent : string → string.

(** [checkSpecialNote(card)] reads the stored note and redraws the card; it
    assigns to none of the globals above.  Whether it returns ([true]) or
    throws depends on the card and on the variant, which belong to the
    rendering state. *)
Variable checkSpecialNote : N → Globals → bool.

(** [update(card)] refreshes the tooltip and the note indicator of the
    card; like [checkSpecialNote] it only reads the globals above. *)
Variable update : N → Globals → bool.

(** [const stripHTMLtags = (input) => ...] *)
Definition stripHTMLtags (input : string) : string :=
  let text := body_textContent input in
  if String.eqb text "" then "" else text.       (* textContent || '' *)

(** [const set = (order, note) => ...] *)
Definition set (order : N) (n : string) (g : Globals) : result unit :=
  let oldNote := ourNotes g !! order in
  let g := set_ourNote order n g in
  let r :=
    if spectating g then
      match allNotes g !! order with
      | None => None                        (* for-of over undefined *)
      | Some l =>
          Some (set_allNotes order
                  ((λ noteObject,
                      if String.eqb (name noteObject) (username g)
                      then mkNoteObject (name noteObject) n
                      else noteObject) <$> l) g)
      end
    else Some g in
  match r with
  | None => Throw g
  | Some g =>
      let g := set_lastNote n g in
      (* Send the note to the server *)
      let g := if negb (replay g) && negb (bool_decide (oldNote = Some n))
               then send (NoteMsg order n) g else g in
      if checkSpecialNote order g then Ok tt g else Throw g
  end.

(** The [keydown] handler that [openEditTooltip(card)] installs on the
    input box of the card with order [order]; [value] is the content of the
    box.  (In a replay [openEditTooltip] returns before installing it.)
    The calls on the tooltip itself ([tooltipster]) are left out. *)
Definition openEditTooltip_keydown (order : N) (value : string) (k : key) (g : Globals)
    : result unit :=
  let finish (g : Globals) : result unit :=
    (* Check to see if an event happened while we were editing this note *)
    let g := if actionOccured g then set_actionOccured false g else g in
    if update order g then Ok tt g else Throw g in
  match k with
  | OtherKey _ => Ok tt g
  | Escape =>
      let g := set_editingNote None g in
      (* Use the existing note, if any *)
      match get order true g with
      | Throw g => Throw g
      | Ok _ g => finish g
      end
  | Enter =>
      let g := set_editingNote None g in
      let newNote := value in
      (* Strip any HTML elements *)
      let newNote := stripHTMLtags newNote in
      match set order newNote g with
      | Throw g => Throw g
      | Ok _ g => finish g
      end
  end.

End WithBrowser.

End Notes.

(** ** Sample states *)

Module PersistExamples.
Import Num Json Persist.

(** A timed game of two players in progress at table 7: one card drawn,
    one clue given; bob is to play. *)
Definition ex_log : list action :=
  [ADraw (mkActionDraw "draw" 0 2 1 3);
   AStruct KClue (list_to_map [("type", JStr "clue"); ("giver", JNum 0);
                               ("target", JNum 1); ("turn", JNum 4)])].

Definition ex_options : Options := mkOptions "No Variant" true.

Definition ex_game : Game :=
  mkGame (Some 7%N) (Some ex_options) None
    [Some (mkGamePlayer "alice" 0 [mkCard 3 1 2] 5000 (Some 7%N));
     Some (mkGamePlayer "bob" 1 [] 6000 (Some 7%N))]
    [mkCard 0 0 1] [1; 0; 0] [mkCard 5 2 2] 7 1 4 1 0 ex_log.

Definition ex_table : Table :=
  mkTable 7%N "game" [Some (mkPlayer 11 "alice" (Some 1%N) true);
                      Some (mkPlayer 12 "bob" (Some 2%N) true)]
    (Some ex_options) None true false (Some ex_game).

(** A table whose game has not started. *)
Definition ex_lobby_table : Table :=
  mkTable 8%N "waiting" [Some (mkPlayer 13 "carol" (Some 3%N) true)]
    (Some (mkOptions "No Variant" false)) None false false None.

Definition ex_dir : gmap string filedata := {[ ".gitignore" := Garbage ]}.

Definition ex_fs : FS := mkFS (Some ex_dir) ∅ ∅ ∅.

Definition ex_world : world :=
  mkWorld (<[7%N := ex_table]> (<[8%N := ex_lobby_table]> ∅)) ex_fs [].

(** A shutdown of [ex_world], and the start that follows. *)
Definition ex_shutdown : bool * world :=
  serializeList (map_to_list (w_tables ex_world)).*2 ex_world.

Definition ex_started : outcome world := restoreTables (restart ex_shutdown.2).

Definition ex_restored : world :=
  match ex_started with
  | Done w' => w'
  | _ => restart ex_shutdown.2
  end.

(** The same game with bob's clock at the largest [time.Duration]. *)
Definition ex_overtime_game : Game :=
  mkGame (Some 7%N) (Some ex_options) None
    [Some (mkGamePlayer "alice" 0 [mkCard 3 1 2] 5000 (Some 7%N));
     Some (mkGamePlayer "bob" 1 [] int64_max (Some 7%N))]
    [mkCard 0 0 1] [1; 0; 0] [mkCard 5 2 2] 7 1 4 1 0 ex_log.

Definition ex_overtime_table : Table :=
  mkTable 7%N "game" [Some (mkPlayer 11 "alice" (Some 1%N) true);
                      Some (mkPlayer 12 "bob" (Some 2%N) true)]
    (Some ex_options) None true false (Some ex_overtime_game).

Definition ex_overtime_world : world :=
  mkWorld {[ 7%N := ex_overtime_table ]} ex_fs [].

Definition ex_overtime_shutdown : bool * world :=
  serializeList [ex_overtime_table] ex_overtime_world.

(** A record written by hand: an untimed table 3 whose log holds a draw and
    a play. *)
Definition ex_record : json :=
  obj [("ID", JNum 3);
       ("Options", obj [("Timed", JBool false)]);
       ("Game",
        obj [("Actions",
              JArr [obj [("type", JStr "draw"); ("who", JNum 1);
                         ("rank", JNum 5); ("suit", JNum 0);
                         ("order", JNum 10)];
                    obj [("type", JStr "play");
                         ("which", obj [("index", JNum 1); ("order", JNum 10)])]])])].

Definition ex_record_world : world :=
  mkWorld ∅ (mkFS (Some (<[ "3.json" := Doc ex_record ]> ex_dir)) ∅ ∅ ∅) [].

Definition ex_record_restored : world :=
  match restoreTables ex_record_world with
  | Done w' => w'
  | _ => ex_record_world
  end.

(** A running table whose log holds a value that has no JSON encoding. *)
Definition ex_unencodable_table : Table :=
  mkTable 9%N "odd" [] (Some ex_options) None true false
    (Some (mkGame None None None [] [] [] [] 8 0 0 0 0 [AValue VFunc])).

(** Worlds in which the tables directory is missing, and in which it holds
    a file that is not JSON next to a good record. *)
Definition ex_nodir_world : world := mkWorld ∅ (mkFS None ∅ ∅ ∅) [].

Definition ex_garbage_world : world :=
  mkWorld ∅ (mkFS (Some (<[ "9.json" := Garbage ]>
                           (<[ "3.json" := Doc ex_record ]> ex_dir))) ∅ ∅ ∅) [].

End PersistExamples.

Module LobbyExamples.
Import Lobby.

(** Table 7 with two players and one spectator. *)
Definition ex_game : Game :=
  mkGame {[ 21 := "dave" ]} 1
    [mkPlayer 11 "alice" true [0; 1]; mkPlayer 12 "bob" true [2; 3]]
    true 3 [1; 0] 8.

Definition ex_globals : Globals := mkGlobals {[ 7 := ex_game ]} [].

Definition ex_spectator : Socket := mkSocket 21 "dave" "Spectating" (mkAtTable 7 true).
Definition ex_player : Socket := mkSocket 11 "alice" "Playing" (mkAtTable 7 false).

(** A session marked as spectator of table 7 without being in its list, and
    one whose table is gone. *)
Definition ex_ghost : Socket := mkSocket 22 "erin" "Spectating" (mkAtTable 7 true).
Definition ex_stray : Socket := mkSocket 23 "frank" "Playing" (mkAtTable 99 false).

End LobbyExamples.

Module NotesExamples.
Import Notes.

(** A stand-in for the HTML parser: the text outside of angle brackets. *)
Fixpoint outside_tags (inside : bool) (s : string) : string :=
  match s with
  | EmptyString => EmptyString
  | String c rest =>
      if String.eqb (String c "") "<" then outside_tags true rest
      else if String.eqb (String c "") ">" then outside_tags false rest
      else if inside then outside_tags inside rest
      else String c (outside_tags inside rest)
  end.

Definition ex_globals : Globals :=
  mkGlobals false false "alice" {[ 3%N := "old" ]} ∅ None (Some 3%N) false [].

End NotesExamples.

(** ** What the recovery leaves behind *)

Module PersistInvariants.
Import Num Json Persist.

(** The back-references of a table that lines 85-92 of [restoreTables] set,
    and the presence flags that lines 112-114 clear. *)
Definition linked_table (t : Table) : Prop :=
  ∃ g, tGame t = Some g ∧
    gTable g = Some (tID t) ∧ gOptions g = tOptions t ∧
    gExtraOptions g = tExtraOptions t ∧
    Forall (λ o, ∃ gp, o = Some gp ∧ gpGame gp = Some (tID t)) (gPlayers g) ∧
    Forall (λ o, ∃ p, o = Some p ∧ pPresent p = false) (tPlayers t).

(** Every table of the registry is filed under its own ID and is linked. *)
Definition linked (tables : gmap N Table) : Prop :=
  ∀ id t, tables !! id = Some t → tID t = id ∧ linked_table t.

(** The world in which a run stopped early. *)
Definition failed (o : outcome world) : option world :=
  match o with
  | Done _ => None
  | Fatal _ w => Some w
  | Panic w => Some w
  end.

(** The files deleted in a trace. *)
Definition removed (l : list event) : list string :=
  omap (λ e, match e with EvRemove n => Some n | _ => None end) l.

(** The entry [acts] of a log after the re-typing loop, next to the entry
    [a] that was decoded. *)
Definition retyped_from (a a' : action) : Prop :=
  ∃ m, a = AValue (VMap m) ∧
    if type_is_draw m then ∃ d, decode_ActionDraw m = Some d ∧ a' = ADraw d
    else a' = a.

(** What the loop of [serializeTables] needs of a table to get past it:
    nothing of a table that it skips; of a table that it records, that
    [json.Marshal] and [ioutil.WriteFile] succeed. *)
Definition writable (fs : FS) (t : Table) : Prop :=
  ongoing t = true →
  is_Some (Marshal t) ∧ is_Some (fs_dir fs) ∧
  tableFilename (tID t) ∉ fs_nowrite fs.

End PersistInvariants.

Module PersistMoreExamples.
Import Num Json Persist PersistInvariants PersistExamples.

(** The hand-written record in a directory that refuses its deletion, and
    the world in which the recovery stops there. *)
Definition ex_locked_world : world :=
  mkWorld ∅ (mkFS (Some (<[ "3.json" := Doc ex_record ]> ex_dir)) ∅ ∅
               {[ "3.json" ]}) [].

Definition ex_locked_stopped : world :=
  default ex_locked_world (failed (restoreFile "3.json" ex_locked_world)).

(** The world in which the recovery of [ex_garbage_world] stops. *)
Definition ex_garbage_stopped : world :=
  default ex_garbage_world (failed (restoreTables ex_garbage_world)).

(** The second shutdown of [ex_world], right after the first. *)
Definition ex_shutdown_again : bool * world :=
  serializeList (map_to_list (w_tables ex_shutdown.2)).*2 ex_shutdown.2.

(** A decoded log of a draw and a play, and one whose second entry has
    already been re-typed. *)
Definition ex_decoded_log : list action :=
  [AValue (VMap (list_to_map [("type", VString "draw"); ("who", VFloat 1);
                              ("order", VFloat 10)]));
   AValue (VMap (list_to_map [("type", VString "play")]))].

Definition ex_mixed_log : list action :=
  [AValue (VMap (list_to_map [("type", VString "play")]));
   ADraw (mkActionDraw "draw" 0 0 0 0)].

End PersistMoreExamples.

(** ** More on the return-to-lobby handler *)

Module LobbyInvariants.
Import Lobby.

(** The spectator count of every game is the size of its spectator
    mapping. *)
Definition spec_count_ok (g : Globals) : Prop :=
  ∀ gameID game, currentGames g !! gameID = Some game →
    num_spec game = Z.of_nat (size (spectators game)).

(** What [step1] never touches in a game: everything of the play state but
    the presence flags. *)
Definition seats (game : Game) : list (Z * string * list Z) :=
  (λ p, (p_userID p, p_username p, hand p)) <$> players game.

Definition rules_state (game : Game) : bool * Z * list Z * Z :=
  (running game, turn_num game, stacks game, clue_num game).

(** The number of players marked present. *)
Definition present_count (game : Game) : nat :=
  length (filter (λ p, present p = true) (players game)).

End LobbyInvariants.

(** ** More of the note code ([notes.js]) *)

Module NotesUI.
Import Notes.

(** One line of the combined notes that a spectator sees. *)
Definition entry_html (noteObject : NoteObject) : string :=
  "<strong>" +:+ name noteObject +:+ ":</strong> " +:+ note noteObject.

(** The calls on the tooltip and on the note indicator of a card.  The
    tooltip of a card is named after the card; cards are told apart by their
    order. *)
Inductive uicall : Type :=
| TooltipClose (order : N)
| TooltipContent (order : N) (content : option string)
| TooltipInput (order : N) (note : option string)
| ShowTooltip (order : N)
| FocusInput (order : N)
| SetVisible (order : N) (visible : bool)
| BatchDraw.

(** [const shouldShowIndicator = (order) => ...]; [None] when the loop runs
    over [undefined]. *)
Definition shouldShowIndicator (order : N) (g : Globals) : option bool :=
  if replay g || spectating g then
    match allNotes g !! order with
    | None => None
    | Some l => Some (existsb (λ noteObject, (0 <? String.length (note noteObject))%nat) l)
    end
  else Some (negb (bool_decide (ourNotes g !! order = Some ""))).

(** [const update = (card) => ...]: the calls made, and whether the function
    returned ([true]) or threw; [visibleOld] is what
    [card.noteGiven.getVisible()] gives. *)
Definition update (order : N) (visibleOld : bool) (g : Globals)
    : list uicall * bool :=
  match get order false g with
  | Throw _ => ([], false)
  | Ok None _ => ([TooltipContent order None], false)   (* note.length *)
  | Ok (Some note) _ =>
      let visibleNew := (0 <? String.length note)%nat in
      ([TooltipContent order (Some note)] ++
       (if (String.length note =? 0)%nat then [TooltipClose order] else []) ++
       [SetVisible order visibleNew] ++
       (if Bool.eqb visibleOld visibleNew then [] else [BatchDraw]),
       true)
  end.

Section WithShow.

(** [show(card)] places and opens the tooltip; it assigns to none of the
    globals.  Whether it returns ([true]) or throws depends on the
    rendering state. *)
Variable show : N → Globals → bool.

(** [exports.openEditTooltip = (card) => ...], up to the installation of the
    key handler ([Notes.openEditTooltip_keydown]). *)
Definition openEditTooltip (order : N) (g : Globals) : result (list uicall) :=
  (* Don't edit any notes in replays *)
  if replay g then Ok [] g
  else
    (* Close any existing note tooltips *)
    let closing := match editingNote g with
                   | Some e => [TooltipClose e]
                   | None => []
                   end in
    if bool_decide (editingNote g = Some order) then
      Ok closing (set_editingNote None g)
    else if show order g then
      let g := set_editingNote (Some order) g in
      match get order true g with
      | Throw g => Throw g
      | Ok note g =>
          Ok (closing ++ [ShowTooltip order; TooltipInput order note;
                          FocusInput order]) g
      end
    else Throw g.

End WithShow.

End NotesUI.

(** ** The note indicators of the cards ([notes.js]) *)

Module NotesIndicators.
Import Notes NotesUI.

(** [card.noteGiven]: the image of the note indicator, with the property
    [rotated] that [setCardIndicator] keeps on it; the rotation is in
    degrees. *)
Record Indicator : Type := mkIndicator {
  ind_visible : bool;
  ind_rotated : bool;
  ind_rotation : Z;
}.

Record CardUI : Type := mkCardUI {
  card_order : N;
  noteGiven : Indicator;
}.

(** [globals.deck], [globals.stackBases] and the number of calls of
    [globals.layers.card.batchDraw()].  The two arrays are kept apart from
    [Notes.Globals], whose fields the note functions assign; here the cards
    are changed in place. *)
Record Board : Type := mkBoard {
  deck : list CardUI;
  stackBases : list CardUI;
  batchDraws : nat;
}.

(** The lines of [setCardIndicator] that act on [card.noteGiven]:
    [setVisible(visible)], then [rotate(15)] (relative to the rotation so
    far) and [rotated = true] under the guard. *)
Definition mark (visible : bool) (g : Globals) (card : CardUI) : CardUI :=
  let ind := noteGiven card in
  if visible && spectating g && negb (replay g) && negb (ind_rotated ind) then
    mkCardUI (card_order card) (mkIndicator visible true (ind_rotation ind + 15))
  else
    mkCardUI (card_order card)
      (mkIndicator visible (ind_rotated ind) (ind_rotation ind)).

(** [const setCardIndicator = (order) => ...]; [None] when it throws: in
    [shouldShowIndicator], or at [card.noteGiven] when neither array has the
    card. *)
Definition setCardIndicator (order : N) (g : Globals) (b : Board) : option Board :=
  visible ← shouldShowIndicator order g;
  let i := N.to_nat order in
  match deck b !! i with
  | Some card =>
      Some (mkBoard (<[i := mark visible g card]> (deck b)) (stackBases b)
              (S (batchDraws b)))
  | None =>
      let j := (i - length (deck b))%nat in
      match stackBases b !! j with
      | Some card =>
          Some (mkBoard (deck b) (<[j := mark visible g card]> (stackBases b))
                  (S (batchDraws b)))
      | None => None
      end
  end.

Definition setCardIndicators (orders : list N) (g : Globals) (b : Board)
    : option Board :=
  foldl (λ r order, b ← r; setCardIndicator order g b) (Some b) orders.

(** [exports.setAllCardIndicators = () => ...] *)
Definition setAllCardIndicators (g : Globals) (b : Board) : option Board :=
  b ← setCardIndicators (card_order <$> deck b) g b;
  setCardIndicators (card_order <$> stackBases b) g b.

(** Every card sits at the index given by its order: the deck first, the
    stack bases after it. *)
Definition numbered (b : Board) : Prop :=
  (∀ i card, deck b !! i = Some card → card_order card = N.of_nat i) ∧
  (∀ j card, stackBases b !! j = Some card →
             card_order card = N.of_nat (length (deck b) + j)).

(** The card as [setCardIndicator] leaves it. *)
Definition marked (g : Globals) (card : CardUI) : CardUI :=
  match shouldShowIndicator (card_order card) g with
  | Some visible => mark visible g card
  | None => card
  end.

End NotesIndicators.

Module NotesUIExamples.
Import Notes.

(** A spectator's view: the notes of three players on card 3, none on any
    other card. *)
Definition ex_watching : Globals :=
  mkGlobals false true "alice" {[ 3%N := "old" ]}
    {[ 3%N := [mkNoteObject "alice" "old"; mkNoteObject "bob" "b2";
               mkNoteObject "carol" ""] ]}
    None None false [].

(** A replay in which card 3 was being edited. *)
Definition ex_replay : Globals :=
  mkGlobals true false "alice" ∅ ∅ None (Some 3%N) false [].

(** A board of two cards and one stack base, all indicators off. *)
Definition ex_board : NotesIndicators.Board :=
  NotesIndicators.mkBoard
    [NotesIndicators.mkCardUI 0%N (NotesIndicators.mkIndicator false false 0);
     NotesIndicators.mkCardUI 1%N (NotesIndicators.mkIndicator false false 0)]
    [NotesIndicators.mkCardUI 2%N (NotesIndicators.mkIndicator false false 0)]
    0.

(** The spectator's view with notes on all three of them. *)
Definition ex_watching_all : Globals :=
  mkGlobals false true "alice" ∅
    {[ 0%N := [mkNoteObject "bob" "r1"]; 1%N := [mkNoteObject "bob" ""];
       2%N := [] ]}
    None None false [].

End NotesUIExamples.

(* ===================================================================== *)
(** * Part II: lemmas and theorems                                        *)
(* ===================================================================== *)

(** ** Machine numbers *)

Section NumProofs.
Import Num.

Example round53_tie_to_even : round53 (2 ^ 53 + 1) = 2 ^ 53.
Proof. reflexivity. Qed.

Example round53_tie_up : round53 (2 ^ 53 + 3) = 2 ^ 53 + 4.
Proof. reflexivity. Qed.

Example round53_negative : round53 (- (2 ^ 60 + 129)) = - (2 ^ 60 + 256).
Proof. reflexivity. Qed.

Example wrap64_overflow : wrap64 (int64_max + 1) = int64_min.
Proof. reflexivity. Qed.

Lemma round53_exact (z : Z) : Z.abs z ≤ 2 ^ 53 → round53 z = z.
Proof. intros H. unfold round53. by rewrite (proj2 (Z.leb_le _ _) H). Qed.

Lemma is_float64_exact (z : Z) : Z.abs z ≤ 2 ^ 53 → is_float64 z = true.
Proof.
  intros H. unfold is_float64. rewrite round53_exact by done.
  rewrite Z.eqb_refl. simpl. apply Z.leb_le. unfold float64_max.
  etrans; [exact H|]. done.
Qed.

Lemma is_float64_round (z : Z) : is_float64 z = true → round53 z = z.
Proof. unfold is_float64. intros [H _]%andb_true_iff. by apply Z.eqb_eq. Qed.

Lemma is_float64_in_range (z : Z) : is_float64 z = true → float_in_range z = true.
Proof.
  intros H. unfold float_in_range. rewrite (is_float64_round _ H).
  unfold is_float64 in H. by apply andb_true_iff in H as [_ H].
Qed.

Lemma in_int64_bounds (z : Z) : in_int64 z = true ↔ - 2 ^ 63 ≤ z ≤ 2 ^ 63 - 1.
Proof.
  unfold in_int64, int64_min, int64_max.
  rewrite andb_true_iff, !Z.leb_le. done.
Qed.


Lemma wrap64_exact (z : Z) : in_int64 z = true → wrap64 z = z.
Proof.
  intros H%in_int64_bounds. unfold wrap64.
  rewrite Z.mod_small; lia.
Qed.

End NumProofs.

(** ** Generic decoding and encoding *)

Section JsonProofs.
Import Num Json.

(** A conjunction folded over a map holds exactly when it holds of every
    entry. *)
Lemma map_fold_andb {A} (f : A → bool) (m : gmap string A) :
  map_fold (λ _ x b, f x && b) true m = true ↔
  map_Forall (λ _ x, f x = true) m.
Proof.
  induction m as [|k v m Hk IH] using map_ind.
  - rewrite map_fold_empty. split; [intros _; apply map_Forall_empty | done].
  - rewrite map_fold_insert_L; [| intros; by destruct (f z1), (f z2) | done].
    rewrite map_Forall_insert by done. by rewrite andb_true_iff, IH.
Qed.



Lemma json_size_elem (l : list json) (j : json) :
  j ∈ l → (json_size j < json_size (JArr l))%nat.
Proof.
  intros H. simpl. induction H as [j l|j j' l _ IH]; simpl; lia.
Qed.

Lemma json_size_lookup (m : gmap string json) (k : string) (j : json) :
  m !! k = Some j → (json_size j < json_size (JObj m))%nat.
Proof.
  intros H. simpl. rewrite <- (insert_delete_id m k j H).
  rewrite map_fold_insert_L; [lia | intros; lia | apply lookup_delete_eq].
Qed.

Lemma goval_size_elem (l : list goval) (v : goval) :
  v ∈ l → (goval_size v < goval_size (VSlice l))%nat.
Proof.
  intros H. simpl. induction H as [v l|v v' l _ IH]; simpl; lia.
Qed.

Lemma goval_size_lookup (m : gmap string goval) (k : string) (v : goval) :
  m !! k = Some v → (goval_size v < goval_size (VMap m))%nat.
Proof.
  intros H. simpl. rewrite <- (insert_delete_id m k v H).
  rewrite map_fold_insert_L; [lia | intros; lia | apply lookup_delete_eq].
Qed.

(** Structural induction on documents, with the hypothesis available for
    the elements of an array and for the entries of an object. *)
Lemma json_nested_ind (P : json → Prop) :
  P JNull → (∀ b, P (JBool b)) → (∀ z, P (JNum z)) → (∀ s, P (JStr s)) →
  (∀ l, Forall P l → P (JArr l)) →
  (∀ m, map_Forall (λ _, P) m → P (JObj m)) →
  ∀ j, P j.
Proof.
  intros Hnull Hbool Hnum Hstr Harr Hobj j.
  remember (json_size j) as n eqn:Hn.
  revert j Hn. induction n as [n IH] using lt_wf_ind. intros j ->.
  destruct j as [| | | |l|m]; auto.
  - apply Harr, Forall_forall. intros x Hx.
    eapply IH; [by apply json_size_elem | done].
  - apply Hobj. intros k x Hx.
    eapply IH; [by eapply json_size_lookup | done].
Qed.

Lemma goval_nested_ind (P : goval → Prop) :
  P VNil → (∀ b, P (VBool b)) → (∀ z, P (VFloat z)) → (∀ s, P (VString s)) →
  (∀ l, Forall P l → P (VSlice l)) →
  (∀ m, map_Forall (λ _, P) m → P (VMap m)) →
  P VFunc →
  ∀ v, P v.
Proof.
  intros Hnil Hbool Hnum Hstr Harr Hobj Hfunc v.
  remember (goval_size v) as n eqn:Hn.
  revert v Hn. induction n as [n IH] using lt_wf_ind. intros v ->.
  destruct v as [| | | |l|m|]; auto.
  - apply Harr, Forall_forall. intros x Hx.
    eapply IH; [by apply goval_size_elem | done].
  - apply Hobj. intros k x Hx.
    eapply IH; [by eapply goval_size_lookup | done].
Qed.



Lemma of_json_to_json (v : goval) :
  goval_exact v = true → encodable v = true → of_json (to_json v) = v.
Proof.
  induction v as [| |z| |l IH|m IH|] using goval_nested_ind; simpl; try done.
  - intros H _. by rewrite is_float64_round.
  - intros H E. f_equal. rewrite <- list_fmap_compose.
    rewrite <- (list_fmap_id l) at 2. apply Forall_fmap_ext_1.
    rewrite forallb_forall in H, E. apply Forall_forall. intros x Hx. simpl.
    eapply Forall_forall in IH; [|done].
    apply IH; [apply H | apply E]; by apply list_elem_of_In.
  - intros H%map_fold_andb E%map_fold_andb. f_equal.
    rewrite <- map_fmap_compose.
    rewrite <- (map_fmap_id m) at 2. apply map_fmap_ext. intros k x Hx. simpl.
    eapply IH; [done | by eapply H | by eapply E].
Qed.

Lemma json_exact_in_range (j : json) :
  json_exact j = true → floats_in_range j = true.
Proof.
  induction j as [| |z| |l IH|m IH] using json_nested_ind; simpl; try done.
  - apply is_float64_in_range.
  - rewrite !forallb_forall. intros H x Hx.
    eapply Forall_forall in IH; [|by apply list_elem_of_In]. by apply IH, H.
  - rewrite !map_fold_andb. intros H k x Hx. by eapply IH, H.
Qed.

Lemma to_json_exact (v : goval) : goval_exact v = true → json_exact (to_json v) = true.
Proof.
  induction v as [| |z| |l IH|m IH|] using goval_nested_ind; simpl; try done.
  - rewrite !forallb_forall. intros H x Hx%list_elem_of_In.
    apply list_elem_of_fmap in Hx as (y & -> & Hy).
    eapply Forall_forall in IH; [|done]. apply IH, H. by apply list_elem_of_In.
  - rewrite !map_fold_andb. intros H k x Hx. rewrite lookup_fmap in Hx.
    destruct (m !! k) as [y|] eqn:Hy; simplify_eq/=. by eapply IH, H.
Qed.

Lemma decode_encode_generic (v : goval) (j : json) :
  goval_exact v = true → encode_generic v = Some j → decode_generic j = Some v.
Proof.
  unfold encode_generic, decode_generic. intros Hv He.
  destruct (encodable v) eqn:Hen; [|done]. injection He as <-.
  rewrite json_exact_in_range by by apply to_json_exact.
  by rewrite of_json_to_json.
Qed.

End JsonProofs.

(** ** The record of a table is read back *)

Section RecordProofs.
Import Num Json Persist.

Lemma field_here (k : string) (v : json) (m : gmap string json) :
  field (<[k := v]> m) k = v.
Proof. unfold field. by rewrite lookup_insert_eq. Qed.

Lemma field_next (k k' : string) (v : json) (m : gmap string json) :
  k' ≠ k → field (<[k' := v]> m) k = field m k.
Proof. intros H. unfold field. by rewrite lookup_insert_ne. Qed.

(** Reading the fields of an object literal. *)
Ltac fields :=
  cbn [obj list_to_map foldr uncurry fst snd];
  repeat first [ rewrite field_here | rewrite field_next by discriminate ].














(** Every integer up to [2 ^ 53] in absolute value is such a value, and so
    are the larger ones that a float64 holds, such as [2 ^ 60]; [2 ^ 53 + 1]
    is not. *)
Lemma small_below_2_53 (z : Z) : Z.abs z ≤ 2 ^ 53 → small z = true.
Proof.
  intros H. unfold small. rewrite is_float64_exact by done.
  apply in_int64_bounds. assert (2 ^ 53 < 2 ^ 63) by done. lia.
Qed.

Example small_2_60 : small (2 ^ 60) = true ∧ small (2 ^ 53 + 1) = false.
Proof. split; vm_compute; reflexivity. Qed.

Example draw_beyond_2_53 :
  action_ok (ADraw (mkActionDraw "draw" (2 ^ 60) 1 2 3)) = true.
Proof. vm_compute. reflexivity. Qed.













End RecordProofs.

(** ** Repairing a decoded table *)

Section RepairProofs.
Import Num Json Persist.


Lemma mapM_ptr_inv {A} (f : A → A) (l k : list (option A)) :
  mapM (λ o, x ← o; Some (Some (f x))) l = Some k →
  Forall2 (λ o o', ∃ x, o = Some x ∧ o' = Some (f x)) l k.
Proof.
  intros H%mapM_Some. eapply Forall2_impl; [done|].
  intros [x|] o' Hx; simplify_eq/=. eauto.
Qed.

(** After [markAbsent] no entry is nil and no player is present. *)
Lemma markAbsent_absent (ps ps' : list (option Player)) :
  markAbsent ps = Some ps' →
  length ps' = length ps ∧
  Forall (λ o, ∃ p, o = Some p ∧ pPresent p = false) ps'.
Proof.
  intros H%mapM_ptr_inv. split; [symmetry; by eapply Forall2_length|].
  induction H as [|o o' l l' (p & -> & ->) _ IH]; constructor; eauto.
Qed.

Lemma decode_ActionDraw_type (m : gmap string goval) (d : ActionDraw) :
  type_is_draw m = true → decode_ActionDraw m = Some d → dType d = "draw".
Proof.
  unfold type_is_draw, decode_ActionDraw, ms_string.
  destruct (m !! "type") as [[| | |s| | |]|]; try done.
  intros Hs%String.eqb_eq. subst s. simpl. intros H.
  by simplify_option_eq.
Qed.

Lemma restoreAction_retyped (id : N) (i : nat) (a a' : action) :
  restoreAction id i a = inr a' → retyped a'.
Proof.
  unfold restoreAction. destruct a as [d|k f|[| | | | |m|]]; try done.
  destruct (type_is_draw m) eqn:Ht.
  - destruct (decode_ActionDraw m) as [d|] eqn:Hd; [|done].
    intros [= <-]. left. eauto using decode_ActionDraw_type.
  - intros [= <-]. right. eauto.
Qed.

Lemma restoreActions_retyped (id : N) (i : nat) (l acts : list action) :
  restoreActions id i l = inr acts → Forall retyped acts.
Proof.
  revert i acts. induction l as [|a l IH]; intros i acts; simpl.
  - by intros [= <-].
  - destruct (restoreAction id i a) as [|a'] eqn:Ha; [done|].
    destruct (restoreActions id (S i) l) as [|rest] eqn:Hl; [done|].
    intros [= <-]. constructor; eauto using restoreAction_retyped.
Qed.

Lemma activePlayer_Some (gps : list (option GamePlayer)) (idx : Z) (i : nat)
    (gp : GamePlayer) :
  activePlayer gps idx = Some (i, gp) ↔
  idx = Z.of_nat i ∧ gps !! i = Some (Some gp).
Proof.
  unfold activePlayer. destruct (Z.ltb_spec idx 0) as [Hneg|Hpos].
  - split; [done|]. intros [-> _]. lia.
  - destruct (gps !! Z.to_nat idx) as [[gp'|]|] eqn:Hl.
    + split.
      * intros [= <- <-]. split. { lia. } exact Hl.
      * intros [-> Hi]. rewrite Nat2Z.id in *. by simplify_eq.
    + split; [done|]. intros [-> Hi]. rewrite Nat2Z.id in Hl. by simplify_eq.
    + split; [done|]. intros [-> Hi]. rewrite Nat2Z.id in Hl. by simplify_eq.
Qed.

(** What a successful [repair] has done. *)
Lemma repair_RepOk (t t' : Table) (timer : list goroutine) :
  repair t = RepOk t' timer →
  ∃ g o gps acts ps g',
    tGame t = Some g ∧ tOptions t = Some o ∧
    relinkPlayers (tID t) (gPlayers g) = Some gps ∧
    restoreActions (tID t) 0 (gActions g) = inr acts ∧
    markAbsent (tPlayers t) = Some ps ∧
    tID t' = tID t ∧ tPlayers t' = ps ∧ tOptions t' = tOptions t ∧
    tGame t' = Some g' ∧
    gActions g' = acts ∧ gStacks g' = gStacks g ∧
    gDiscardPile g' = gDiscardPile g ∧ gClueTokens g' = gClueTokens g ∧
    gTurn g' = gTurn g ∧ gActivePlayerIndex g' = gActivePlayerIndex g ∧
    gOptions g' = tOptions t ∧ gTable g' = Some (tID t) ∧
    if oTimed o then
      ∃ i gp, activePlayer gps (gActivePlayerIndex g) = Some (i, gp) ∧
        gPlayers g' = <[i := Some (set_gpTime (wrap64 (gpTime gp + grace)) gp)]> gps ∧
        timer = [CheckTimer (tID t) (gTurn g) (gPauseCount g) i]
    else gPlayers g' = gps ∧ timer = [].
Proof.
  unfold repair.
  destruct (tGame t) as [g|] eqn:Hg; [|done].
  destruct (relinkPlayers _ _) as [gps|] eqn:Hgps; [|done].
  destruct (restoreActions _ _ _) as [|acts] eqn:Hacts; [done|].
  destruct (markAbsent _) as [ps|] eqn:Hps; [|done].
  destruct (tOptions t) as [o|] eqn:Ho; [|done].
  destruct (oTimed o) eqn:Htimed.
  - destruct (activePlayer _ _) as [[i gp]|] eqn:Hact; [|done].
    intros [= <- <-]. eexists g, o, gps, acts, ps, _.
    rewrite Htimed. simpl. repeat (split; [done|]). by exists i, gp.
  - intros [= <- <-]. eexists g, o, gps, acts, ps, _.
    rewrite Htimed. simpl. by repeat (split; [done|]).
Qed.

End RepairProofs.

(** ** File names and single files *)

Section FileProofs.
Import Num Json Persist.

Example tableFilename_7 : tableFilename 7 = "7.json".
Proof. reflexivity. Qed.

Example ReadDir_sorted :
  ReadDir (w_fs PersistExamples.ex_garbage_world) =
  Some [".gitignore"; "3.json"; "9.json"].
Proof. vm_compute. reflexivity. Qed.

Lemma string_app_length (s1 s2 : string) :
  String.length (s1 +:+ s2) = (String.length s1 + String.length s2)%nat.
Proof. induction s1 as [|a s1 IH]; simpl; [done|]. by rewrite IH. Qed.

Lemma string_app_inj_r (s x y : string) : x +:+ s = y +:+ s → x = y.
Proof.
  revert y. induction x as [|a x IH]; intros [|b y] H; simpl in *.
  - done.
  - apply (f_equal String.length) in H. simpl in H.
    rewrite !string_app_length in H. simpl in H. lia.
  - apply (f_equal String.length) in H. simpl in H.
    rewrite !string_app_length in H. simpl in H. lia.
  - injection H as -> H. f_equal. by apply IH.
Qed.

Lemma tableFilename_inj (id1 id2 : N) :
  tableFilename id1 = tableFilename id2 → id1 = id2.
Proof.
  unfold tableFilename. intros H%string_app_inj_r. by apply (inj pretty).
Qed.



Lemma emit_all_spec (timer : list goroutine) (w : world) :
  emit_all timer w =
  mkWorld (w_tables w) (w_fs w) (w_trace w ++ (EvGo <$> timer)).
Proof.
  unfold emit_all. revert w. induction timer as [|g timer IH]; intros w; simpl.
  - rewrite app_nil_r. by destruct w.
  - rewrite IH. simpl. by rewrite <- app_assoc.
Qed.

Lemma restoreFile_gitignore (w : world) : restoreFile ".gitignore" w = Done w.
Proof. done. Qed.

Lemma restoreFile_Done (name : string) (w w' : world) :
  name ≠ ".gitignore" → restoreFile name w = Done w' →
  ∃ data t t' timer fs',
    ReadFile (w_fs w) name = Some data ∧ Unmarshal data = Some t ∧
    repair t = RepOk t' timer ∧ Remove (w_fs w) name = Some fs' ∧
    w' = restored_world name t' timer fs' w.
Proof.
  intros Hn. unfold restoreFile. rewrite decide_False by done.
  destruct (ReadFile _ _) as [data|] eqn:Hr; [|done].
  destruct (Unmarshal data) as [t|] eqn:Hu; [|done].
  destruct (repair t) as [t' timer| |] eqn:Hrep; [|done..].
  rewrite emit_all_spec. simpl.
  destruct (Remove _ _) as [fs'|] eqn:Hrm; [|done].
  intros [= <-]. exists data, t, t', timer, fs'. repeat split; try done.
  unfold restored_world, emit, set_fs. simpl. by rewrite <- !app_assoc.
Qed.


Lemma ongoing_guard (t : Table) :
  negb (tRunning t) || tReplay t = negb (ongoing t).
Proof. unfold ongoing. by destruct (tRunning t), (tReplay t). Qed.

Lemma ReadDir_spec (fs : FS) (files : list string) :
  ReadDir fs = Some files →
  ∃ d, fs_dir fs = Some d ∧ NoDup files ∧ ∀ f, f ∈ files ↔ is_Some (d !! f).
Proof.
  unfold ReadDir. destruct (fs_dir fs) as [d|]; [|done]. simpl.
  intros [= <-]. exists d. split; [done|].
  pose proof (merge_sort_Permutation name_le (map_to_list d).*1) as Hp.
  split.
  - rewrite Hp. apply NoDup_fst_map_to_list.
  - intros f. rewrite Hp. rewrite list_elem_of_fmap. split.
    + intros ([k v] & -> & Hkv%elem_of_map_to_list). by exists v.
    + intros [v Hv]. exists (f, v). split; [done|]. by apply elem_of_map_to_list.
Qed.

Lemma ReadDir_is_Some (fs : FS) (d : gmap string filedata) :
  fs_dir fs = Some d → is_Some (ReadDir fs).
Proof. intros H. unfold ReadDir. rewrite H. by eexists. Qed.







End FileProofs.

(** ** A shutdown followed by a start *)

Section WorldProofs.
Import Num Json Persist.








(** In a registry keyed by table ID no two tables share an ID. *)
Lemma registry_NoDup (tables : gmap N Table) (ts : list Table) :
  (∀ id t, tables !! id = Some t → tID t = id) →
  ts ≡ₚ (map_to_list tables).*2 → NoDup (tID <$> ts).
Proof.
  intros Hkey ->.
  replace (tID <$> (map_to_list tables).*2) with ((map_to_list tables).*1).
  { apply NoDup_fst_map_to_list. }
  rewrite <- list_fmap_compose. apply list_fmap_ext.
  intros i [k t] Hkt. simpl. symmetry. apply Hkey.
  apply elem_of_map_to_list. by eapply list_elem_of_lookup_2.
Qed.

Lemma elem_of_values (tables : gmap N Table) (t : Table) :
  t ∈ (map_to_list tables).*2 ↔ ∃ id, tables !! id = Some t.
Proof.
  rewrite list_elem_of_fmap. split.
  - intros ([k t'] & -> & H%elem_of_map_to_list). by exists k.
  - intros [id H]. exists (id, t). split; [done|]. by apply elem_of_map_to_list.
Qed.




End WorldProofs.

(** ** Failures *)

Section LoopProofs.
Import Num Json Persist.

Lemma serializeList_app (l1 l2 : list Table) (w : world) :
  serializeList (l1 ++ l2) w =
  if (serializeList l1 w).1 then serializeList l2 (serializeList l1 w).2
  else serializeList l1 w.
Proof.
  revert w. induction l1 as [|t l1 IH]; intros w; [done|].
  cbn [app serializeList].
  destruct (negb (tRunning t) || tReplay t); [apply IH|].
  destruct (Marshal t) as [data|]; [|done].
  destruct (WriteFile _ _ _) as [fs'|]; [apply IH|done].
Qed.

Lemma restoreFiles_app (l1 l2 : list string) (w : world) :
  restoreFiles (l1 ++ l2) w =
  match restoreFiles l1 w with
  | Done w1 => restoreFiles l2 w1
  | o => o
  end.
Proof.
  revert w. induction l1 as [|f l1 IH]; intros w; [done|].
  cbn [app restoreFiles]. destruct (restoreFile f w); auto.
Qed.

Lemma restoreFile_unusable (f : string) (w : world) :
  f ≠ ".gitignore" → unusable (w_fs w) f →
  restoreFile f w =
    Fatal (match ReadFile (w_fs w) f with
           | None => ReadFailed f
           | Some _ => UnmarshalFailed f
           end) w.
Proof.
  intros Hf [Hr|(data & Hr & Hu)]; unfold restoreFile;
    rewrite decide_False by done; rewrite Hr; [done|]. by rewrite Hu.
Qed.

(** Restoring one file leaves the other files as they are. *)
Lemma restoreFile_frame (g f : string) (w w' : world) :
  restoreFile g w = Done w' → f ≠ g →
  ReadFile (w_fs w') f = ReadFile (w_fs w) f.
Proof.
  intros Hg Hfg. destruct (decide (g = ".gitignore")) as [->|Hgi].
  - by injection Hg as <-.
  - apply restoreFile_Done in Hg as (data & t & t' & timer & fs' & _ & _ & _ & Hrm & ->);
      [|done].
    cbn [restored_world w_fs]. unfold Remove in Hrm. unfold ReadFile.
    destruct (fs_dir (w_fs w)) as [d|]; [|done]. simpl in *.
    destruct (decide (g ∈ fs_noremove (w_fs w))); [done|].
    destruct (d !! g); [|done]. injection Hrm as <-. simpl.
    destruct (decide (f ∈ fs_noread (w_fs w))); [done|].
    by apply lookup_delete_ne.
Qed.

Lemma restoreFiles_unusable (files : list string) (f : string) (w : world) :
  f ∈ files → f ≠ ".gitignore" → unusable (w_fs w) f →
  ∀ w', restoreFiles files w ≠ Done w'.
Proof.
  intros Hin Hf. revert w. induction files as [|g files IH]; intros w Hbad w'.
  - by apply elem_of_nil in Hin.
  - cbn [restoreFiles]. destruct (decide (g = f)) as [->|Hne].
    + by rewrite restoreFile_unusable.
    + apply elem_of_cons in Hin as [->|Hin]; [done|].
      destruct (restoreFile g w) as [w1| |] eqn:Hg; [|done..].
      apply IH; [done|]. unfold unusable.
      by rewrite (restoreFile_frame g f w w1).
Qed.

(** Claim C3.  [serializeTables]: when the tables before [t] in the
    enumeration were written and marshalling [t] or writing its record
    fails, the run logs the error and returns [false] at once, with the
    directory as the earlier tables left it: the tables after [t] are not
    written.  [restoreTables]: a directory that cannot be listed, a file
    that cannot be read and a record that cannot be decoded each end the
    process with the matching fatal error, at the first such file; and
    whenever the directory holds such a file (other than [.gitignore]) the
    run does not complete: the file is not skipped. *)
Theorem persistence_failures_stop_the_run :
  (∀ (pre post : list Table) (t : Table) (w w1 : world),
     serializeList pre w = (true, w1) →
     tRunning t = true → tReplay t = false →
     Marshal t = None ∨
     (∃ data, Marshal t = Some data ∧
              WriteFile (w_fs w1) (tableFilename (tID t)) data = None) →
     ∃ f, (f = MarshalFailed (tID t) ∨ f = WriteFailed (tableFilename (tID t))) ∧
          serializeList (pre ++ t :: post) w =
            (false, emit (LogError f) (emit (InfoSerializing (tID t)) w1))) ∧
  (∀ w, ReadDir (w_fs w) = None → restoreTables w = Fatal ReadDirFailed w) ∧
  (∀ (w w1 : world) (pre post : list string) (f : string),
     ReadDir (w_fs w) = Some (pre ++ f :: post) →
     restoreFiles pre w = Done w1 → f ≠ ".gitignore" →
     (ReadFile (w_fs w1) f = None →
        restoreTables w = Fatal (ReadFailed f) w1) ∧
     (∀ data, ReadFile (w_fs w1) f = Some data → Unmarshal data = None →
        restoreTables w = Fatal (UnmarshalFailed f) w1)) ∧
  (∀ (w : world) (d : gmap string filedata) (f : string),
     fs_dir (w_fs w) = Some d → is_Some (d !! f) → f ≠ ".gitignore" →
     unusable (w_fs w) f →
     ∀ w', restoreTables w ≠ Done w').
Proof.
  split; [|split; [|split]].
  - intros pre post t w w1 Hpre Hrun Hrep Hfail.
    rewrite serializeList_app, Hpre. cbn [fst snd serializeList].
    rewrite Hrun, Hrep. cbn [negb orb].
    destruct Hfail as [Hm|(data & Hm & Hw)]; rewrite Hm.
    + eexists. split; [by left|done].
    + cbn [emit w_fs]. rewrite Hw. eexists. split; [by right|done].
  - intros w Hdir. unfold restoreTables. by rewrite Hdir.
  - intros w w1 pre post f Hdir Hpre Hf. unfold restoreTables.
    rewrite Hdir, restoreFiles_app, Hpre. cbn [restoreFiles].
    split.
    + intros Hr. rewrite restoreFile_unusable by (done || by left).
      by rewrite Hr.
    + intros data Hr Hu. rewrite restoreFile_unusable by (done || right; eauto).
      by rewrite Hr.
  - intros w d f Hd Hin Hf Hbad w'. unfold restoreTables.
    destruct (ReadDir (w_fs w)) as [files|] eqn:Hfiles; [|done].
    apply ReadDir_spec in Hfiles as (d' & Hd' & _ & Hmem).
    rewrite Hd in Hd'. injection Hd' as <-.
    destruct (restoreFiles files w) as [w1| |] eqn:Hrest; [|done..].
    exfalso. by eapply (restoreFiles_unusable files f w); [apply Hmem|..].
Qed.

End LoopProofs.

(** ** What recovery does to the log and to the clocks *)

Section RestoreProofs.
Import Num Json Persist.

Lemma restoreFile_retyped (f : string) (w w' : world) :
  restoreFile f w = Done w' →
  logs_retyped (w_tables w) → logs_retyped (w_tables w').
Proof.
  intros Hf Hw. destruct (decide (f = ".gitignore")) as [->|Hne].
  - by injection Hf as <-.
  - apply restoreFile_Done in Hf
      as (data & t & t' & timer & fs' & _ & _ & Hrep & _ & ->); [|done].
    apply repair_RepOk in Hrep
      as (g & o & gps & acts & ps & g' & _ & _ & _ & Hacts & _ & _ & _ & _
          & Hg' & Ha & _).
    intros id t0. cbn [restored_world w_tables].
    destruct (decide (tID t' = id)) as [<-|Hid].
    + rewrite lookup_insert_eq. intros [= <-]. exists g'. split; [done|].
      rewrite Ha. by eapply restoreActions_retyped.
    + rewrite lookup_insert_ne by done. apply Hw.
Qed.

Lemma restoreFiles_retyped (files : list string) (w w' : world) :
  restoreFiles files w = Done w' →
  logs_retyped (w_tables w) → logs_retyped (w_tables w').
Proof.
  revert w. induction files as [|f files IH]; intros w; cbn [restoreFiles].
  - by intros [= <-].
  - destruct (restoreFile f w) as [w1| |] eqn:Hf; [|done..].
    intros Hrest Hw. eapply IH; [done|]. by eapply restoreFile_retyped.
Qed.

Lemma restoreAction_origin (id : N) (i : nat) (a a' : action) :
  restoreAction id i a = inr a' → retyped_entry a a'.
Proof.
  unfold restoreAction. destruct a as [d|k f|[| | | | |m|]]; try done.
  intros H. exists m. split; [done|].
  destruct (type_is_draw m) eqn:Hty; [|by injection H as <-].
  destruct (decode_ActionDraw m) as [dr|] eqn:Hdec; [|done].
  injection H as <-. exists dr. split; [done|]. split; [done|].
  by eapply decode_ActionDraw_type.
Qed.

Lemma restoreActions_origin (id : N) (i : nat) (l acts : list action) :
  restoreActions id i l = inr acts → Forall2 retyped_entry l acts.
Proof.
  revert i acts. induction l as [|a l IH]; intros i acts; cbn [restoreActions].
  - intros [= <-]. constructor.
  - destruct (restoreAction id i a) as [f|a'] eqn:Ha; [done|].
    destruct (restoreActions id (S i) l) as [f|rest] eqn:Hrest; [done|].
    intros [= <-]. constructor; [by eapply restoreAction_origin|by eapply IH].
Qed.

(** Where a table of the registry comes from after a round of the loop:
    it was there before, or it is the repaired table of the record. *)
Lemma restoreFile_origin (f : string) (w w' : world) (id : N) (t' : Table) :
  restoreFile f w = Done w' → w_tables w' !! id = Some t' →
  w_tables w !! id = Some t' ∨
  ∃ data t timer,
    f ≠ ".gitignore" ∧ ReadFile (w_fs w) f = Some data ∧
    Unmarshal data = Some t ∧ repair t = RepOk t' timer ∧ tID t' = id.
Proof.
  intros Hrun. destruct (decide (f = ".gitignore")) as [->|Hne].
  - rewrite restoreFile_gitignore in Hrun. injection Hrun as <-. by left.
  - apply restoreFile_Done in Hrun
      as (data & t & t1 & timer & fs' & Hread & Hun & Hrep & _ & ->); [|done].
    cbn [restored_world w_tables].
    destruct (decide (tID t1 = id)) as [<-|Hid].
    + rewrite lookup_insert_eq. intros [= <-]. right. by exists data, t, timer.
    + rewrite lookup_insert_ne by done. by left.
Qed.

Lemma restoreFiles_origin (files : list string) (w w' : world) (id : N)
    (t' : Table) :
  NoDup files → restoreFiles files w = Done w' →
  w_tables w' !! id = Some t' →
  w_tables w !! id = Some t' ∨
  ∃ name data t timer,
    name ∈ files ∧ name ≠ ".gitignore" ∧ ReadFile (w_fs w) name = Some data ∧
    Unmarshal data = Some t ∧ repair t = RepOk t' timer ∧ tID t' = id.
Proof.
  revert w. induction files as [|f files IH]; intros w Hnd; cbn [restoreFiles].
  - intros [= <-] H. by left.
  - apply NoDup_cons in Hnd as [Hf Hnd].
    destruct (restoreFile f w) as [w1| |] eqn:Hrun; [|done..].
    intros Hrest Hlook.
    destruct (IH w1 Hnd Hrest Hlook)
      as [H1|(name & data & t & timer & Hin & Hne & Hread & Hun & Hrep & Hid)].
    + destruct (restoreFile_origin _ _ _ _ _ Hrun H1)
        as [H0|(data & t & timer & Hne & Hread & Hun & Hrep & Hid)].
      * by left.
      * right. exists f, data, t, timer. split; [apply elem_of_cons; by left|done].
    + right. exists name, data, t, timer.
      split; [apply elem_of_cons; by right|]. split; [done|]. split; [|done].
      rewrite <- Hread. symmetry. eapply restoreFile_frame; [done|].
      by intros ->.
Qed.

(** Claim C2, as amended.  After [restoreTables] has completed on a fresh
    registry, every table of the registry is the repaired table of a record
    of the directory, and its action log is the decoded log of that record
    entry by entry: every decoded entry was a generic string-keyed map; an
    entry whose ["type"] is ["draw"] has been re-typed into the draw action
    that it decodes into, and every other entry is left as the generic map
    that it was decoded into, its ["type"] being something other than
    ["draw"]. *)
Theorem restored_logs_retype_draws_only (w w' : world) :
  w_tables w = ∅ → restoreTables w = Done w' →
  ∀ id t', w_tables w' !! id = Some t' →
    ∃ name data t g g',
      name ≠ ".gitignore" ∧
      ReadFile (w_fs w) name = Some data ∧ Unmarshal data = Some t ∧
      tID t = id ∧ tGame t = Some g ∧ tGame t' = Some g' ∧
      Forall2
        (λ a a', ∃ m, a = AValue (VMap m) ∧
           if type_is_draw m
           then ∃ dr, decode_ActionDraw m = Some dr ∧ a' = ADraw dr ∧
                      dType dr = "draw"
           else a' = a)
        (gActions g) (gActions g').
Proof.
  intros Hempty. unfold restoreTables.
  destruct (ReadDir (w_fs w)) as [files|] eqn:Hfiles; [|done].
  destruct (restoreFiles files w) as [w1| |] eqn:Hrest; [|done..].
  intros [= <-] id t' Hlook. cbn [emit w_tables] in Hlook.
  apply ReadDir_spec in Hfiles as (d & _ & Hnd & _).
  destruct (restoreFiles_origin _ _ _ _ _ Hnd Hrest Hlook)
    as [H0|(name & data & t & timer & _ & Hne & Hread & Hun & Hrep & Hid)].
  - by rewrite Hempty, lookup_empty in H0.
  - apply repair_RepOk in Hrep
      as (g & o & gps & acts & ps & g' & Hg & _ & _ & Hacts & _ & Hid' & _ & _
          & Hg' & Ha & _).
    exists name, data, t, g, g'. split; [done|]. split; [done|].
    split; [done|]. split; [congruence|]. split; [done|]. split; [done|].
    rewrite Ha. exact (restoreActions_origin _ _ _ _ Hacts).
Qed.


Lemma dec_int_range (j : json) (z : Z) : dec_int j = Some z → in_int64 z = true.
Proof.
  destruct j as [| |n| | |]; simpl; try done.
  - by intros [= <-].
  - destruct (in_int64 n) eqn:Hn; [|done]. by intros [= <-].
Qed.

(** Going through the steps of a decoder that succeeded. *)
Ltac unbind H :=
  repeat match type of H with
         | (?x ≫= _) = Some _ =>
             let E := fresh "E" in
             destruct x eqn:E; [cbn [mbind option_bind] in H | by simpl in H]
         end.

Lemma dec_GamePlayer_time (m : gmap string json) (gp : GamePlayer) :
  dec_GamePlayer m = Some gp → in_int64 (gpTime gp) = true.
Proof.
  unfold dec_GamePlayer. intros H. unbind H.
  injection H as <-. simpl. by eapply dec_int_range.
Qed.

Lemma dec_players_time (j : json) (l : list (option GamePlayer)) :
  dec_slice (dec_ptr dec_GamePlayer) j = Some l → times_in_range l.
Proof.
  unfold dec_slice, times_in_range.
  destruct j as [| | | |js|]; try done.
  - by intros [= <-].
  - intros H%mapM_Some. induction H as [|x o js l Hx _ IH]; constructor; [|done].
    intros gp ->. unfold dec_ptr in Hx. destruct x as [| | | | |m]; try done.
    destruct (dec_GamePlayer m) as [gp'|] eqn:Hgp; [|done].
    simpl in Hx. injection Hx as ->. by eapply dec_GamePlayer_time.
Qed.

Lemma Unmarshal_times (data : filedata) (t : Table) (g : Game) :
  Unmarshal data = Some t → tGame t = Some g → times_in_range (gPlayers g).
Proof.
  unfold Unmarshal. destruct data as [j|]; [|done].
  unfold dec_struct. destruct j as [| | | | |m]; try done.
  { by intros [= <-]. }
  unfold dec_Table. intros H Hg. unbind H.
  injection H as <-. simpl in Hg. subst.
  match goal with E : dec_ptr dec_Game _ = _ |- _ => rename E into Hdec end.
  unfold dec_ptr in Hdec. destruct (field m "Game") as [| | | | |mg]; try done.
  destruct (dec_Game mg) as [g'|] eqn:Hdg; [|done].
  simpl in Hdec. injection Hdec as ->.
  unfold dec_Game in Hdg. unbind Hdg.
  injection Hdg as <-. simpl. by eapply dec_players_time.
Qed.

Lemma relinkPlayers_lookup (id : N) (gps gps' : list (option GamePlayer)) :
  relinkPlayers id gps = Some gps' →
  length gps' = length gps ∧
  ∀ i, (∀ gp', gps' !! i = Some (Some gp') →
          ∃ gp, gps !! i = Some (Some gp) ∧ gpTime gp' = gpTime gp) ∧
       (∀ gp, gps !! i = Some (Some gp) →
          ∃ gp', gps' !! i = Some (Some gp') ∧ gpTime gp' = gpTime gp).
Proof.
  intros H%mapM_ptr_inv. split; [symmetry; by eapply Forall2_length|].
  intros i. split.
  - intros gp' Hi. destruct (Forall2_lookup_r _ _ _ _ _ H Hi) as (o & Ho & gp & -> & [= ->]).
    by exists gp.
  - intros gp Hi. destruct (Forall2_lookup_l _ _ _ _ _ H Hi) as (o & Ho & gp0 & [= <-] & ->).
    eexists. by split.
Qed.

Lemma started_timer (timer : list goroutine) (id : N) (name : string)
    (tr : list event) :
  started (drop (length tr)
             (tr ++ (EvGo <$> timer) ++
              [InfoRestored id; EvRemove name; EvGo (CheckIdle id)])) =
  timer ++ [CheckIdle id].
Proof.
  rewrite drop_app_length. unfold started. rewrite omap_app. f_equal.
  induction timer as [|g timer IH]; [done|].
  rewrite fmap_cons. cbn [omap list_omap]. by rewrite IH.
Qed.

(** Claim C7, as amended.  When [restoreTables] gets through the record
    [name] of a table [t]: if the options of [t] mark it as timed, the time
    of the active player becomes the recorded time plus 20 seconds in int64
    arithmetic (so it is the recorded time plus 20 seconds, and strictly
    greater, whenever that sum does not exceed the largest int64), the
    times of the other players are unchanged, and the goroutines started
    are the turn-timer watcher for the active player, with the turn and the
    pause count of the game, followed by the idle watcher; if [t] is
    untimed, no time changes and only the idle watcher is started. *)
Theorem timed_table_gets_grace (name : string) (w w' : world)
    (data : filedata) (t : Table) :
  name ≠ ".gitignore" →
  ReadFile (w_fs w) name = Some data → Unmarshal data = Some t →
  restoreFile name w = Done w' →
  ∃ o g t' g',
    tOptions t = Some o ∧ tGame t = Some g ∧
    w_tables w' !! tID t = Some t' ∧ tGame t' = Some g' ∧
    length (gPlayers g') = length (gPlayers g) ∧
    if oTimed o then
      ∃ i gp gp',
        gActivePlayerIndex g = Z.of_nat i ∧
        gPlayers g !! i = Some (Some gp) ∧ gPlayers g' !! i = Some (Some gp') ∧
        gpTime gp' = wrap64 (gpTime gp + 20 * Second) ∧
        (gpTime gp + 20 * Second ≤ int64_max →
           gpTime gp' = gpTime gp + 20 * Second ∧ gpTime gp < gpTime gp') ∧
        (∀ j gq, j ≠ i → gPlayers g !! j = Some (Some gq) →
           ∃ gq', gPlayers g' !! j = Some (Some gq') ∧ gpTime gq' = gpTime gq) ∧
        started (drop (length (w_trace w)) (w_trace w')) =
          [CheckTimer (tID t) (gTurn g) (gPauseCount g) i; CheckIdle (tID t)]
    else
      (∀ j gq, gPlayers g !! j = Some (Some gq) →
         ∃ gq', gPlayers g' !! j = Some (Some gq') ∧ gpTime gq' = gpTime gq) ∧
      started (drop (length (w_trace w)) (w_trace w')) = [CheckIdle (tID t)].
Proof.
  intros Hname Hread Hun Hdone.
  apply restoreFile_Done in Hdone
    as (data' & t0 & t' & timer & fs' & Hread' & Hun' & Hrep & _ & ->); [|done].
  rewrite Hread in Hread'. injection Hread' as <-.
  rewrite Hun in Hun'. injection Hun' as <-.
  apply repair_RepOk in Hrep
    as (g & o & gps & acts & ps & g' & Hg & Ho & Hgps & _ & _ & Hid & _ & _
        & Hg' & _ & _ & _ & _ & _ & _ & _ & _ & Htimed).
  pose proof (Unmarshal_times data t g Hun Hg) as Hrange.
  apply relinkPlayers_lookup in Hgps as [Hlen Hlook].
  exists o, g, t', g'. split; [done|]. split; [done|].
  cbn [restored_world w_tables w_trace]. rewrite Hid.
  split; [apply lookup_insert_eq|]. split; [done|].
  rewrite started_timer.
  destruct (oTimed o).
  - destruct Htimed as (i & gp1 & Hact & Hplayers & ->).
    apply activePlayer_Some in Hact as [Hidx Hi].
    destruct (proj1 (Hlook i) gp1 Hi) as (gp & Hgp & Htime).
    rewrite Hplayers, length_insert. split; [done|].
    exists i, gp, (set_gpTime (wrap64 (gpTime gp1 + grace)) gp1).
    split; [done|]. split; [done|]. split.
    { apply list_lookup_insert_eq. by eapply lookup_lt_Some. }
    cbn [set_gpTime gpTime]. rewrite Htime. unfold grace.
    split; [done|]. split; [|split; [|done]].
    + intros Hmax.
      assert (Hin : in_int64 (gpTime gp) = true).
      { eapply Forall_lookup_1 in Hrange; [|done]. by apply Hrange. }
      apply in_int64_bounds in Hin. unfold int64_max, Second in *.
      rewrite wrap64_exact by (apply in_int64_bounds; lia). lia.
    + intros j gq Hj Hgq. destruct (proj2 (Hlook j) gq Hgq) as (gq' & Hgq' & Ht).
      exists gq'. by rewrite list_lookup_insert_ne.
  - destruct Htimed as [-> ->]. split; [done|]. split; [|done].
    intros j gq Hgq. by apply (Hlook j).
Qed.

End RestoreProofs.

(** ** The layout of the tables directory *)

Section LayoutProofs.
Import Num Json Persist PersistInvariants.

Lemma writes_app (l1 l2 : list event) : writes (l1 ++ l2) = writes l1 ++ writes l2.
Proof. apply omap_app. Qed.

(** The writes of a run of [serializeList] are the records of the ongoing
    tables it has come to, one each and in order: of all of them when it
    returns [true]. *)
Lemma serializeList_writes (ts : list Table) (w w' : world) (b : bool) :
  serializeList ts w = (b, w') →
  ∃ reached new,
    writes (w_trace w') = writes (w_trace w) ++ new ∧
    Forall2 record_of reached new ∧
    reached `prefix_of` filter (λ t, ongoing t = true) ts ∧
    (b = true → reached = filter (λ t, ongoing t = true) ts).
Proof.
  revert w. induction ts as [|t ts IH]; intros w.
  - intros [= <- <-]. exists [], []. rewrite app_nil_r. by repeat split.
  - cbn [serializeList]. rewrite ongoing_guard, filter_cons.
    destruct (ongoing t) eqn:Hon; cbn [negb].
    + rewrite decide_True by done.
      destruct (Marshal t) as [data|] eqn:Hm.
      * destruct (WriteFile _ _ _) as [fs'|] eqn:Hw.
        -- intros (reached & new & Hwr & Hrec & Hpre & Hall)%IH.
           exists (t :: reached), ((tableFilename (tID t), data) :: new).
           cbn [emit set_fs w_trace] in Hwr.
           rewrite !writes_app in Hwr. simpl in Hwr.
           rewrite app_nil_r, <- app_assoc in Hwr.
           split; [done|]. split; [by constructor|].
           split; [by apply prefix_cons|]. intros Hb. by rewrite Hall.
        -- intros [= <- <-]. exists [], []. cbn [emit w_trace].
           rewrite !writes_app. simpl. rewrite !app_nil_r.
           split; [done|]. split; [done|]. split; [apply prefix_nil|done].
      * intros [= <- <-]. exists [], []. cbn [emit w_trace].
        rewrite !writes_app. simpl. rewrite !app_nil_r.
        split; [done|]. split; [done|]. split; [apply prefix_nil|done].
    + rewrite decide_False by done.
      intros (reached & new & Hwr & Hrec & Hpre & Hall)%IH.
      exists reached, new. cbn [emit w_trace] in Hwr.
      rewrite writes_app in Hwr. simpl in Hwr. rewrite app_nil_r in Hwr. done.
Qed.

(** A completed [restoreFiles] has removed every entry it was given except
    the housekeeping file. *)
Lemma restoreFiles_dir (files : list string) (w w' : world)
    (d : gmap string filedata) :
  restoreFiles files w = Done w' → fs_dir (w_fs w) = Some d →
  ∃ d', fs_dir (w_fs w') = Some d' ∧
    ∀ f, d' !! f =
         if decide (f ∈ files ∧ f ≠ ".gitignore") then None else d !! f.
Proof.
  revert w d. induction files as [|g files IH]; intros w d; cbn [restoreFiles].
  - intros [= <-] Hd. exists d. split; [done|]. intros f.
    rewrite decide_False; [done|]. by intros [?%elem_of_nil _].
  - destruct (restoreFile g w) as [w1| |] eqn:Hg; [|done..].
    intros Hrest Hd. destruct (decide (g = ".gitignore")) as [->|Hgi].
    + injection Hg as <-. destruct (IH w d Hrest Hd) as (d' & Hd' & Hlook).
      exists d'. split; [done|]. intros f. rewrite Hlook.
      destruct (decide (f ∈ files ∧ f ≠ ".gitignore")) as [[? ?]|Hn].
      * rewrite decide_True; [done|]. split; [by right|done].
      * rewrite decide_False; [done|].
        intros [[->|?]%elem_of_cons ?]; [done|]. by apply Hn.
    + apply restoreFile_Done in Hg
        as (data & t & t' & timer & fs' & _ & _ & _ & Hrm & ->); [|done].
      unfold Remove in Hrm. rewrite Hd in Hrm. simpl in Hrm.
      destruct (decide (g ∈ fs_noremove (w_fs w))); [done|].
      destruct (d !! g) as [content|] eqn:Hdg; [|done]. injection Hrm as <-.
      destruct (IH _ (delete g d) Hrest eq_refl) as (d' & Hd' & Hlook).
      exists d'. split; [done|]. intros f. rewrite Hlook.
      destruct (decide (f = g)) as [->|Hfg].
      * rewrite (decide_True (P := g ∈ g :: files ∧ _)); [|split; [left|done]].
        destruct (decide _); [done|apply lookup_delete_eq].
      * rewrite lookup_delete_ne by done.
        destruct (decide (f ∈ files ∧ f ≠ ".gitignore")) as [[? ?]|Hn].
        -- rewrite decide_True; [done|]. split; [by right|done].
        -- rewrite decide_False; [done|].
           intros [[->|?]%elem_of_cons ?]; [done|]. by apply Hn.
Qed.

(** What any run of the loop of [serializeTables] leaves alone, whether it
    returns true or false. *)
Lemma serializeList_frame (ts : list Table) (w w' : world) (b : bool) :
  serializeList ts w = (b, w') →
  w_tables w' = w_tables w ∧
  fs_noread (w_fs w') = fs_noread (w_fs w) ∧
  fs_nowrite (w_fs w') = fs_nowrite (w_fs w) ∧
  fs_noremove (w_fs w') = fs_noremove (w_fs w) ∧
  match fs_dir (w_fs w) with
  | None => fs_dir (w_fs w') = None
  | Some d =>
      ∃ d', fs_dir (w_fs w') = Some d' ∧
        (∀ n, is_Some (d !! n) → is_Some (d' !! n)) ∧
        (∀ n, (∀ t, t ∈ ts → ongoing t = true → n ≠ tableFilename (tID t)) →
              d' !! n = d !! n)
  end.
Proof.
  revert w. induction ts as [|t ts IH]; intros w; cbn [serializeList].
  - intros [= <- <-]. repeat (split; [done|]).
    destruct (fs_dir (w_fs w)) as [d|]; [|done]. by exists d.
  - rewrite ongoing_guard. destruct (ongoing t) eqn:Hon; cbn [negb].
    + assert (∀ e, let w1 := emit e (emit (InfoSerializing (tID t)) w) in
                w_tables w1 = w_tables w ∧
                fs_noread (w_fs w1) = fs_noread (w_fs w) ∧
                fs_nowrite (w_fs w1) = fs_nowrite (w_fs w) ∧
                fs_noremove (w_fs w1) = fs_noremove (w_fs w) ∧
                match fs_dir (w_fs w) with
                | None => fs_dir (w_fs w1) = None
                | Some d =>
                    ∃ d', fs_dir (w_fs w1) = Some d' ∧
                      (∀ n, is_Some (d !! n) → is_Some (d' !! n)) ∧
                      (∀ n, (∀ t0, t0 ∈ t :: ts → ongoing t0 = true →
                                   n ≠ tableFilename (tID t0)) →
                            d' !! n = d !! n)
                end) as Hstop.
      { intros e. cbn. repeat (split; [done|]).
        destruct (fs_dir (w_fs w)) as [d|]; [|done]. by exists d. }
      destruct (Marshal t) as [data|]; [|intros [= <- <-]; apply Hstop].
      unfold WriteFile. cbn [emit w_fs].
      destruct (fs_dir (w_fs w)) as [d|] eqn:Hd; cbn [mbind option_bind];
        [|intros [= <- <-]; apply Hstop].
      destruct (decide (tableFilename (tID t) ∈ fs_nowrite (w_fs w)))
        as [Hdeny|Hfree]; [intros [= <- <-]; apply Hstop|].
      intros (Ht & Hr & Hw & Hrm & d' & Hd' & Hkeep & Hother)%IH.
      cbn in Ht, Hr, Hw, Hrm, Hd', Hkeep, Hother.
      repeat (split; [done|]). exists d'. split; [done|]. split.
      * intros n Hn. apply Hkeep.
        destruct (decide (n = tableFilename (tID t))) as [->|Hne].
        -- by rewrite lookup_insert_eq.
        -- by rewrite lookup_insert_ne.
      * intros n Hn. rewrite Hother.
        -- rewrite lookup_insert_ne; [done|].
           intros Heq. apply (Hn t); [apply elem_of_cons; by left|done|done].
        -- intros t0 Ht0. apply Hn, elem_of_cons. by right.
    + intros (Ht & Hr & Hw & Hrm & Hdir)%IH. cbn in Ht, Hr, Hw, Hrm, Hdir.
      repeat (split; [done|]).
      destruct (fs_dir (w_fs w)) as [d|]; [|done].
      destruct Hdir as (d' & Hd' & Hkeep & Hother). exists d'.
      split; [done|]. split; [done|].
      intros n Hn. apply Hother. intros t0 Ht0. apply Hn, elem_of_cons. by right.
Qed.

Lemma serializeList_true_inv (ts : list Table) (w w' : world) :
  serializeList ts w = (true, w') → Forall (writable (w_fs w)) ts.
Proof.
  revert w. induction ts as [|t ts IH]; intros w; cbn [serializeList]; [done|].
  rewrite ongoing_guard. destruct (ongoing t) eqn:Hon; cbn [negb].
  - destruct (Marshal t) as [data|] eqn:Hm; [|done].
    unfold WriteFile. cbn [emit w_fs].
    destruct (fs_dir (w_fs w)) as [d|] eqn:Hd; cbn [mbind option_bind]; [|done].
    destruct (decide (tableFilename (tID t) ∈ fs_nowrite (w_fs w)))
      as [Hdeny|Hfree]; [done|].
    intros Hrest%IH. constructor.
    + intros _. rewrite Hd. done.
    + eapply Forall_impl; [done|]. intros t0 Hw Ht0. specialize (Hw Ht0).
      cbn in Hw. rewrite Hd. destruct Hw as (? & _ & ?). done.
  - intros Hrest%IH. constructor; [intros ?; congruence|done].
Qed.

Lemma serializeList_content (ts : list Table) (w w' : world)
    (d : gmap string filedata) :
  serializeList ts w = (true, w') → fs_dir (w_fs w) = Some d →
  NoDup (tID <$> ts) →
  ∃ d', fs_dir (w_fs w') = Some d' ∧
    ∀ t, t ∈ ts → ongoing t = true → d' !! tableFilename (tID t) = Marshal t.
Proof.
  revert w d. induction ts as [|t ts IH]; intros w d; cbn [serializeList].
  - intros [= <-] Hd _. exists d. split; [done|]. by intros t ?%elem_of_nil.
  - rewrite fmap_cons. intros Hrun Hd [Hnew Hnodup]%NoDup_cons.
    revert Hrun. rewrite ongoing_guard. destruct (ongoing t) eqn:Hon; cbn [negb].
    + destruct (Marshal t) as [data|] eqn:Hm; [|done].
      unfold WriteFile. cbn [emit w_fs]. rewrite Hd. cbn [mbind option_bind].
      destruct (decide (tableFilename (tID t) ∈ fs_nowrite (w_fs w)))
        as [Hdeny|Hfree]; [done|].
      intros Hrun.
      destruct (IH _ _ Hrun eq_refl Hnodup) as (d' & Hd' & Hrec).
      exists d'. split; [done|].
      intros t0 [->|Ht0]%elem_of_cons Hon0; [|by apply Hrec].
      apply serializeList_frame in Hrun as (_ & _ & _ & _ & Hdir).
      cbn in Hdir. destruct Hdir as (d'' & Hd'' & _ & Hother).
      assert (d'' = d') as -> by congruence.
      rewrite Hother, lookup_insert_eq; [by rewrite Hm|].
      intros t1 Ht1 _ Heq%tableFilename_inj. apply Hnew.
      rewrite Heq. by apply list_elem_of_fmap_2.
    + intros Hrun. destruct (IH _ _ Hrun Hd Hnodup) as (d' & Hd' & Hrec).
      exists d'. split; [done|].
      intros t0 [->|Ht0]%elem_of_cons Hon0; [congruence|by apply Hrec].
Qed.

(** Claim C8.  A run of [serializeTables] that returns [true] has written
    one record for each running, non-replay table of the enumeration, in
    order, under the name [<ID>.json] (the decimal table ID followed by
    [.json], so different tables have different names), and nothing else:
    no record for a table that is unstarted or a replay.  The records are
    in the tables directory afterwards: with the registry keyed by table
    ID, the directory holds under [<ID>.json] the record of each running,
    non-replay table, and every entry under another name is what it was.
    [restoreTables]
    passes over [.gitignore] without touching anything, and when it has
    completed, every other entry of the directory has been consumed: the
    directory holds at most [.gitignore], unchanged. *)
Theorem one_record_per_ongoing_table :
  (∀ (ts : list Table) (w w' : world),
     serializeList ts w = (true, w') →
     ∃ new,
       writes (w_trace w') = writes (w_trace w) ++ new ∧
       Forall2 (λ t wr, wr.1 = tableFilename (tID t) ∧ Marshal t = Some wr.2)
               (filter (λ t, tRunning t = true ∧ tReplay t = false) ts) new) ∧
  (∀ (w w' : world),
     (∀ id t, w_tables w !! id = Some t → tID t = id) →
     serializeTables w (true, w') →
     (∀ id t, w_tables w !! id = Some t →
        tRunning t = true → tReplay t = false →
        ∃ d' data, fs_dir (w_fs w') = Some d' ∧ Marshal t = Some data ∧
                   d' !! tableFilename id = Some data) ∧
     (∀ d, fs_dir (w_fs w) = Some d →
        ∃ d', fs_dir (w_fs w') = Some d' ∧
          ∀ n, (∀ id t, w_tables w !! id = Some t →
                  tRunning t = true → tReplay t = false →
                  n ≠ tableFilename id) →
               d' !! n = d !! n)) ∧
  (∀ id, tableFilename id = pretty id +:+ ".json") ∧
  (∀ id1 id2, tableFilename id1 = tableFilename id2 → id1 = id2) ∧
  (∀ w, restoreFile ".gitignore" w = Done w) ∧
  (∀ (w w' : world) (d : gmap string filedata),
     fs_dir (w_fs w) = Some d → restoreTables w = Done w' →
     ∃ d', fs_dir (w_fs w') = Some d' ∧
       ∀ f, d' !! f = if decide (f = ".gitignore") then d !! f else None).
Proof.
  split; [|split; [|split; [|split; [|split]]]].
  - intros ts w w' (reached & new & Hwr & Hrec & _ & Hall)%serializeList_writes.
    exists new. split; [done|]. rewrite Hall in Hrec by done.
    replace (filter (λ t, tRunning t = true ∧ tReplay t = false) ts)
      with (filter (λ t, ongoing t = true) ts); [done|].
    apply list_filter_iff. intros t. unfold ongoing.
    destruct (tRunning t), (tReplay t); simpl; split; try done; by intros [??].
  - intros w w' Hkey (ts & Hperm & Hrun). split.
    + intros id t Hlook Hr Hp.
      assert (ongoing t = true) as Hon by (unfold ongoing; by rewrite Hr, Hp).
      assert (t ∈ ts) as Hin.
      { rewrite Hperm. apply elem_of_values. by exists id. }
      pose proof (serializeList_true_inv _ _ _ Hrun) as Hall.
      destruct (proj1 (Forall_forall _ _) Hall t Hin Hon)
        as ([data Hdata] & [d Hd] & _).
      destruct (serializeList_content _ _ _ d Hrun Hd
                  (registry_NoDup _ _ Hkey Hperm)) as (d' & Hd' & Hrec).
      exists d', data. split; [done|]. split; [done|].
      rewrite <- (Hkey _ _ Hlook), <- Hdata. by apply Hrec.
    + intros d Hd.
      apply serializeList_frame in Hrun as (_ & _ & _ & _ & Hdir).
      rewrite Hd in Hdir. destruct Hdir as (d' & Hd' & _ & Hother).
      exists d'. split; [done|]. intros n Hn. apply Hother.
      intros t Hin Hon. rewrite Hperm in Hin.
      apply elem_of_values in Hin as [id Hid].
      rewrite (Hkey _ _ Hid). apply (Hn id t Hid).
      * unfold ongoing in Hon. by destruct (tRunning t).
      * unfold ongoing in Hon. by destruct (tRunning t), (tReplay t).
  - done.
  - apply tableFilename_inj.
  - apply restoreFile_gitignore.
  - intros w w' d Hd. unfold restoreTables.
    destruct (ReadDir (w_fs w)) as [files|] eqn:Hfiles; [|done].
    apply ReadDir_spec in Hfiles as (d0 & Hd0 & _ & Hmem).
    rewrite Hd in Hd0. injection Hd0 as <-.
    destruct (restoreFiles files w) as [w1| |] eqn:Hrest; [|done..].
    intros [= <-]. cbn [emit w_fs].
    destruct (restoreFiles_dir files w w1 d Hrest Hd) as (d' & Hd' & Hlook).
    exists d'. split; [done|]. intros f. rewrite Hlook.
    destruct (decide (f = ".gitignore")) as [->|Hf].
    + rewrite decide_False; [done|]. by intros [_ ?].
    + destruct (decide (f ∈ files ∧ f ≠ ".gitignore")) as [|Hn]; [done|].
      destruct (d !! f) eqn:Hdf; [|done]. exfalso. apply Hn.
      split; [|done]. apply Hmem. by rewrite Hdf.
Qed.

End LayoutProofs.

(** ** The return-to-lobby handler *)

Section LobbyProofs.
Import Lobby.

Example step1_spectator_trace :
  trace (step1 LobbyExamples.ex_spectator LobbyExamples.ex_globals).2 =
  [Notify (allUserChange 21 "Lobby"); Notify (gameMemberChange 7);
   Notify (gameNumSpec 7)].
Proof. reflexivity. Qed.

Example markAway_first_seat_only :
  markAway 11 [mkPlayer 11 "a" true []; mkPlayer 11 "a" true []] =
  [mkPlayer 11 "a" false []; mkPlayer 11 "a" true []].
Proof. reflexivity. Qed.

Lemma notifications_app (l1 l2 : list event) :
  notifications (l1 ++ l2) = notifications l1 ++ notifications l2.
Proof. unfold notifications. apply omap_app. Qed.

Lemma drop_own_length {A} (l k : list A) : drop (length l) (l ++ k) = k.
Proof. by rewrite drop_app_length. Qed.

(** [markAway] touches nothing but the presence flag, and only on a seat of
    the leaving user. *)
Lemma markAway_lookup (uid : Z) (ps : list Player) (i : nat) (p : Player) :
  ps !! i = Some p →
  ∃ p', markAway uid ps !! i = Some p' ∧
        p_userID p' = p_userID p ∧ p_username p' = p_username p ∧
        hand p' = hand p ∧
        (p' = p ∨ (p_userID p = uid ∧ present p' = false)).
Proof.
  revert i. induction ps as [|q ps IH]; intros i Hi; [done|].
  simpl. destruct (decide (p_userID q = uid)) as [Hq|Hq].
  - destruct i as [|i]; simpl in *.
    + injection Hi as ->. eexists. split; [done|]. simpl. by auto 10.
    + exists p. by auto 10.
  - destruct i as [|i]; simpl in *.
    + injection Hi as ->. exists p. by auto 10.
    + by apply IH.
Qed.

Lemma markAway_length (uid : Z) (ps : list Player) :
  length (markAway uid ps) = length ps.
Proof.
  induction ps as [|q ps IH]; [done|]. simpl.
  destruct (decide _); simpl; congruence.
Qed.

(** The first seat of the leaving user, if there is one, is marked away and
    the seats after it are left alone. *)
Lemma markAway_first (uid : Z) (pre post : list Player) (p : Player) :
  Forall (λ q, p_userID q ≠ uid) pre → p_userID p = uid →
  markAway uid (pre ++ p :: post) = pre ++ set_present false p :: post.
Proof.
  intros Hpre Hp. induction Hpre as [|q pre Hq _ IH]; simpl.
  - by rewrite decide_True.
  - rewrite decide_False by done. by rewrite IH.
Qed.

Lemma markAway_absent (uid : Z) (ps : list Player) :
  Forall (λ q, p_userID q ≠ uid) ps → markAway uid ps = ps.
Proof.
  induction 1 as [|q ps Hq _ IH]; simpl; [done|].
  rewrite decide_False by done. by rewrite IH.
Qed.

(** Claim C4.  When a session whose role is spectator returns to the lobby
    from an existing game that has it in its spectator mapping, the user is
    deleted from the mapping, [num_spec] goes down by exactly one, the
    players, the running flag, the turn, the stacks and the clue tokens of
    the game are unchanged, the other games are untouched, and the calls
    into [notify] are the user-status change followed by the
    membership-changed and the spectator-count-changed notifications. *)
Theorem spectator_leaves (socket : Socket) (g : Globals) (game : Game)
    (entry : string) :
  spectating (atTable socket) = true →
  currentGames g !! id (atTable socket) = Some game →
  spectators game !! userID socket = Some entry →
  ∃ game',
    currentGames (step1 socket g).2 !! id (atTable socket) = Some game' ∧
    spectators game' = delete (userID socket) (spectators game) ∧
    spectators game' !! userID socket = None ∧
    num_spec game' = num_spec game - 1 ∧
    play_state game' = play_state game ∧
    trace (step1 socket g).2 =
      trace g ++ [Notify (allUserChange (userID socket) "Lobby");
                  Notify (gameMemberChange (id (atTable socket)));
                  Notify (gameNumSpec (id (atTable socket)))] ∧
    (∀ other, other ≠ id (atTable socket) →
       currentGames (step1 socket g).2 !! other = currentGames g !! other).
Proof.
  intros Hs Hg He. unfold step1. simpl. rewrite Hg, Hs, He. simpl.
  eexists. split; [apply lookup_insert_eq|].
  repeat split.
  - apply lookup_delete_eq.
  - by rewrite <- !app_assoc.
  - intros other Ho. by rewrite lookup_insert_ne.
Qed.


(** Claim C5, as amended.  When a session whose role is player returns to
    the lobby from an existing game, the spectator mapping, the spectator
    count, the running flag, the turn, the stacks and the clue tokens are
    unchanged; the players keep their user, name and hand, and the only
    flag that can change is the presence flag of a seat of the leaving user,
    which becomes false: the first such seat is marked away and the seats
    after it are left alone.  After the user-status change two more
    notifications fire: player-connection-changed if the game is running,
    membership-changed otherwise, and then the fresh table message to the
    leaving session. *)
Theorem player_leaves (socket : Socket) (g : Globals) (game : Game) :
  spectating (atTable socket) = false →
  currentGames g !! id (atTable socket) = Some game →
  ∃ game',
    currentGames (step1 socket g).2 !! id (atTable socket) = Some game' ∧
    (* the frame *)
    spectators game' = spectators game ∧ num_spec game' = num_spec game ∧
    running game' = running game ∧ turn_num game' = turn_num game ∧
    stacks game' = stacks game ∧ clue_num game' = clue_num game ∧
    length (players game') = length (players game) ∧
    (∀ i p, players game !! i = Some p →
       ∃ p', players game' !! i = Some p' ∧
             p_userID p' = p_userID p ∧ p_username p' = p_username p ∧
             hand p' = hand p ∧
             (p' = p ∨ (p_userID p = userID socket ∧ present p' = false))) ∧
    (* the flag *)
    (∀ pre p post,
       players game = pre ++ p :: post →
       Forall (λ q, p_userID q ≠ userID socket) pre →
       p_userID p = userID socket →
       players game' = pre ++ set_present false p :: post) ∧
    (* the notifications *)
    fired socket g =
      [allUserChange (userID socket) "Lobby";
       if running game then gameConnected (id (atTable socket))
       else gameMemberChange (id (atTable socket));
       playerTable (userID socket) (id (atTable socket))] ∧
    (∀ other, other ≠ id (atTable socket) →
       currentGames (step1 socket g).2 !! other = currentGames g !! other).
Proof.
  intros Hs Hg. unfold fired, step1. simpl. rewrite Hg, Hs.
  exists (set_players (markAway (userID socket) (players game)) game).
  destruct (running game) eqn:Hrun; simpl.
  all: split; [apply lookup_insert_eq|].
  all: repeat split; try done.
  all: try apply markAway_length.
  all: try (intros i p Hp; by apply markAway_lookup).
  all: try (intros pre p post -> Hpre Hp; by apply markAway_first).
  all: try (intros other Ho; by rewrite lookup_insert_ne).
  all: by rewrite <- !app_assoc, drop_own_length.
Qed.

(** Claim C6.  When the role of the session says spectator but the user is
    not in the spectator mapping of the game, [step1] logs the error and
    returns: the games (spectator mapping, spectator count, everything
    else) are exactly as before, so the table keeps running, and the only
    notification is the user-status change: no membership and no
    spectator-count notification. *)
Theorem absent_spectator_aborts (socket : Socket) (g : Globals) (game : Game) :
  spectating (atTable socket) = true →
  currentGames g !! id (atTable socket) = Some game →
  spectators game !! userID socket = None →
  currentGames (step1 socket g).2 = currentGames g ∧
  trace (step1 socket g).2 =
    trace g ++ [Notify (allUserChange (userID socket) "Lobby");
                LogErrorNotSpectator (username socket) (id (atTable socket))] ∧
  fired socket g = [allUserChange (userID socket) "Lobby"].
Proof.
  intros Hs Hg He. unfold fired, step1. simpl. rewrite Hg, Hs, He. simpl.
  repeat split.
  - by rewrite <- app_assoc.
  - by rewrite <- app_assoc, drop_own_length.
Qed.

(** Claim C10.  Every call of [step1] leaves the status of the session at
    ["Lobby"], and the first thing it emits is the user-status-changed
    notification, whether the table exists or not; when the table does not
    exist, these are the only effects besides the log line: the games are
    untouched. *)
Theorem status_set_before_validation (socket : Socket) (g : Globals) :
  status (step1 socket g).1 = "Lobby" ∧
  (∃ rest, trace (step1 socket g).2 =
             trace g ++ Notify (allUserChange (userID socket) "Lobby") :: rest) ∧
  (currentGames g !! id (atTable socket) = None →
     currentGames (step1 socket g).2 = currentGames g ∧
     trace (step1 socket g).2 =
       trace g ++ [Notify (allUserChange (userID socket) "Lobby");
                   LogInfoNoTable]).
Proof.
  unfold step1. simpl.
  destruct (currentGames g !! id (atTable socket)) as [game|] eqn:Hg.
  - destruct (spectating (atTable socket)).
    + destruct (spectators game !! userID socket); simpl;
        (split; [done|]); (split; [|done]);
        rewrite <- ?app_assoc; simpl; eauto.
    + destruct (running game); simpl;
        (split; [done|]); (split; [|done]);
        rewrite <- ?app_assoc; simpl; eauto.
  - simpl. split; [done|]. rewrite <- app_assoc. simpl. eauto.
Qed.

End LobbyProofs.

(** ** Committing a note *)

Section NotesProofs.
Import Notes.

Example outside_tags_bold :
  NotesExamples.outside_tags false "a <b>red</b> 1" = "a red 1".
Proof. reflexivity. Qed.
Variable body_textContent : string → string.
Variable checkSpecialNote : N → Globals → bool.
Variable update : N → Globals → bool.

Abbreviation stripHTMLtags := (stripHTMLtags body_textContent).
Abbreviation set := (set checkSpecialNote).
Abbreviation keydown := (openEditTooltip_keydown body_textContent checkSpecialNote update).

Lemma stripHTMLtags_textContent (input : string) :
  stripHTMLtags input = body_textContent input.
Proof.
  unfold Notes.stripHTMLtags.
  destruct (String.eqb_spec (body_textContent input) "") as [->|]; done.
Qed.

Lemma globals_of_if (b : bool) (g : Globals) :
  globals_of (if b then Ok tt g else Throw g) = g.
Proof. by destruct b. Qed.

(** What [set] leaves behind, whether it returns or throws. *)
Lemma set_globals (order : N) (n : string) (g : Globals) :
  let g' := globals_of (set order n g) in
  ourNotes g' = <[order := n]> (ourNotes g) ∧
  replay g' = replay g ∧ spectating g' = spectating g ∧
  actionOccured g' = actionOccured g ∧
  sent g' =
    sent g ++
    (if (if spectating g then bool_decide (is_Some (allNotes g !! order)) else true)
          && negb (replay g) && negb (bool_decide (ourNotes g !! order = Some n))
     then [NoteMsg order n] else []).
Proof.
  unfold Notes.set. simpl.
  destruct (spectating g) eqn:Hs; simpl.
  - destruct (allNotes g !! order) as [l|] eqn:Hl; simpl.
    + destruct (negb (replay g) && negb (bool_decide (ourNotes g !! order = Some n)));
        destruct (checkSpecialNote _ _); simpl; by rewrite ?app_nil_r.
    + by rewrite app_nil_r.
  - destruct (negb (replay g) && negb (bool_decide (ourNotes g !! order = Some n)));
      destruct (checkSpecialNote _ _); simpl; by rewrite ?app_nil_r.
Qed.

(** Claim C9.  When the edit is committed with Enter, the note stored for
    the card is [stripHTMLtags] of the content of the input box, which is
    the text content of that input parsed as HTML; whatever the handler
    sends to the server is the note message with that same string, and it
    is sent when the game is not a replay, the string differs from the old
    note and [set] gets as far as sending.  When the edit is ended with
    Escape, the stored notes are unchanged and nothing is sent. *)
Theorem committed_note_is_stripped (order : N) (value : string) (g : Globals) :
  let stripped := stripHTMLtags value in
  let g' := globals_of (keydown order value Enter g) in
  let e := globals_of (keydown order value Escape g) in
  stripped = body_textContent value ∧
  ourNotes g' !! order = Some stripped ∧
  (sent g' = sent g ∨ sent g' = sent g ++ [NoteMsg order stripped]) ∧
  (replay g = false →
   ourNotes g !! order ≠ Some stripped →
   (spectating g = true → is_Some (allNotes g !! order)) →
   sent g' = sent g ++ [NoteMsg order stripped]) ∧
  ourNotes e = ourNotes g ∧ allNotes e = allNotes g ∧ sent e = sent g.
Proof.
  intros stripped g' e.
  assert (Hg' : ourNotes g' = <[order := stripped]> (ourNotes g) ∧
    sent g' = sent g ++
      (if (if spectating g then bool_decide (is_Some (allNotes g !! order)) else true)
            && negb (replay g)
            && negb (bool_decide (ourNotes g !! order = Some stripped))
       then [NoteMsg order stripped] else [])).
  { subst g'. unfold openEditTooltip_keydown. fold stripped.
    pose proof (set_globals order stripped (set_editingNote None g)) as Hset.
    simpl in Hset. destruct Hset as (Ho & _ & _ & _ & Hsent).
    destruct (set order stripped (set_editingNote None g)) as [[] g1|g1]; simpl in *.
    - rewrite globals_of_if. destruct (actionOccured g1); simpl; auto.
    - done. }
  destruct Hg' as [Ho Hsent].
  split; [apply stripHTMLtags_textContent|].
  split; [rewrite Ho; apply lookup_insert_eq|].
  split.
  { rewrite Hsent. destruct (_ && _); [by right | left; by rewrite app_nil_r]. }
  split.
  { intros Hr Hold Hall. rewrite Hsent, Hr.
    rewrite (bool_decide_false _ Hold). simpl.
    destruct (spectating g); [|done].
    by rewrite bool_decide_true by auto. }
  subst e. unfold openEditTooltip_keydown, get. simpl.
  rewrite globals_of_if. destruct (actionOccured g); simpl; auto.
Qed.

End NotesProofs.

(** ** The persistence theorems on the sample states *)

Module PersistWitnesses.
Import Num Json Persist PersistExamples.


Lemma ex_dir_housekeeping (f : string) : is_Some (ex_dir !! f) → f = ".gitignore".
Proof.
  intros [x Hx]. unfold ex_dir in Hx.
  by apply lookup_singleton_Some in Hx as [<- _].
Defined.

Lemma ex_registry (id : N) (t : Table) :
  w_tables ex_world !! id = Some t →
  tID t = id ∧ (ongoing t = true → table_ok t = true).
Proof.
  revert id t.
  change (map_Forall (λ id t, tID t = id ∧ (ongoing t = true → table_ok t = true))
            (w_tables ex_world)).
  unfold ex_world. cbn [w_tables].
  apply map_Forall_insert_2.
  { split; [reflexivity|]. intros _. vm_compute. reflexivity. }
  apply map_Forall_insert_2.
  { split; [reflexivity|]. intros H. vm_compute in H. discriminate H. }
  apply map_Forall_empty.
Defined.



Lemma ex_record_restore : restoreTables ex_record_world = Done ex_record_restored.
Proof. vm_compute. reflexivity. Defined.

(** The amended claim C2 on the hand-written record. *)
Lemma restored_logs_retype_draws_only_witness :
  ∃ name data t g g',
    name ≠ ".gitignore" ∧
    ReadFile (w_fs ex_record_world) name = Some data ∧
    Unmarshal data = Some t ∧ tID t = 3%N ∧ tGame t = Some g ∧
    tGame (default zeroTable (w_tables ex_record_restored !! 3%N)) = Some g' ∧
    Forall2
      (λ a a', ∃ m, a = AValue (VMap m) ∧
         if type_is_draw m
         then ∃ dr, decode_ActionDraw m = Some dr ∧ a' = ADraw dr ∧
                    dType dr = "draw"
         else a' = a)
      (gActions g) (gActions g').
Proof.
  apply (restored_logs_retype_draws_only ex_record_world ex_record_restored
           eq_refl ex_record_restore 3%N).
  vm_compute. reflexivity.
Defined.

(** Claim C2 as stated fails: [restoreTables] completes on the hand-written
    record, and the second entry of the recovered log, the play action, is
    still a generic map. *)
Lemma restored_log_counterexample :
  ∃ w' t g m,
    restoreTables ex_record_world = Done w' ∧
    w_tables w' !! 3%N = Some t ∧ tGame t = Some g ∧
    gActions g !! 1%nat = Some (AValue (VMap m)) ∧
    m !! "type" = Some (VString "play") ∧
    is_typed (AValue (VMap m)) = false.
Proof.
  eexists. eexists. eexists. eexists.
  split; [vm_compute; reflexivity|].
  split; [vm_compute; reflexivity|].
  split; [reflexivity|].
  split; [vm_compute; reflexivity|].
  split; [vm_compute; reflexivity|].
  reflexivity.
Qed.

(** Claim C3 on the sample states: a table that cannot be marshalled after
    one that was written, a missing directory, and a directory with a file
    that is not JSON after a good record. *)
Lemma persistence_failures_witness :
  (∃ f, (f = MarshalFailed 9%N ∨ f = WriteFailed (tableFilename 9%N)) ∧
     serializeList ([ex_table] ++ ex_unencodable_table :: [ex_lobby_table])
       ex_world =
     (false, emit (LogError f) (emit (InfoSerializing 9%N)
                                  (serializeList [ex_table] ex_world).2))) ∧
  restoreTables ex_nodir_world = Fatal ReadDirFailed ex_nodir_world ∧
  (∃ w1, restoreFiles [".gitignore"; "3.json"] ex_garbage_world = Done w1 ∧
         restoreTables ex_garbage_world = Fatal (UnmarshalFailed "9.json") w1) ∧
  (∀ w', restoreTables ex_garbage_world ≠ Done w').
Proof.
  destruct persistence_failures_stop_the_run as (Hser & Hdir & Hfirst & Hany).
  split; [|split; [|split]].
  - apply (Hser [ex_table] [ex_lobby_table] ex_unencodable_table ex_world
             (serializeList [ex_table] ex_world).2).
    + vm_compute. reflexivity.
    + reflexivity.
    + reflexivity.
    + left. vm_compute. reflexivity.
  - apply (Hdir ex_nodir_world). reflexivity.
  - eexists. split; [vm_compute; reflexivity|].
    refine (proj2 (Hfirst ex_garbage_world _ [".gitignore"; "3.json"] []
                     "9.json" _ _ _) Garbage _ _).
    + vm_compute. reflexivity.
    + vm_compute. reflexivity.
    + discriminate.
    + vm_compute. reflexivity.
    + reflexivity.
  - refine (Hany ex_garbage_world _ "9.json" eq_refl _ _ _).
    + vm_compute. eexists. reflexivity.
    + discriminate.
    + right. exists Garbage. split; [vm_compute; reflexivity | reflexivity].
Defined.

(** The amended claim C7 on the record of the sample table 7, which is
    timed: bob, the active player, had 6000 ns left. *)
Lemma timed_table_gets_grace_witness :
  ∃ w' t' g' gp',
    restoreFile "7.json" (restart ex_shutdown.2) = Done w' ∧
    w_tables w' !! 7%N = Some t' ∧ tGame t' = Some g' ∧
    gPlayers g' !! 1%nat = Some (Some gp') ∧
    gpTime gp' = 6000 + 20 * Second ∧
    started (w_trace w') = [CheckTimer 7%N 4 0 1%nat; CheckIdle 7%N].
Proof.
  set (w := restart ex_shutdown.2).
  set (w' := match restoreFile "7.json" w with Done w' => w' | _ => w end).
  set (data := default Garbage (ReadFile (w_fs w) "7.json")).
  set (t := default zeroTable (Unmarshal data)).
  assert (Hdone : restoreFile "7.json" w = Done w') by (vm_compute; reflexivity).
  destruct (timed_table_gets_grace "7.json" w w' data t)
    as (o & g & t' & g' & Ho & Hg & Ht' & Hg' & Hlen & Htimed).
  { discriminate. }
  { vm_compute. reflexivity. }
  { vm_compute. reflexivity. }
  { exact Hdone. }
  assert (Ho' : o = ex_options).
  { vm_compute in Ho. by injection Ho as <-. }
  subst o. cbn [oTimed ex_options] in Htimed.
  destruct Htimed as (i & gp & gp' & Hidx & Hgp & Hgp' & Htime & Hexact & _ & Hgo).
  assert (Hg0 : g = stored_Game ex_game).
  { vm_compute in Hg. injection Hg as <-. vm_compute. reflexivity. }
  subst g. cbn [stored_Game gActivePlayerIndex ex_game] in Hidx.
  assert (i = 1%nat) as -> by lia.
  assert (gp = mkGamePlayer "bob" 1 [] 6000 None) as ->.
  { vm_compute in Hgp. by injection Hgp as <-. }
  exists w', t', g', gp'. split; [done|].
  split; [exact Ht'|]. split; [done|]. split; [done|].
  split.
  { apply Hexact. vm_compute. discriminate. }
  exact Hgo.
Defined.

(** Claim C7 as stated fails: the sample table with bob's clock at the
    largest duration is timed, it is serialized and recovered, and bob's
    recovered time is not greater than the time before the shutdown: the
    addition of the allowance has wrapped around. *)
Lemma grace_overflow_counterexample :
  ∃ w' t' g' gp',
    serializeTables ex_overtime_world ex_overtime_shutdown ∧
    ex_overtime_shutdown.1 = true ∧
    tOptions ex_overtime_table = Some ex_options ∧ oTimed ex_options = true ∧
    gActivePlayerIndex ex_overtime_game = 1 ∧
    gPlayers ex_overtime_game !! 1%nat =
      Some (Some (mkGamePlayer "bob" 1 [] int64_max (Some 7%N))) ∧
    restoreTables (restart ex_overtime_shutdown.2) = Done w' ∧
    w_tables w' !! 7%N = Some t' ∧ tGame t' = Some g' ∧
    gPlayers g' !! 1%nat = Some (Some gp') ∧
    gpTime gp' = int64_min + 20 * Second - 1 ∧
    ¬ (int64_max < gpTime gp').
Proof.
  eexists. eexists. eexists. eexists.
  split.
  { exists [ex_overtime_table]. split; [|reflexivity]. vm_compute. reflexivity. }
  split; [vm_compute; reflexivity|].
  split; [reflexivity|]. split; [reflexivity|]. split; [reflexivity|].
  split; [reflexivity|].
  split; [vm_compute; reflexivity|].
  split; [vm_compute; reflexivity|].
  split; [reflexivity|].
  split; [vm_compute; reflexivity|].
  split; [vm_compute; reflexivity|].
  vm_compute. discriminate.
Qed.

(** Claim C8 on the sample world: the shutdown writes the one record
    [7.json], and the next start leaves only the housekeeping file. *)
Lemma one_record_per_ongoing_table_witness :
  (∃ data, writes (w_trace ex_shutdown.2) = [("7.json", data)] ∧
           Marshal ex_table = Some data) ∧
  (∃ d' data, fs_dir (w_fs ex_shutdown.2) = Some d' ∧
              Marshal ex_table = Some data ∧ d' !! "7.json" = Some data ∧
              d' !! "8.json" = None ∧ d' !! ".gitignore" = Some Garbage) ∧
  (∃ d', fs_dir (w_fs ex_restored) = Some d' ∧
         d' !! ".gitignore" = Some Garbage ∧ d' !! "7.json" = None).
Proof.
  destruct one_record_per_ongoing_table as (Hwrites & Hdir & _ & _ & _ & Hscan).
  split; [|split].
  2:{ destruct (Hdir ex_world ex_shutdown.2) as [Hrec Hframe].
      { intros id t H. apply (ex_registry id t H). }
      { exists (map_to_list (w_tables ex_world)).*2.
        split; [reflexivity|]. vm_compute. reflexivity. }
      destruct (Hrec 7%N ex_table) as (d' & data & Hd' & Hdata & Hlook);
        [reflexivity..|].
      destruct (Hframe ex_dir eq_refl) as (d'' & Hd'' & Hother).
      rewrite Hd' in Hd''. injection Hd'' as <-.
      exists d', data. split; [exact Hd'|]. split; [exact Hdata|].
      split; [exact Hlook|].
      assert (∀ n, n ≠ "7.json" → d' !! n = ex_dir !! n) as Hrest.
      { intros n Hn. apply Hother. intros id t Hid Hr Hp.
        unfold ex_world in Hid. cbn [w_tables] in Hid.
        apply lookup_insert_Some in Hid as [[<- <-]|[_ Hid]]; [exact Hn|].
        apply lookup_insert_Some in Hid as [[<- <-]|[_ Hid]];
          [discriminate Hr|].
        rewrite lookup_empty in Hid. discriminate Hid. }
      split; rewrite Hrest by discriminate; reflexivity. }
  - destruct (Hwrites (map_to_list (w_tables ex_world)).*2 ex_world ex_shutdown.2)
      as (new & Hnew & Hrec).
    { vm_compute. reflexivity. }
    assert (Hts : filter (λ t, tRunning t = true ∧ tReplay t = false)
                    (map_to_list (w_tables ex_world)).*2 = [ex_table])
      by (vm_compute; reflexivity).
    rewrite Hts in Hrec.
    apply Forall2_cons_inv_l in Hrec as ([name data] & rest & [Hname Hdata] & Hrest & ->).
    apply Forall2_nil_inv_l in Hrest as ->.
    exists data. split; [|exact Hdata].
    rewrite Hnew. simpl in Hname. by rewrite Hname.
  - destruct (Hscan (restart ex_shutdown.2) ex_restored
                (default ∅ (fs_dir (w_fs (restart ex_shutdown.2)))))
      as (d' & Hd' & Hlook).
    { vm_compute. reflexivity. }
    { vm_compute. reflexivity. }
    exists d'. split; [exact Hd'|]. split.
    + rewrite Hlook. vm_compute. reflexivity.
    + rewrite Hlook. reflexivity.
Defined.

End PersistWitnesses.

(** ** The handler theorems on the sample states *)

Module LobbyWitnesses.
Import Lobby LobbyExamples.

(** Claim C4 on the sample game: dave stops watching table 7. *)
Lemma spectator_leaves_witness :
  ∃ game',
    currentGames (step1 ex_spectator ex_globals).2 !! 7 = Some game' ∧
    spectators game' = ∅ ∧ num_spec game' = 0 ∧
    play_state game' = play_state ex_game ∧
    trace (step1 ex_spectator ex_globals).2 =
      [Notify (allUserChange 21 "Lobby"); Notify (gameMemberChange 7);
       Notify (gameNumSpec 7)].
Proof.
  destruct (spectator_leaves ex_spectator ex_globals ex_game "dave")
    as (game' & Hg & Hs & _ & Hn & Hp & Ht & _).
  - reflexivity.
  - reflexivity.
  - reflexivity.
  - exists game'. split; [exact Hg|]. split.
    { rewrite Hs. reflexivity. }
    split; [rewrite Hn; reflexivity|]. split; [exact Hp|exact Ht].
Defined.

(** The amended claim C5 on the sample game: alice leaves table 7, which is
    running. *)
Lemma player_leaves_witness :
  ∃ game',
    currentGames (step1 ex_player ex_globals).2 !! 7 = Some game' ∧
    spectators game' = spectators ex_game ∧ num_spec game' = 1 ∧
    players game' =
      [mkPlayer 11 "alice" false [0; 1]; mkPlayer 12 "bob" true [2; 3]] ∧
    fired ex_player ex_globals =
      [allUserChange 11 "Lobby"; gameConnected 7; playerTable 11 7].
Proof.
  destruct (player_leaves ex_player ex_globals ex_game)
    as (game' & Hg & Hs & Hn & _ & _ & _ & _ & _ & _ & Hfirst & Hfired & _).
  - reflexivity.
  - reflexivity.
  - exists game'. split; [exact Hg|]. split; [exact Hs|]. split; [exact Hn|].
    split; [|exact Hfired].
    apply (Hfirst [] (mkPlayer 11 "alice" true [0; 1])
             [mkPlayer 12 "bob" true [2; 3]]).
    + reflexivity.
    + constructor.
    + reflexivity.
Defined.

(** Claim C5 as stated fails: when alice, a player, leaves the running
    table 7, three notifications fire, not exactly one: after the
    user-status change come the connection change and the table message. *)
Lemma player_leaves_counterexample :
  spectating (atTable ex_player) = false ∧
  currentGames ex_globals !! id (atTable ex_player) = Some ex_game ∧
  running ex_game = true ∧
  fired ex_player ex_globals =
    [allUserChange 11 "Lobby"; gameConnected 7; playerTable 11 7] ∧
  ¬ (∃ n, fired ex_player ex_globals = [n]) ∧
  ¬ (∃ n, drop 1 (fired ex_player ex_globals) = [n]).
Proof.
  split; [reflexivity|]. split; [reflexivity|]. split; [reflexivity|].
  split; [reflexivity|]. split; intros [n Hn]; vm_compute in Hn; discriminate Hn.
Qed.

(** Claim C6 on the sample game: erin is marked as spectator of table 7 but
    is not in its list. *)
Lemma absent_spectator_aborts_witness :
  currentGames (step1 ex_ghost ex_globals).2 = currentGames ex_globals ∧
  trace (step1 ex_ghost ex_globals).2 =
    [Notify (allUserChange 22 "Lobby"); LogErrorNotSpectator "erin" 7] ∧
  fired ex_ghost ex_globals = [allUserChange 22 "Lobby"].
Proof.
  apply (absent_spectator_aborts ex_ghost ex_globals ex_game); reflexivity.
Defined.

(** Claim C10 on the sample state: frank's table 99 does not exist. *)
Lemma status_set_before_validation_witness :
  status (step1 ex_stray ex_globals).1 = "Lobby" ∧
  currentGames (step1 ex_stray ex_globals).2 = currentGames ex_globals ∧
  trace (step1 ex_stray ex_globals).2 =
    [Notify (allUserChange 23 "Lobby"); LogInfoNoTable].
Proof.
  destruct (status_set_before_validation ex_stray ex_globals) as (Hs & _ & Hgone).
  split; [exact Hs|]. apply Hgone. reflexivity.
Defined.

End LobbyWitnesses.

Module NotesWitnesses.
Import Notes NotesExamples.

(** Claim C9 on a sample note, with the stand-in parser: the markup of the
    input is gone from the stored and from the sent note. *)
Lemma committed_note_is_stripped_witness :
  let handler := openEditTooltip_keydown (outside_tags false)
                   (λ _ _, true) (λ _ _, true) in
  ourNotes (globals_of (handler 3%N "<b>r1</b>" Enter ex_globals)) !! 3%N =
    Some "r1" ∧
  sent (globals_of (handler 3%N "<b>r1</b>" Enter ex_globals)) =
    [NoteMsg 3%N "r1"] ∧
  ourNotes (globals_of (handler 3%N "<b>r1</b>" Escape ex_globals)) =
    ourNotes ex_globals.
Proof.
  destruct (committed_note_is_stripped (outside_tags false) (λ _ _, true)
              (λ _ _, true) 3%N "<b>r1</b>" ex_globals)
    as (Htext & Hstored & _ & Hsent & Hesc & _).
  split; [|split].
  - rewrite Hstored, Htext. reflexivity.
  - rewrite Hsent, Htext.
    + reflexivity.
    + reflexivity.
    + rewrite Htext. vm_compute. discriminate.
    + discriminate.
  - exact Hesc.
Defined.

End NotesWitnesses.

(** ** More on the recovery of the tables *)

Section RecoveryProofs.
Import Num Json Persist PersistInvariants.

Lemma repair_linked (t t' : Table) (timer : list goroutine) :
  repair t = RepOk t' timer → linked_table t'.
Proof.
  unfold repair.
  destruct (tGame t) as [g|] eqn:Hg; [|done].
  destruct (relinkPlayers (tID t) (gPlayers g)) as [gps|] eqn:Hgps; [|done].
  destruct (restoreActions (tID t) 0 (gActions g)) as [f|acts]; [done|].
  destruct (markAbsent (tPlayers t)) as [ps|] eqn:Hps; [|done].
  destruct (tOptions t) as [o|] eqn:Ho; [|done].
  assert (Forall (λ o, ∃ gp, o = Some gp ∧ gpGame gp = Some (tID t)) gps) as Hlink.
  { apply mapM_ptr_inv in Hgps. clear -Hgps.
    induction Hgps as [|x y l k (gp & -> & ->) _ IH]; constructor; eauto. }
  apply markAbsent_absent in Hps as [_ Hps].
  destruct (oTimed o).
  - destruct (activePlayer gps (gActivePlayerIndex g)) as [[i gp]|] eqn:Ha; [|done].
    intros [= <- _]. eexists. cbn. repeat split; [| done].
    apply activePlayer_Some in Ha as [_ Hi].
    apply Forall_insert; [done|].
    eexists. split; [done|]. cbn.
    apply (Forall_lookup_1 _ _ _ _ Hlink) in Hi as (gp0 & [= <-] & Hgp). done.
  - intros [= <- _]. eexists. cbn. by repeat split.
Qed.

Lemma restoreFile_linked (f : string) (w w' : world) :
  restoreFile f w = Done w' → linked (w_tables w) → linked (w_tables w').
Proof.
  intros Hrun Hl.
  destruct (decide (f = ".gitignore")) as [->|Hf].
  { rewrite restoreFile_gitignore in Hrun. by injection Hrun as <-. }
  apply restoreFile_Done in Hrun as (data & t & t' & timer & fs' & _ & _ & Hrep & _ & ->);
    [|done].
  cbn. intros id t0. destruct (decide (id = tID t')) as [->|Hid].
  - rewrite lookup_insert_eq. intros [= <-]. split; [done|].
    by eapply repair_linked.
  - rewrite lookup_insert_ne by done. apply Hl.
Qed.

Lemma restoreFiles_linked (files : list string) (w w' : world) :
  restoreFiles files w = Done w' → linked (w_tables w) → linked (w_tables w').
Proof.
  revert w. induction files as [|f files IH]; intros w; cbn [restoreFiles].
  - by intros [= <-].
  - destruct (restoreFile f w) as [w1| |] eqn:Hf; [|done..].
    intros Hrest Hl. eapply IH; [done|]. by eapply restoreFile_linked.
Qed.

(** Property X15.  When [restoreTables] completes, every table of the registry is
    filed under its own ID, its game points back to it and shares its
    options and extra options, every player of the game points to the
    game, and no player of the table is a nil pointer or marked present --
    provided this held of the registry before (as it does of the empty
    registry of a starting server). *)
Theorem restored_tables_are_linked (w w' : world) :
  restoreTables w = Done w' → linked (w_tables w) → linked (w_tables w').
Proof.
  unfold restoreTables. destruct (ReadDir (w_fs w)) as [files|]; [|done].
  destruct (restoreFiles files w) as [w1| |] eqn:Hrun; [|done..].
  intros [= <-] Hl. cbn. by eapply restoreFiles_linked.
Qed.

(** A round of the loop that does not get through leaves the directory as
    it is. *)
Lemma restoreFile_failed_fs (name : string) (w w' : world) :
  failed (restoreFile name w) = Some w' → w_fs w' = w_fs w.
Proof.
  unfold restoreFile. destruct (decide (name = ".gitignore")); [done|].
  destruct (ReadFile (w_fs w) name) as [data|]; [|by intros [= <-]].
  destruct (Unmarshal data) as [t|]; [|by intros [= <-]].
  destruct (repair t) as [t' timer|f|]; [|by intros [= <-]..].
  cbn [w_fs emit set_table]. rewrite emit_all_spec. cbn [w_fs].
  destruct (Remove (w_fs w) name) as [fs'|]; [done|]. by intros [= <-].
Qed.

(** Property X16.  A round of the recovery loop that does not get through never
    changes the tables directory.  It leaves the registry and the log as
    they were, too, except when it is the deletion of the record that
    fails: then the process ends with the table registered and announced,
    and its record still on disk. *)
Theorem failed_round_keeps_the_files (name : string) (w w' : world) :
  failed (restoreFile name w) = Some w' →
  w_fs w' = w_fs w ∧
  (w' = w ∨
   ∃ t' timer,
     restoreFile name w = Fatal (DeleteFailed name) w' ∧
     Remove (w_fs w) name = None ∧
     w' = emit (InfoRestored (tID t')) (set_table t' (emit_all timer w))).
Proof.
  intros Hfail. split; [by eapply restoreFile_failed_fs|]. revert Hfail.
  unfold restoreFile. destruct (decide (name = ".gitignore")); [done|].
  destruct (ReadFile (w_fs w) name) as [data|]; [|cbn; intros [= <-]; auto].
  destruct (Unmarshal data) as [t|]; [|cbn; intros [= <-]; auto].
  destruct (repair t) as [t' timer|f|]; [|cbn; intros [= <-]; auto..].
  cbn [w_fs emit set_table]. rewrite emit_all_spec. cbn [w_fs].
  destruct (Remove (w_fs w) name) as [fs'|] eqn:Hrm; [done|].
  cbn. intros [= <-]. right. exists t', timer.
  rewrite emit_all_spec. done.
Qed.

Lemma restoreFiles_failed (files : list string) (w w' : world) :
  failed (restoreFiles files w) = Some w' →
  ∃ pre name post w1,
    files = pre ++ name :: post ∧ restoreFiles pre w = Done w1 ∧
    failed (restoreFile name w1) = Some w'.
Proof.
  revert w. induction files as [|f files IH]; intros w; cbn [restoreFiles]; [done|].
  destruct (restoreFile f w) as [w1| |] eqn:Hf.
  - intros (pre & name & post & w2 & -> & Hpre & Hfail)%IH.
    exists (f :: pre), name, post, w2. cbn [restoreFiles]. by rewrite Hf.
  - cbn. intros [= <-]. exists [], f, files, w. by rewrite Hf.
  - cbn. intros [= <-]. exists [], f, files, w. by rewrite Hf.
Qed.

(** Property X17.  A recovery that stops early has consumed exactly the records
    listed before the one at which it stopped: these are gone from the
    directory, and every other entry, the record at which it stopped
    included, is still there with its content. *)
Theorem failed_restore_consumed_a_prefix (w w' : world)
    (d : gmap string filedata) :
  failed (restoreTables w) = Some w' → fs_dir (w_fs w) = Some d →
  ∃ pre name post d',
    ReadDir (w_fs w) = Some (pre ++ name :: post) ∧
    fs_dir (w_fs w') = Some d' ∧
    (∀ f, d' !! f =
          if decide (f ∈ pre ∧ f ≠ ".gitignore") then None else d !! f) ∧
    name ≠ ".gitignore" ∧ is_Some (d' !! name).
Proof.
  intros Hfail Hd. unfold restoreTables in Hfail.
  destruct (ReadDir_is_Some _ _ Hd) as [files Hfiles]. rewrite Hfiles in Hfail.
  assert (failed (restoreFiles files w) = Some w') as Hrun.
  { by destruct (restoreFiles files w). }
  clear Hfail.
  apply restoreFiles_failed in Hrun as (pre & name & post & w1 & -> & Hpre & Hname).
  destruct (restoreFiles_dir _ _ _ _ Hpre Hd) as (d1 & Hd1 & Hlook).
  destruct (ReadDir_spec _ _ Hfiles) as (d0 & Hd0 & Hnodup & Hin).
  assert (d0 = d) as -> by congruence.
  pose proof (restoreFile_failed_fs _ _ _ Hname) as Hfs.
  exists pre, name, post, d1. rewrite Hfs.
  split; [done|]. split; [done|]. split; [done|]. split.
  - intros ->. by rewrite restoreFile_gitignore in Hname.
  - rewrite Hlook. apply NoDup_app in Hnodup as (_ & Hnot & _).
    rewrite decide_False.
    + apply Hin, elem_of_app. right. apply elem_of_cons. by left.
    + intros [Hp _]. apply (Hnot _ Hp), elem_of_cons. by left.
Qed.


Lemma restoreFiles_skip (files : list string) (w : world) :
  (∀ f, f ∈ files → f = ".gitignore") → restoreFiles files w = Done w.
Proof.
  induction files as [|f files IH]; intros Hall; cbn [restoreFiles]; [done|].
  rewrite (Hall f) by (apply elem_of_cons; by left).
  rewrite restoreFile_gitignore. apply IH.
  intros g Hg. apply Hall, elem_of_cons. by right.
Qed.

Lemma restoreTables_skip (w : world) (d : gmap string filedata) :
  fs_dir (w_fs w) = Some d →
  (∀ f, is_Some (d !! f) → f = ".gitignore") →
  restoreTables w = Done (emit (InfoSummary (summary (size (w_tables w)))) w).
Proof.
  intros Hd Honly. unfold restoreTables.
  destruct (ReadDir_is_Some _ _ Hd) as [files Hfiles]. rewrite Hfiles.
  apply ReadDir_spec in Hfiles as (d0 & Hd0 & _ & Hin).
  assert (d0 = d) as -> by congruence.
  rewrite restoreFiles_skip; [done|].
  intros f Hf. by apply Honly, Hin.
Qed.

(** Property X18.  A directory that holds no record (it is empty, or holds only
    [.gitignore]) makes [restoreTables] log the summary and nothing else:
    the registry and the directory are as before, and the count in the
    summary is the size of the registry as it was. *)
Theorem no_record_restores_nothing (w : world) (d : gmap string filedata) :
  fs_dir (w_fs w) = Some d →
  (∀ f, is_Some (d !! f) → f = ".gitignore") →
  ∃ w',
    restoreTables w = Done w' ∧
    w_tables w' = w_tables w ∧ w_fs w' = w_fs w ∧
    w_trace w' = w_trace w ++ [InfoSummary (summary (size (w_tables w)))].
Proof.
  intros Hd Honly. eexists. split; [by eapply restoreTables_skip|]. done.
Qed.

(** Property X19.  Running [restoreTables] again after a run that completed
    restores nothing a second time: the records are gone, so the second
    run only logs the summary, with the same count. *)
Theorem restore_twice (w w1 : world) :
  restoreTables w = Done w1 →
  restoreTables w1 =
    Done (emit (InfoSummary (summary (size (w_tables w1)))) w1).
Proof.
  intros Hrun. unfold restoreTables in Hrun.
  destruct (ReadDir (w_fs w)) as [files|] eqn:Hfiles; [|done].
  destruct (restoreFiles files w) as [w0| |] eqn:Hrest; [|done..].
  injection Hrun as <-.
  apply ReadDir_spec in Hfiles as (d & Hd & _ & Hin).
  destruct (restoreFiles_dir _ _ _ _ Hrest Hd) as (d' & Hd' & Hlook).
  apply (restoreTables_skip _ d'); [done|].
  intros f. rewrite Hlook. destruct (decide (f = ".gitignore")) as [|Hf]; [done|].
  destruct (decide (f ∈ files ∧ f ≠ ".gitignore")) as [_|Hn].
  - by intros ?%is_Some_None.
  - intros Hsome. destruct Hn. split; [by apply Hin|done].
Qed.

(** The trace and the registry after a run of the loop that gets through. *)
Lemma restoreFiles_removed (files : list string) (w w' : world) :
  restoreFiles files w = Done w' →
  removed (w_trace w') =
    removed (w_trace w) ++ filter (λ f, f ≠ ".gitignore") files ∧
  (size (w_tables w') ≤
   size (w_tables w) + length (filter (λ f, f ≠ ".gitignore") files))%nat.
Proof.
  revert w. induction files as [|f files IH]; intros w; cbn [restoreFiles].
  - intros [= <-]. rewrite filter_nil, app_nil_r. split; [done|].
    cbn [length]. lia.
  - destruct (restoreFile f w) as [w1| |] eqn:Hf; [|done..].
    intros [Htr Hsz]%IH. rewrite filter_cons.
    destruct (decide (f ≠ ".gitignore")) as [Hne|Heq].
    + apply restoreFile_Done in Hf
        as (data & t & t' & timer & fs' & _ & _ & _ & _ & ->); [|done].
      cbn [restored_world w_trace w_tables] in *. split.
      * rewrite Htr. unfold removed. rewrite !omap_app.
        assert (omap (λ e, match e with EvRemove n => Some n | _ => None end)
                  (EvGo <$> timer) = []) as ->.
        { clear. by induction timer. }
        cbn. by rewrite <- app_assoc.
      * pose proof (map_size_insert (tID t') t' (w_tables w)) as Hins.
        destruct (w_tables w !! tID t'); unfold id in Hins; cbn [length]; lia.
    + assert (f = ".gitignore") as -> by (by destruct (decide (f = ".gitignore"))).
      rewrite restoreFile_gitignore in Hf. by injection Hf as <-.
Qed.

(** Property X20.  A run of [restoreTables] that completes deletes the records in
    the order of the listing, each one once and nothing else, and the
    registry grows by at most one table per record (by less when two
    records carry the same table ID: the later one replaces the earlier). *)
Theorem records_removed_in_listing_order (w w' : world) :
  restoreTables w = Done w' →
  ∃ files,
    ReadDir (w_fs w) = Some files ∧
    removed (w_trace w') =
      removed (w_trace w) ++ filter (λ f, f ≠ ".gitignore") files ∧
    (size (w_tables w') ≤
     size (w_tables w) + length (filter (λ f, f ≠ ".gitignore") files))%nat.
Proof.
  unfold restoreTables. destruct (ReadDir (w_fs w)) as [files|]; [|done].
  destruct (restoreFiles files w) as [w1| |] eqn:Hrun; [|done..].
  intros [= <-]. exists files. split; [done|].
  destruct (restoreFiles_removed _ _ _ Hrun) as [Htr Hsz].
  cbn [emit w_trace w_tables]. split; [|done].
  unfold removed in *. rewrite omap_app, Htr. cbn. by rewrite app_nil_r.
Qed.

End RecoveryProofs.

(** ** More on the shutdown *)

Section ShutdownProofs.
Import Num Json Persist PersistInvariants.

(** Property X21.  Whatever the order in which Go enumerates the registry, and
    whether it returns true or false, [serializeTables] leaves the registry
    as it is, deletes no file, and changes no file other than the records
    [<ID>.json] of the running tables that are not replays. *)
Theorem serialize_only_writes_records (w w' : world) (b : bool) :
  serializeTables w (b, w') →
  w_tables w' = w_tables w ∧
  match fs_dir (w_fs w) with
  | None => fs_dir (w_fs w') = None
  | Some d =>
      ∃ d', fs_dir (w_fs w') = Some d' ∧
        (∀ n, is_Some (d !! n) → is_Some (d' !! n)) ∧
        (∀ n, (∀ id t, w_tables w !! id = Some t → ongoing t = true →
                       n ≠ tableFilename (tID t)) →
              d' !! n = d !! n)
  end.
Proof.
  intros (ts & Hperm & Hrun).
  apply serializeList_frame in Hrun as (Ht & _ & _ & _ & Hdir).
  split; [done|]. destruct (fs_dir (w_fs w)) as [d|]; [|done].
  destruct Hdir as (d' & Hd' & Hkeep & Hother). exists d'.
  split; [done|]. split; [done|].
  intros n Hn. apply Hother. intros t Hin.
  rewrite Hperm in Hin. apply elem_of_values in Hin as [id Hid]. by eapply Hn.
Qed.

Lemma serializeList_succeeds (ts : list Table) (w : world) :
  Forall (writable (w_fs w)) ts → ∃ w', serializeList ts w = (true, w').
Proof.
  revert w. induction ts as [|t ts IH]; intros w Hall; cbn [serializeList].
  - by eexists.
  - apply Forall_cons in Hall as [Ht Hall].
    rewrite ongoing_guard. destruct (ongoing t) eqn:Hon; cbn [negb].
    + destruct (Ht Hon) as ([data ->] & [d Hd] & Hw).
      unfold WriteFile. cbn [emit w_fs]. rewrite Hd. cbn [mbind option_bind].
      rewrite decide_False by done. apply IH.
      eapply Forall_impl; [done|]. intros t0 Hw0 Ht0.
      destruct (Hw0 Ht0) as (? & _ & ?). cbn. done.
    + by apply IH.
Qed.

Lemma FS_eq (fs1 fs2 : FS) :
  fs_dir fs1 = fs_dir fs2 → fs_noread fs1 = fs_noread fs2 →
  fs_nowrite fs1 = fs_nowrite fs2 → fs_noremove fs1 = fs_noremove fs2 →
  fs1 = fs2.
Proof. destruct fs1, fs2; cbn; congruence. Qed.

(** Property X22.  Serializing again after a run that returned true returns true
    again and leaves the tables directory exactly as the first run left it,
    whatever the order of enumeration of either run -- given that the
    registry files every table under its own ID. *)
Theorem serialize_twice (w w1 : world) (r2 : bool * world) :
  (∀ id t, w_tables w !! id = Some t → tID t = id) →
  serializeTables w (true, w1) → serializeTables w1 r2 →
  r2.1 = true ∧ w_fs r2.2 = w_fs w1 ∧ w_tables r2.2 = w_tables w.
Proof.
  intros Hkey (ts1 & Hperm1 & Hrun1) (ts2 & Hperm2 & Hrun2).
  destruct (serializeList_frame _ _ _ _ Hrun1) as (Ht1 & Hr1 & Hw1 & Hrm1 & Hdir1).
  rewrite Ht1 in Hperm2.
  assert (ts2 ≡ₚ ts1) as Hperm by (by rewrite Hperm1).
  pose proof (serializeList_true_inv _ _ _ Hrun1) as Hall1.
  assert (Forall (writable (w_fs w1)) ts2) as Hall2.
  { rewrite Hperm. eapply Forall_impl; [done|]. intros t Hw Hon.
    destruct (Hw Hon) as (Hm & [d Hd] & Hnw). rewrite Hw1.
    split; [done|]. split; [|done].
    rewrite Hd in Hdir1. destruct Hdir1 as (d' & -> & _). done. }
  destruct (serializeList_succeeds _ _ Hall2) as [w2 Hrun2'].
  rewrite Hrun2' in Hrun2. subst r2. cbn [fst snd]. split; [done|].
  destruct (serializeList_frame _ _ _ _ Hrun2') as (Ht2 & Hr2 & Hw2 & Hrm2 & Hdir2).
  split; [|congruence].
  apply FS_eq; [|done..].
  destruct (fs_dir (w_fs w)) as [d|] eqn:Hd.
  - destruct Hdir1 as (d1 & Hd1 & _ & Hother1). rewrite Hd1 in Hdir2 |- *.
    destruct Hdir2 as (d2 & Hd2 & _ & Hother2). rewrite Hd2. f_equal.
    pose proof (registry_NoDup _ _ Hkey Hperm1) as Hnd1.
    assert (NoDup (tID <$> ts2)) as Hnd2 by (by rewrite Hperm).
    destruct (serializeList_content _ _ _ _ Hrun1 Hd Hnd1) as (d1' & Hd1' & Hrec1).
    destruct (serializeList_content _ _ _ _ Hrun2' Hd1 Hnd2) as (d2' & Hd2' & Hrec2).
    assert (d1' = d1) as -> by congruence.
    assert (d2' = d2) as -> by congruence.
    apply map_eq. intros n.
    destruct (decide (Exists (λ t, ongoing t = true ∧ n = tableFilename (tID t)) ts2))
      as [(t & Hin & Hon & ->)%Exists_exists|Hno].
    + rewrite Hrec2 by done. rewrite Hrec1; [done| |done]. by rewrite <- Hperm.
    + apply Hother2. intros t Hin Hon ->. apply Hno, Exists_exists. eauto.
  - rewrite Hdir1 in Hdir2 |- *. done.
Qed.

End ShutdownProofs.

Section RetypingProofs.
Import Num Json Persist PersistInvariants.

(** Property X23.  When the re-typing loop stops at a log entry, it is the first
    entry that is not a string-keyed map, or whose type is draw and which
    does not decode into a draw action; the failure names the position of
    that entry in the log, and every entry before it can be re-typed. *)
Theorem retyping_stops_at_the_first_bad_entry (id : N) (i0 : nat)
    (l : list action) (f : failure) :
  restoreActions id i0 l = inl f →
  ∃ k a,
    l !! k = Some a ∧ restoreAction id (i0 + k) a = inl f ∧
    (f = ActionNotMap (i0 + k) id ∨ f = ActionNotDraw (i0 + k) id) ∧
    ∃ pre, restoreActions id i0 (take k l) = inr pre.
Proof.
  revert i0. induction l as [|a l IH]; intros i0; cbn [restoreActions]; [done|].
  destruct (restoreAction id i0 a) as [f0|a'] eqn:Ha.
  - intros [= ->]. exists 0%nat, a. rewrite Nat.add_0_r.
    split; [done|]. split; [done|]. split; [|by exists []].
    unfold restoreAction in Ha.
    destruct a as [| |[]]; try (injection Ha as <-; by left).
    destruct (type_is_draw _); [|done].
    destruct (decode_ActionDraw _); [done|]. injection Ha as <-. by right.
  - destruct (restoreActions id (S i0) l) as [f1|rest] eqn:Hrest; [|done].
    intros [= ->]. destruct (IH _ Hrest) as (k & b & Hk & Hb & Hf & pre & Hpre).
    exists (S k), b. rewrite Nat.add_succ_r. split; [done|]. split; [done|].
    split; [done|]. exists (a' :: pre). cbn [take restoreActions].
    by rewrite Ha, Hpre.
Qed.

(** Property X24.  When the re-typing loop gets through a log, the log keeps its
    length and its order; every entry was a string-keyed map; an entry whose
    type is draw has become the draw action that it decodes into, and every
    other entry is what it was. *)
Theorem retyping_keeps_the_other_entries (id : N) (i0 : nat)
    (l acts : list action) :
  restoreActions id i0 l = inr acts → Forall2 retyped_from l acts.
Proof.
  revert i0 acts. induction l as [|a l IH]; intros i0 acts; cbn [restoreActions].
  - intros [= <-]. constructor.
  - destruct (restoreAction id i0 a) as [f0|a'] eqn:Ha; [done|].
    destruct (restoreActions id (S i0) l) as [f1|rest] eqn:Hrest; [done|].
    intros [= <-]. constructor; [|by eapply IH].
    unfold restoreAction in Ha. destruct a as [| |[]]; try done.
    eexists. split; [done|].
    destruct (type_is_draw _); [|by injection Ha as <-].
    destruct (decode_ActionDraw _) as [d|]; [|done].
    injection Ha as <-. by exists d.
Qed.

End RetypingProofs.

(** ** More on the return-to-lobby handler *)

Section LobbyMoreProofs.
Import Lobby LobbyInvariants.

Lemma markAway_idempotent (uid : Z) (ps : list Player) :
  markAway uid (markAway uid ps) = markAway uid ps.
Proof.
  induction ps as [|p ps IH]; [done|]. simpl.
  destruct (decide (p_userID p = uid)) as [Hp|Hp]; simpl.
  - by rewrite decide_True.
  - rewrite decide_False by done. by rewrite IH.
Qed.

Lemma markAway_seats (uid : Z) (ps : list Player) :
  (λ p, (p_userID p, p_username p, hand p)) <$> markAway uid ps =
  (λ p, (p_userID p, p_username p, hand p)) <$> ps.
Proof.
  induction ps as [|p ps IH]; [done|]. cbn [markAway].
  destruct (decide (p_userID p = uid)); rewrite !fmap_cons; [done|].
  by rewrite IH.
Qed.

Lemma markAway_present_count (uid : Z) (ps : list Player) :
  (length (filter (λ p, present p = true) (markAway uid ps)) ≤
   length (filter (λ p, present p = true) ps))%nat.
Proof.
  induction ps as [|p ps IH]; [done|]. cbn [markAway].
  destruct (decide (p_userID p = uid)).
  - rewrite !filter_cons. cbn [set_present present].
    rewrite decide_False by done.
    destruct (decide (present p = true)); simpl; lia.
  - rewrite !filter_cons. destruct (decide (present p = true)); simpl; lia.
Qed.

(** Property X1.  [step1] keeps the spectator count in step with the
    spectator list: if [num_spec] is the size of [spectators] in every game
    before the call, it is so after it, whichever branch is taken. *)
Theorem step1_keeps_spectator_count (socket : Socket) (g : Globals) :
  spec_count_ok g → spec_count_ok (step1 socket g).2.
Proof.
  unfold spec_count_ok. intros Hinv. unfold step1. simpl.
  destruct (currentGames g !! id (atTable socket)) as [game|] eqn:Hg; [|done].
  destruct (spectating (atTable socket)).
  - destruct (spectators game !! userID socket) as [entry|] eqn:He; [|done].
    simpl. intros gid game'.
    destruct (decide (id (atTable socket) = gid)) as [<-|Hne].
    + rewrite lookup_insert_eq. intros [= <-]. simpl.
      rewrite map_size_delete, He, (Hinv _ _ Hg).
      assert (size (spectators game) ≠ 0%nat).
      { intros H0%map_size_empty_inv. by rewrite H0 in He. }
      lia.
    + rewrite lookup_insert_ne by done. apply Hinv.
  - assert (Hgoal : spec_count_ok
      (set_game (id (atTable socket))
         (set_players (markAway (userID socket) (players game)) game)
         (emit (Notify (allUserChange (userID socket) "Lobby")) g))).
    { unfold spec_count_ok. simpl. intros gid game'.
      destruct (decide (id (atTable socket) = gid)) as [<-|Hne].
      - rewrite lookup_insert_eq. intros [= <-]. simpl. by apply (Hinv _ _ Hg).
      - rewrite lookup_insert_ne by done. apply Hinv. }
    by destruct (running game).
Qed.

Lemma no_new_presence_refl (ps : list Player) :
  Forall2 (λ p p', present p' = true → present p = true) ps ps.
Proof. induction ps; by constructor. Qed.

Lemma markAway_no_new_presence (uid : Z) (ps : list Player) :
  Forall2 (λ p p', present p' = true → present p = true) ps (markAway uid ps).
Proof.
  induction ps as [|p ps IH]; [constructor|]. cbn [markAway].
  destruct (decide (p_userID p = uid)).
  - constructor; [done|apply no_new_presence_refl].
  - by constructor.
Qed.

(** Property X2.  What [step1] never does: it leaves the user ID, the user
    name and the table of the session as they are, adds or removes no game,
    changes no game other than the one the session is at, and in that game
    changes neither the state of play nor who sits where nor their hands;
    player by player, nobody who was absent is present afterwards (so the
    number of players present does not grow); it adds no spectator; and it
    only appends to the log. *)
Theorem step1_frame (socket : Socket) (g : Globals) :
  let socket' := (step1 socket g).1 in
  let g' := (step1 socket g).2 in
  userID socket' = userID socket ∧ username socket' = username socket ∧
  atTable socket' = atTable socket ∧
  dom (currentGames g') = dom (currentGames g) ∧
  (∀ gameID, gameID ≠ id (atTable socket) →
     currentGames g' !! gameID = currentGames g !! gameID) ∧
  (∀ game game',
     currentGames g !! id (atTable socket) = Some game →
     currentGames g' !! id (atTable socket) = Some game' →
     rules_state game' = rules_state game ∧ seats game' = seats game ∧
     Forall2 (λ p p', present p' = true → present p = true)
       (players game) (players game') ∧
     (present_count game' ≤ present_count game)%nat ∧
     spectators game' ⊆ spectators game) ∧
  (∃ new, trace g' = trace g ++ new).
Proof.
  intros socket' g'. subst socket' g'. unfold step1. simpl.
  destruct (currentGames g !! id (atTable socket)) as [game|] eqn:Hg.
  - destruct (spectating (atTable socket)).
    + destruct (spectators game !! userID socket) as [entry|] eqn:He; simpl.
      * do 3 (split; [done|]). split; [by apply dom_insert_lookup_L|].
        split; [intros; by rewrite lookup_insert_ne|]. split.
        -- intros ? game' [= <-]. rewrite lookup_insert_eq. intros [= <-].
           simpl. split; [done|]. split; [done|].
           split; [apply no_new_presence_refl|]. split; [done|].
           apply delete_subseteq.
        -- rewrite <- !app_assoc. eauto.
      * do 4 (split; [done|]). split; [done|]. split.
        -- intros ? game' [= <-]. rewrite Hg. intros [= <-].
           split; [done|]. split; [done|].
           split; [apply no_new_presence_refl|]. done.
        -- rewrite <- !app_assoc. eauto.
    + assert (Htr : ∀ e1 e2 (x : Globals),
               ∃ new, trace (emit e2 (emit e1
                 (set_game (id (atTable socket))
                    (set_players (markAway (userID socket) (players game)) game)
                    (emit (Notify (allUserChange (userID socket) "Lobby")) g)))) =
               trace g ++ new).
      { intros. simpl. rewrite <- !app_assoc. eauto. }
      destruct (running game); simpl.
      all: do 3 (split; [done|]); (split; [by apply dom_insert_lookup_L|]).
      all: split; [intros; by rewrite lookup_insert_ne|]; split;
        [|rewrite <- !app_assoc; eauto].
      all: intros ? game' [= <-]; rewrite lookup_insert_eq; intros [= <-].
      all: unfold seats, present_count, rules_state; simpl.
      all: rewrite markAway_seats; split; [done|]; split; [done|].
      all: split; [apply markAway_no_new_presence|].
      all: split; [apply markAway_present_count|done].
  - simpl. do 4 (split; [done|]). split; [done|]. split.
    + by intros ? ? [=].
    + rewrite <- !app_assoc. eauto.
Qed.

(** The four ways through [step1]. *)
Lemma step1_no_table (socket : Socket) (g : Globals) :
  currentGames g !! id (atTable socket) = None →
  step1 socket g =
  (set_status "Lobby" socket,
   emit LogInfoNoTable (emit (Notify (allUserChange (userID socket) "Lobby")) g)).
Proof. intros Hg. unfold step1. simpl. by rewrite Hg. Qed.

Lemma step1_spectator (socket : Socket) (g : Globals) (game : Game)
    (entry : string) :
  spectating (atTable socket) = true →
  currentGames g !! id (atTable socket) = Some game →
  spectators game !! userID socket = Some entry →
  step1 socket g =
  (set_status "Lobby" socket,
   emit (Notify (gameNumSpec (id (atTable socket))))
     (emit (Notify (gameMemberChange (id (atTable socket))))
        (set_game (id (atTable socket)) (removeSpectator (userID socket) game)
           (emit (Notify (allUserChange (userID socket) "Lobby")) g)))).
Proof. intros Hs Hg He. unfold step1. simpl. by rewrite Hg, Hs, He. Qed.

Lemma step1_ghost (socket : Socket) (g : Globals) (game : Game) :
  spectating (atTable socket) = true →
  currentGames g !! id (atTable socket) = Some game →
  spectators game !! userID socket = None →
  step1 socket g =
  (set_status "Lobby" socket,
   emit (LogErrorNotSpectator (username socket) (id (atTable socket)))
     (emit (Notify (allUserChange (userID socket) "Lobby")) g)).
Proof. intros Hs Hg He. unfold step1. simpl. by rewrite Hg, Hs, He. Qed.

Lemma step1_player (socket : Socket) (g : Globals) (game : Game) :
  spectating (atTable socket) = false →
  currentGames g !! id (atTable socket) = Some game →
  step1 socket g =
  (set_status "Lobby" socket,
   emit (Notify (playerTable (userID socket) (id (atTable socket))))
     (emit (Notify (if running game
                    then gameConnected (id (atTable socket))
                    else gameMemberChange (id (atTable socket))))
        (set_game (id (atTable socket))
           (set_players (markAway (userID socket) (players game)) game)
           (emit (Notify (allUserChange (userID socket) "Lobby")) g)))).
Proof.
  intros Hs Hg. unfold step1. simpl. rewrite Hg, Hs. by destruct (running game).
Qed.

(** Property X3.  A spectator who returns to the lobby twice: the second
    call finds the session no longer in the spectator list, so it changes
    no game and, after the user-status change, only logs the error. *)
Theorem spectator_leaves_twice (socket : Socket) (g : Globals) (game : Game)
    (entry : string) :
  spectating (atTable socket) = true →
  currentGames g !! id (atTable socket) = Some game →
  spectators game !! userID socket = Some entry →
  let socket1 := (step1 socket g).1 in
  let g1 := (step1 socket g).2 in
  currentGames (step1 socket1 g1).2 = currentGames g1 ∧
  trace (step1 socket1 g1).2 =
    trace g1 ++ [Notify (allUserChange (userID socket) "Lobby");
                 LogErrorNotSpectator (username socket) (id (atTable socket))].
Proof.
  intros Hs Hg He socket1 g1. subst socket1 g1.
  rewrite (step1_spectator socket g game entry Hs Hg He). cbn [fst snd].
  rewrite (step1_ghost _ _ (removeSpectator (userID socket) game)).
  - simpl. split; [done|]. by rewrite <- !app_assoc.
  - done.
  - simpl. apply lookup_insert_eq.
  - simpl. apply lookup_delete_eq.
Qed.

(** Property X4.  Whatever the session and the games, a second call of
    [step1] right after the first changes no game and leaves the session as
    the first call left it. *)
Theorem step1_twice_same_games (socket : Socket) (g : Globals) :
  let socket1 := (step1 socket g).1 in
  let g1 := (step1 socket g).2 in
  currentGames (step1 socket1 g1).2 = currentGames g1 ∧
  (step1 socket1 g1).1 = socket1.
Proof.
  intros socket1 g1. subst socket1 g1.
  destruct (currentGames g !! id (atTable socket)) as [game|] eqn:Hg.
  - destruct (spectating (atTable socket)) eqn:Hs.
    + destruct (spectators game !! userID socket) as [entry|] eqn:He.
      * rewrite (step1_spectator socket g game entry Hs Hg He). cbn [fst snd].
        rewrite (step1_ghost _ _ (removeSpectator (userID socket) game));
          [done|done|..].
        -- simpl. apply lookup_insert_eq.
        -- simpl. apply lookup_delete_eq.
      * rewrite (step1_ghost socket g game Hs Hg He). cbn [fst snd].
        by rewrite (step1_ghost _ _ game).
    + rewrite (step1_player socket g game Hs Hg). cbn [fst snd].
      rewrite (step1_player _ _
                 (set_players (markAway (userID socket) (players game)) game));
        [|done|simpl; apply lookup_insert_eq].
      simpl. by rewrite markAway_idempotent, insert_insert_eq.
  - rewrite (step1_no_table socket g Hg). cbn [fst snd].
    by rewrite step1_no_table.
Qed.

(** Property X5.  A session recorded as a player whose user has no seat at
    the table: no game changes, and the three notifications fire all the
    same. *)
Theorem player_without_seat (socket : Socket) (g : Globals) (game : Game) :
  spectating (atTable socket) = false →
  currentGames g !! id (atTable socket) = Some game →
  Forall (λ p, p_userID p ≠ userID socket) (players game) →
  currentGames (step1 socket g).2 = currentGames g ∧
  fired socket g =
    [allUserChange (userID socket) "Lobby";
     if running game then gameConnected (id (atTable socket))
     else gameMemberChange (id (atTable socket));
     playerTable (userID socket) (id (atTable socket))].
Proof.
  intros Hs Hg Hseat. unfold fired.
  rewrite (step1_player socket g game Hs Hg). simpl.
  rewrite markAway_absent by done. split.
  - apply insert_id. rewrite Hg. by destruct game.
  - rewrite <- !app_assoc. rewrite drop_app_length. by destruct (running game).
Qed.

End LobbyMoreProofs.

(** ** More on the notes *)

Section NotesMoreProofs.
Import Notes NotesUI.
Variable checkSpecialNote : N → Globals → bool.

Abbreviation set' := (set checkSpecialNote).

(** Property X6.  [get] reads back what [set] has stored, whether [set]
    returns or throws: our own note of the card is the new note, the notes
    of the other cards are untouched, and outside of replays and
    spectating the displayed note is that note, too. *)
Theorem set_then_get (order : N) (n : string) (g : Globals) :
  let g' := globals_of (set' order n g) in
  get order true g' = Ok (Some n) g' ∧
  (∀ other, other ≠ order → ourNotes g' !! other = ourNotes g !! other) ∧
  (replay g' = false → spectating g' = false →
   get order false g' = Ok (Some n) g').
Proof.
  intros g'. destruct (set_globals checkSpecialNote order n g)
    as (Ho & Hr & Hs & _). fold g' in Ho, Hr, Hs. clearbody g'.
  unfold get. cbn [orb]. rewrite Ho, lookup_insert_eq. split; [done|]. split.
  - intros other Hne. by rewrite lookup_insert_ne.
  - intros Hr' Hs'. by rewrite Hr', Hs'.
Qed.

(** Property X7.  For a spectator, [set] rewrites in the list of all notes
    of the card exactly the entries under the spectator's own name: the
    list keeps its length, its order and its names, the entries of other
    names keep their notes, the lists of other cards are untouched, and the
    note is remembered as the last note. *)
Theorem set_syncs_own_entries_only (order : N) (n : string) (g : Globals)
    (l : list NoteObject) :
  spectating g = true → allNotes g !! order = Some l →
  let g' := globals_of (set' order n g) in
  ∃ l',
    allNotes g' !! order = Some l' ∧ length l' = length l ∧
    (∀ i noteObject, l !! i = Some noteObject →
       ∃ noteObject',
         l' !! i = Some noteObject' ∧ name noteObject' = name noteObject ∧
         note noteObject' =
           if String.eqb (name noteObject) (username g) then n
           else note noteObject) ∧
    (∀ other, other ≠ order → allNotes g' !! other = allNotes g !! other) ∧
    lastNote g' = Some n.
Proof.
  intros Hs Hl g'. subst g'. unfold set. cbn [set_ourNote spectating allNotes].
  rewrite Hs, Hl.
  set (l' := (λ noteObject, if String.eqb (name noteObject) (username _)
                            then mkNoteObject (name noteObject) n
                            else noteObject) <$> l).
  exists l'.
  assert (Hl' : length l' = length l) by apply length_fmap.
  assert (Hentries : ∀ i noteObject, l !! i = Some noteObject →
     ∃ noteObject',
       l' !! i = Some noteObject' ∧ name noteObject' = name noteObject ∧
       note noteObject' =
         if String.eqb (name noteObject) (username g) then n
         else note noteObject).
  { intros i noteObject Hi. subst l'. rewrite list_lookup_fmap, Hi. simpl.
    eexists. split; [done|].
    by destruct (String.eqb (name noteObject) (username g)). }
  match goal with |- context [checkSpecialNote ?o ?x] =>
    destruct (checkSpecialNote o x) end;
  match goal with |- context [if ?b then send _ _ else _] => destruct b end;
  cbn [globals_of send set_lastNote set_allNotes allNotes lastNote];
  (split; [apply lookup_insert_eq|]); (split; [done|]); (split; [done|]);
  (split; [|done]); intros other Hne; by rewrite lookup_insert_ne.
Qed.

(** Property X8.  For a spectator, [set] on a card without a list of notes
    throws in the loop over [globals.allNotes[order]]: our own note is
    already stored, but the last note is not set and nothing is sent. *)
Theorem set_throws_without_entry (order : N) (n : string) (g : Globals) :
  spectating g = true → allNotes g !! order = None →
  ∃ g',
    set' order n g = Throw g' ∧
    ourNotes g' = <[order := n]> (ourNotes g) ∧
    allNotes g' = allNotes g ∧ lastNote g' = lastNote g ∧ sent g' = sent g.
Proof.
  intros Hs Hl. unfold set. cbn [set_ourNote spectating allNotes].
  rewrite Hs, Hl. by eexists.
Qed.

(** Property X9.  [set] sends a note at most once: a second [set] of the
    same note on the same card sends nothing, a replay sends nothing, and
    a note equal to the stored one is not sent. *)
Theorem set_sends_once (order : N) (n : string) (g : Globals) :
  let g1 := globals_of (set' order n g) in
  sent (globals_of (set' order n g1)) = sent g1 ∧
  (replay g = true → sent g1 = sent g) ∧
  (ourNotes g !! order = Some n → sent g1 = sent g).
Proof.
  intros g1.
  destruct (set_globals checkSpecialNote order n g) as (Ho & _ & _ & _ & Hsent).
  fold g1 in Ho, Hsent.
  destruct (set_globals checkSpecialNote order n g1) as (_ & _ & _ & _ & Hsent1).
  clearbody g1. split; [|split].
  - rewrite Hsent1, Ho, lookup_insert_eq.
    rewrite (bool_decide_true (Some n = Some n)) by done.
    cbn [negb]. rewrite !andb_false_r. apply app_nil_r.
  - intros Hr. rewrite Hsent, Hr. simpl. rewrite andb_false_r. apply app_nil_r.
  - intros Hold. rewrite Hsent.
    rewrite (bool_decide_true (ourNotes g !! order = Some n)) by done.
    cbn [negb]. rewrite !andb_false_r. apply app_nil_r.
Qed.

Lemma string_app_cons (a : Ascii.ascii) (s t : string) :
  String a s +:+ t = String a (s +:+ t).
Proof. reflexivity. Qed.

Lemma string_app_nil_l (t : string) : "" +:+ t = t.
Proof. reflexivity. Qed.

Lemma string_app_assoc (s1 s2 s3 : string) :
  (s1 +:+ s2) +:+ s3 = s1 +:+ (s2 +:+ s3).
Proof.
  induction s1 as [|a s1 IH]; [done|].
  by rewrite !string_app_cons, IH.
Qed.

Lemma string_app_nil_r (s : string) : s +:+ "" = s.
Proof.
  induction s as [|a s IH]; [done|]. by rewrite string_app_cons, IH.
Qed.

Lemma substring_prefix (s t : string) :
  substring 0 (String.length s) (s +:+ t) = s.
Proof.
  induction s as [|a s IH].
  - rewrite string_app_nil_l. by destruct t.
  - rewrite string_app_cons. cbn [String.length substring]. by rewrite IH.
Qed.

Lemma nonempty_length (s : string) :
  (0 <? String.length s)%nat = true ↔ s ≠ "".
Proof. destruct s; simpl; split; done. Qed.

(** The accumulated content of the loop in [get]: one line, closed by a
    break, for each non-empty note. *)
Lemma get_loop_content (c : string) (l : list NoteObject) :
  foldl (λ content noteObject,
           if (0 <? String.length (note noteObject))%nat then
             content +:+ "<strong>" +:+ name noteObject +:+
             ":</strong> " +:+ note noteObject +:+ "<br />"
           else content) c l =
  c +:+ foldr (λ x acc, entry_html x +:+ "<br />" +:+ acc) ""
          (filter (λ noteObject, note noteObject ≠ "") l).
Proof.
  revert c. induction l as [|x l IH]; intros c.
  - simpl. by rewrite string_app_nil_r.
  - cbn [foldl]. rewrite IH, filter_cons.
    destruct (decide (note x ≠ "")) as [Hx|Hx].
    + rewrite (proj2 (nonempty_length _) Hx). cbn [foldr].
      unfold entry_html. by rewrite !string_app_assoc.
    + assert ((0 <? String.length (note x))%nat = false) as ->; [|done].
      destruct (note x); [done|]. by destruct Hx.
Qed.

Lemma lines_concat (xs : list NoteObject) :
  xs ≠ [] →
  foldr (λ x acc, entry_html x +:+ "<br />" +:+ acc) "" xs =
  String.concat "<br />" (entry_html <$> xs) +:+ "<br />".
Proof.
  induction xs as [|x xs IH]; [done|]. intros _.
  destruct xs as [|y xs].
  - done.
  - cbn [foldr] in *. rewrite IH by done.
    rewrite !fmap_cons. cbn [String.concat].
    by rewrite !string_app_assoc.
Qed.

Lemma get_joined (order : N) (g : Globals) (l : list NoteObject) :
  replay g || spectating g = true → allNotes g !! order = Some l →
  get order false g =
  Ok (Some (String.concat "<br />"
              (entry_html <$> filter (λ noteObject, note noteObject ≠ "") l))) g.
Proof.
  intros Hrs Hl. unfold get. cbn [orb].
  assert (negb (replay g) && negb (spectating g) = false) as ->.
  { by destruct (replay g), (spectating g). }
  rewrite Hl, get_loop_content, string_app_nil_l.
  destruct (filter (λ noteObject, note noteObject ≠ "") l) as [|x xs] eqn:Hf.
  - done.
  - rewrite lines_concat by done.
    set (body := String.concat "<br />" (entry_html <$> x :: xs)).
    assert (String.length (body +:+ "<br />") = (String.length body + 6)%nat) as Hlen.
    { by rewrite string_app_length. }
    rewrite Hlen.
    replace (String.length body + 6 =? 0)%nat with false
      by (symmetry; apply Nat.eqb_neq; lia).
    cbn [negb]. replace (String.length body + 6 - 6)%nat
      with (String.length body) by lia.
    by rewrite substring_prefix.
Qed.

(** Property X10.  For spectators and in replays, [get(order, false)]
    returns the non-empty notes of the card, one line
    [<strong>name:</strong> note] per note in the order of the list, joined
    by [<br />] with no break after the last; with no non-empty note it
    returns the empty string. *)
Theorem combined_notes (order : N) (g : Globals) :
  replay g || spectating g = true →
  match allNotes g !! order with
  | Some l =>
      get order false g =
      Ok (Some (String.concat "<br />"
                  (entry_html <$>
                   filter (λ noteObject, note noteObject ≠ "") l))) g
  | None => get order false g = Throw g
  end.
Proof.
  intros Hrs. destruct (allNotes g !! order) as [l|] eqn:Hl.
  - by apply get_joined.
  - unfold get. cbn [orb].
    assert (negb (replay g) && negb (spectating g) = false) as ->.
    { by destruct (replay g), (spectating g). }
    by rewrite Hl.
Qed.

Lemma concat_nonempty (x : NoteObject) (xs : list NoteObject) :
  String.concat "<br />" (entry_html <$> x :: xs) ≠ "".
Proof. rewrite fmap_cons. by destruct xs. Qed.

Lemma existsb_filter (l : list NoteObject) :
  existsb (λ noteObject, (0 <? String.length (note noteObject))%nat) l =
  negb (bool_decide (filter (λ noteObject, note noteObject ≠ "") l = [])).
Proof.
  induction l as [|x l IH]; [done|]. cbn [existsb]. rewrite filter_cons, IH.
  destruct (decide (note x ≠ "")) as [Hx|Hx].
  - by rewrite (proj2 (nonempty_length _) Hx).
  - assert ((0 <? String.length (note x))%nat = false) as ->; [|done].
    destruct (note x); [done|]. by destruct Hx.
Qed.

(** The indicator is due exactly when the note that [get] shows is not
    empty. *)
Lemma shouldShowIndicator_get (order : N) (g g0 : Globals) (content : string) :
  get order false g = Ok (Some content) g0 →
  g0 = g ∧
  shouldShowIndicator order g = Some (0 <? String.length content)%nat.
Proof.
  unfold shouldShowIndicator.
  destruct (replay g || spectating g) eqn:Hrs.
  - destruct (allNotes g !! order) as [l|] eqn:Hl.
    + rewrite (get_joined order g l Hrs Hl). intros [= <- <-]. split; [done|].
      rewrite existsb_filter.
      destruct (filter (λ noteObject, note noteObject ≠ "") l) as [|x xs] eqn:Hf.
      * done.
      * pose proof (concat_nonempty x xs) as Hne.
        by destruct (String.concat "<br />" (entry_html <$> x :: xs)).
    + unfold get. cbn [orb].
      assert (negb (replay g) && negb (spectating g) = false) as ->.
      { by destruct (replay g), (spectating g). }
      by rewrite Hl.
  - unfold get. cbn [orb].
    assert (negb (replay g) && negb (spectating g) = true) as ->.
    { by destruct (replay g), (spectating g). }
    destruct (ourNotes g !! order) as [note|]; [|done].
    intros [= <- <-]. split; [done|]. by destruct note.
Qed.

(** Property X11.  When [update] returns, it has set the content of the
    tooltip to the note that [get(order, false)] returns, has made the
    indicator visible exactly when [shouldShowIndicator] says so, which is
    exactly when that note is not empty, has closed the tooltip exactly
    when it is empty, and has redrawn the layer exactly when the visibility
    changed. *)
Theorem update_agrees_with_indicator (order : N) (visibleOld : bool)
    (g : Globals) (calls : list uicall) :
  update order visibleOld g = (calls, true) →
  ∃ content visible,
    get order false g = Ok (Some content) g ∧
    shouldShowIndicator order g = Some visible ∧
    (visible = false ↔ content = "") ∧
    calls =
      [TooltipContent order (Some content)] ++
      (if visible then [] else [TooltipClose order]) ++
      [SetVisible order visible] ++
      (if Bool.eqb visibleOld visible then [] else [BatchDraw]).
Proof.
  unfold update.
  destruct (get order false g) as [[content|] g0|g0] eqn:Hget; [|done..].
  intros [= <-].
  destruct (shouldShowIndicator_get _ _ _ _ Hget) as [-> Hshow].
  exists content, (0 <? String.length content)%nat.
  split; [done|]. split; [done|].
  destruct content as [|c rest]; simpl; [by repeat split|].
  split; [|done]. by split.
Qed.

Variable body_textContent : string → string.
Variable update_card : N → Globals → bool.
Variable show : N → Globals → bool.

Abbreviation keydown := (openEditTooltip_keydown body_textContent checkSpecialNote update_card).

Lemma set_keeps_editingNote (order : N) (n : string) (g : Globals) :
  editingNote (globals_of (set' order n g)) = editingNote g.
Proof.
  unfold set. simpl.
  destruct (spectating g); simpl.
  - destruct (allNotes g !! order) as [l|]; simpl; [|done].
    destruct (negb (replay g) && negb (bool_decide (ourNotes g !! order = Some n)));
      by destruct (checkSpecialNote _ _).
  - destruct (negb (replay g) && negb (bool_decide (ourNotes g !! order = Some n)));
      by destruct (checkSpecialNote _ _).
Qed.

(** What Escape leaves behind, whether the handler returns or throws. *)
Lemma escape_globals (order : N) (value : string) (g : Globals) :
  globals_of (keydown order value Escape g) =
  mkGlobals (replay g) (spectating g) (username g) (ourNotes g) (allNotes g)
            (lastNote g) None false (sent g).
Proof.
  unfold openEditTooltip_keydown, get. cbn [orb]. rewrite globals_of_if.
  cbn [actionOccured set_editingNote].
  destruct (actionOccured g) eqn:Ha; [done|].
  unfold set_editingNote. by rewrite Ha.
Qed.

(** Property X12.  [openEditTooltip] stores no note and sends nothing: of
    the globals it assigns [editingNote] only, whether it returns or
    throws, and in a replay not even that. *)
Theorem openEditTooltip_frame (order : N) (g : Globals) :
  let g' := globals_of (openEditTooltip show order g) in
  ourNotes g' = ourNotes g ∧ allNotes g' = allNotes g ∧
  lastNote g' = lastNote g ∧ sent g' = sent g ∧
  replay g' = replay g ∧ spectating g' = spectating g ∧
  actionOccured g' = actionOccured g ∧
  (replay g = true → editingNote g' = editingNote g).
Proof.
  unfold openEditTooltip. destruct (replay g) eqn:Hr; [by cbn; rewrite Hr|].
  case_bool_decide; [by cbn; rewrite Hr|].
  destruct (show order g); [|by cbn; rewrite Hr].
  unfold get. cbn [orb globals_of]. cbn. by rewrite Hr.
Qed.


(** Property X14.  The key handler ignores every key but Enter and Escape.
    After Enter no card is being edited, whether [set] threw or not.  After
    Escape no card is being edited, the pending-action flag is cleared and
    nothing else has changed. *)
Theorem keydown_ends_editing (order : N) (value : string) (k : key) (g : Globals) :
  let r := keydown order value k g in
  match k with
  | OtherKey _ => r = Ok tt g
  | Escape =>
      globals_of r =
      mkGlobals (replay g) (spectating g) (username g) (ourNotes g) (allNotes g)
                (lastNote g) None false (sent g)
  | Enter => editingNote (globals_of r) = None
  end.
Proof.
  destruct k; cbv zeta; [| |done].
  - unfold openEditTooltip_keydown.
    pose proof (set_keeps_editingNote order (stripHTMLtags body_textContent value)
                  (set_editingNote None g)) as He.
    destruct (set' order _ (set_editingNote None g)) as [[] g2|g2];
      cbn [globals_of] in *; [|done].
    rewrite globals_of_if. by destruct (actionOccured g2).
  - apply escape_globals.
Qed.

End NotesMoreProofs.

(** ** The note indicators *)

Section IndicatorProofs.
Import Notes NotesUI NotesIndicators.

Lemma mark_idempotent (visible : bool) (g : Globals) (card : CardUI) :
  mark visible g (mark visible g card) = mark visible g card.
Proof.
  unfold mark.
  destruct (visible && spectating g && negb (replay g)) eqn:Hguard;
    destruct (ind_rotated (noteGiven card)) eqn:Hrot;
    cbn [noteGiven ind_rotated ind_rotation card_order negb andb];
    rewrite ?Hguard, ?Hrot, ?andb_false_r; cbn [negb andb]; try done.
Qed.

(** Property X25.  Setting the indicator of a card a second time changes
    no card: the indicator keeps its visibility and is not rotated again;
    only the layer is drawn once more. *)
Theorem setCardIndicator_twice (order : N) (g : Globals) (b b1 : Board) :
  setCardIndicator order g b = Some b1 →
  setCardIndicator order g b1 =
    Some (mkBoard (deck b1) (stackBases b1) (S (batchDraws b1))).
Proof.
  unfold setCardIndicator.
  destruct (shouldShowIndicator order g) as [visible|]; [|done].
  cbn [mbind option_bind].
  destruct (deck b !! N.to_nat order) as [card|] eqn:Hdeck.
  - intros [= <-]. cbn [deck stackBases batchDraws].
    rewrite list_lookup_insert_eq by (by eapply lookup_lt_Some).
    by rewrite mark_idempotent, list_insert_insert_eq.
  - destruct (stackBases b !! (N.to_nat order - length (deck b))%nat)
      as [card|] eqn:Hbase; [|done].
    intros [= <-]. cbn [deck stackBases batchDraws]. rewrite Hdeck.
    rewrite list_lookup_insert_eq by (by eapply lookup_lt_Some).
    by rewrite mark_idempotent, list_insert_insert_eq.
Qed.

Lemma setCardIndicators_None (orders : list N) (g : Globals) :
  foldl (λ r order, b ← r; setCardIndicator order g b) None orders = None.
Proof. by induction orders. Qed.

Lemma setCardIndicators_cons (order : N) (orders : list N) (g : Globals)
    (b : Board) :
  setCardIndicators (order :: orders) g b =
  b1 ← setCardIndicator order g b; setCardIndicators orders g b1.
Proof.
  unfold setCardIndicators. cbn [foldl mbind option_bind].
  destruct (setCardIndicator order g b); [done|].
  apply setCardIndicators_None.
Qed.

(** The first loop of [setAllCardIndicators], from the card after
    [done]. *)
Lemma setCardIndicators_deck (g : Globals) (todo done bases : list CardUI)
    (n : nat) :
  (∀ i card, todo !! i = Some card →
     card_order card = N.of_nat (length done + i) ∧
     is_Some (shouldShowIndicator (card_order card) g)) →
  setCardIndicators (card_order <$> todo) g (mkBoard (done ++ todo) bases n) =
  Some (mkBoard (done ++ (marked g <$> todo)) bases (n + length todo)).
Proof.
  revert done n. induction todo as [|card todo IH]; intros done n Hall.
  - cbn. by rewrite Nat.add_0_r.
  - rewrite fmap_cons, setCardIndicators_cons.
    destruct (Hall 0%nat card eq_refl) as [Hord [visible Hvis]].
    rewrite Nat.add_0_r in Hord.
    unfold setCardIndicator. rewrite Hvis. cbn [mbind option_bind deck].
    rewrite Hord, Nat2N.id, list_lookup_middle by done.
    cbn [stackBases batchDraws].
    replace (<[length done := mark visible g card]> (done ++ card :: todo))
      with ((done ++ [mark visible g card]) ++ todo).
    2:{ rewrite insert_app_r_alt by lia. rewrite Nat.sub_diag. cbn.
        by rewrite <- app_assoc. }
    cbn [mbind option_bind]. rewrite IH.
    + f_equal. rewrite <- app_assoc. cbn [app fmap list_fmap length].
      unfold marked at 2. rewrite Hvis. f_equal. lia.
    + intros i c Hc. destruct (Hall (S i) c Hc) as [Ho Hs]. split; [|done].
      rewrite Ho, length_app. cbn [length]. f_equal. lia.
Qed.

(** The second loop, from the stack base after [done]. *)
Lemma setCardIndicators_bases (g : Globals) (todo done cards : list CardUI)
    (n : nat) :
  (∀ j card, todo !! j = Some card →
     card_order card = N.of_nat (length cards + (length done + j)) ∧
     is_Some (shouldShowIndicator (card_order card) g)) →
  setCardIndicators (card_order <$> todo) g (mkBoard cards (done ++ todo) n) =
  Some (mkBoard cards (done ++ (marked g <$> todo)) (n + length todo)).
Proof.
  revert done n. induction todo as [|card todo IH]; intros done n Hall.
  - cbn. by rewrite Nat.add_0_r.
  - rewrite fmap_cons, setCardIndicators_cons.
    destruct (Hall 0%nat card eq_refl) as [Hord [visible Hvis]].
    rewrite Nat.add_0_r in Hord.
    unfold setCardIndicator. rewrite Hvis. cbn [mbind option_bind deck].
    rewrite Hord, Nat2N.id, (lookup_ge_None_2 cards) by lia.
    cbn [stackBases batchDraws].
    replace (length cards + length done - length cards)%nat
      with (length done) by lia.
    rewrite list_lookup_middle by done.
    replace (<[length done := mark visible g card]> (done ++ card :: todo))
      with ((done ++ [mark visible g card]) ++ todo).
    2:{ rewrite insert_app_r_alt by lia. rewrite Nat.sub_diag. cbn.
        by rewrite <- app_assoc. }
    cbn [mbind option_bind]. rewrite IH.
    + f_equal. rewrite <- app_assoc. cbn [app fmap list_fmap length].
      unfold marked at 2. rewrite Hvis. f_equal. lia.
    + intros j c Hc. destruct (Hall (S j) c Hc) as [Ho Hs]. split; [|done].
      rewrite Ho, length_app. cbn [length]. f_equal. lia.
Qed.

Lemma marked_order (g : Globals) (card : CardUI) :
  card_order (marked g card) = card_order card.
Proof.
  unfold marked, mark. destruct (shouldShowIndicator _ g); [|done].
  by destruct (_ && _).
Qed.

(** Property X26.  On a board whose cards sit at the index given by their
    order, and when [shouldShowIndicator] returns for each of them,
    [setAllCardIndicators] returns, visits every card and every stack base
    once (one redraw each), and leaves on each of them the indicator that
    [setCardIndicator] gives it: shown exactly when [shouldShowIndicator]
    says so. *)
Theorem setAllCardIndicators_marks_every_card (g : Globals) (b : Board) :
  numbered b →
  (∀ card, card ∈ deck b ++ stackBases b →
           is_Some (shouldShowIndicator (card_order card) g)) →
  setAllCardIndicators g b =
    Some (mkBoard (marked g <$> deck b) (marked g <$> stackBases b)
            (batchDraws b + length (deck b) + length (stackBases b))) ∧
  ∀ card, card ∈ deck b ++ stackBases b →
    shouldShowIndicator (card_order card) g =
    Some (ind_visible (noteGiven (marked g card))).
Proof.
  intros [Hdeck Hbases] Hvis. split.
  - unfold setAllCardIndicators. destruct b as [cards bases n].
    cbn [deck stackBases batchDraws] in *.
    pose proof (setCardIndicators_deck g cards [] bases n) as H1.
    cbn [app length] in H1. rewrite H1; clear H1.
    + cbn [mbind option_bind stackBases].
      pose proof (setCardIndicators_bases g bases [] (marked g <$> cards)
                    (n + length cards)) as H2.
      cbn [app length] in H2. rewrite H2; [done|].
      intros j card Hj. rewrite length_fmap. split; [by apply Hbases|].
      apply Hvis, elem_of_app. right. by eapply list_elem_of_lookup_2.
    + intros i card Hi. split; [by apply Hdeck|].
      apply Hvis, elem_of_app. left. by eapply list_elem_of_lookup_2.
  - intros card [visible Hcard]%Hvis. unfold marked. rewrite Hcard.
    unfold mark. by destruct (_ && _).
Qed.

End IndicatorProofs.

(** ** The further properties on the sample states *)

Module PersistMoreWitnesses.
Import Num Json Persist PersistInvariants PersistExamples PersistMoreExamples.

Lemma ex_restart_restores : restoreTables (restart ex_shutdown.2) = Done ex_restored.
Proof. vm_compute. reflexivity. Defined.

(** Table 7 after the shutdown of the sample world and the start that
    follows. *)
Lemma restored_tables_are_linked_witness : linked (w_tables ex_restored).
Proof.
  apply (restored_tables_are_linked (restart ex_shutdown.2) ex_restored).
  - exact ex_restart_restores.
  - intros id t H. cbn [restart w_tables] in H.
    rewrite lookup_empty in H. discriminate H.
Defined.

Lemma ex_locked_stops :
  failed (restoreFile "3.json" ex_locked_world) = Some ex_locked_stopped.
Proof. vm_compute. reflexivity. Defined.

(** The record that cannot be deleted: the process ends with table 3
    registered and the directory as it was. *)
Lemma failed_round_keeps_the_files_witness :
  w_fs ex_locked_stopped = w_fs ex_locked_world ∧
  (ex_locked_stopped = ex_locked_world ∨
   ∃ t' timer,
     restoreFile "3.json" ex_locked_world =
       Fatal (DeleteFailed "3.json") ex_locked_stopped ∧
     Remove (w_fs ex_locked_world) "3.json" = None ∧
     ex_locked_stopped =
       emit (InfoRestored (tID t'))
         (set_table t' (emit_all timer ex_locked_world))).
Proof.
  apply (failed_round_keeps_the_files "3.json" ex_locked_world ex_locked_stopped).
  exact ex_locked_stops.
Defined.

Lemma ex_garbage_stops :
  failed (restoreTables ex_garbage_world) = Some ex_garbage_stopped.
Proof. vm_compute. reflexivity. Defined.

(** The directory with a good record before a file that is not JSON: the
    good record is consumed, the other file is still there. *)
Lemma failed_restore_consumed_a_prefix_witness :
  ∃ pre name post d',
    ReadDir (w_fs ex_garbage_world) = Some (pre ++ name :: post) ∧
    fs_dir (w_fs ex_garbage_stopped) = Some d' ∧
    name ≠ ".gitignore" ∧ is_Some (d' !! name).
Proof.
  destruct (failed_restore_consumed_a_prefix ex_garbage_world ex_garbage_stopped
              (<[ "9.json" := Garbage ]> (<[ "3.json" := Doc ex_record ]> ex_dir)))
    as (pre & name & post & d' & H1 & H2 & _ & H4 & H5).
  - exact ex_garbage_stops.
  - reflexivity.
  - exists pre, name, post, d'.
    split; [exact H1|]. split; [exact H2|]. split; [exact H4|exact H5].
Defined.

(** A start on the directory that holds only [.gitignore]. *)
Lemma no_record_restores_nothing_witness :
  ∃ w',
    restoreTables (restart ex_world) = Done w' ∧
    w_tables w' = ∅ ∧ w_fs w' = ex_fs ∧
    w_trace w' = [InfoSummary "Restored 0 table."].
Proof.
  destruct (no_record_restores_nothing (restart ex_world) ex_dir)
    as (w' & H1 & H2 & H3 & H4).
  - reflexivity.
  - apply PersistWitnesses.ex_dir_housekeeping.
  - exists w'. split; [exact H1|]. split; [exact H2|]. split; [exact H3|].
    rewrite H4. vm_compute. reflexivity.
Defined.

(** A second recovery after that of the sample world. *)
Lemma restore_twice_witness :
  restoreTables ex_restored =
    Done (emit (InfoSummary (summary (size (w_tables ex_restored)))) ex_restored).
Proof.
  apply (restore_twice (restart ex_shutdown.2) ex_restored).
  exact ex_restart_restores.
Defined.

(** The recovery of the sample world deletes the one record. *)
Lemma records_removed_in_listing_order_witness :
  removed (w_trace ex_restored) = ["7.json"].
Proof.
  destruct (records_removed_in_listing_order (restart ex_shutdown.2) ex_restored
              ex_restart_restores) as (files & Hf & Hr & _).
  rewrite Hr. vm_compute in Hf. injection Hf as <-. vm_compute. reflexivity.
Defined.

Lemma ex_shutdown_run :
  serializeTables ex_world (ex_shutdown.1, ex_shutdown.2).
Proof.
  exists (map_to_list (w_tables ex_world)).*2.
  split; [reflexivity|]. vm_compute. reflexivity.
Defined.

(** The shutdown of the sample world. *)
Lemma serialize_only_writes_records_witness :
  w_tables ex_shutdown.2 = w_tables ex_world ∧
  ∃ d', fs_dir (w_fs ex_shutdown.2) = Some d' ∧
    (∀ n, is_Some (ex_dir !! n) → is_Some (d' !! n)) ∧
    (∀ n, (∀ id t, w_tables ex_world !! id = Some t → ongoing t = true →
                   n ≠ tableFilename (tID t)) →
          d' !! n = ex_dir !! n).
Proof.
  apply (serialize_only_writes_records ex_world ex_shutdown.2 ex_shutdown.1).
  exact ex_shutdown_run.
Defined.

Lemma ex_keyed (id : N) (t : Table) :
  w_tables ex_world !! id = Some t → tID t = id.
Proof. intros H. apply (PersistWitnesses.ex_registry id t H). Defined.

(** Two shutdowns of the sample world in a row. *)
Lemma serialize_twice_witness :
  ex_shutdown_again.1 = true ∧ w_fs ex_shutdown_again.2 = w_fs ex_shutdown.2 ∧
  w_tables ex_shutdown_again.2 = w_tables ex_world.
Proof.
  apply (serialize_twice ex_world ex_shutdown.2 ex_shutdown_again).
  - exact ex_keyed.
  - change true with ex_shutdown.1. exact ex_shutdown_run.
  - exists (map_to_list (w_tables ex_shutdown.2)).*2. split; reflexivity.
Defined.

(** A log whose second entry is not a map. *)
Lemma retyping_stops_at_the_first_bad_entry_witness :
  ∃ k a,
    ex_mixed_log !! k = Some a ∧
    restoreAction 3%N (0 + k) a = inl (ActionNotMap 1 3%N) ∧
    (ActionNotMap 1 3%N = ActionNotMap (0 + k) 3%N ∨
     ActionNotMap 1 3%N = ActionNotDraw (0 + k) 3%N) ∧
    ∃ pre, restoreActions 3%N 0 (take k ex_mixed_log) = inr pre.
Proof.
  apply (retyping_stops_at_the_first_bad_entry 3%N 0%nat ex_mixed_log).
  vm_compute. reflexivity.
Defined.

(** A decoded log of a draw and a play. *)
Lemma retyping_keeps_the_other_entries_witness :
  Forall2 retyped_from ex_decoded_log
    [ADraw (mkActionDraw "draw" 1 0 0 10);
     AValue (VMap (list_to_map [("type", VString "play")]))].
Proof.
  apply (retyping_keeps_the_other_entries 3%N 0%nat).
  vm_compute. reflexivity.
Defined.

End PersistMoreWitnesses.

Module LobbyMoreWitnesses.
Import Lobby LobbyInvariants LobbyExamples.

Lemma ex_spec_count : spec_count_ok ex_globals.
Proof.
  intros gameID game Hg.
  change (({[ 7 := ex_game ]} : gmap Z Game) !! gameID = Some game) in Hg.
  apply lookup_singleton_Some in Hg as [_ <-]. reflexivity.
Defined.

(** The count of table 7 is still that of its list when dave has stopped
    watching. *)
Lemma step1_keeps_spectator_count_witness :
  spec_count_ok ex_globals ∧ spec_count_ok (step1 ex_spectator ex_globals).2.
Proof.
  split; [exact ex_spec_count|].
  apply (step1_keeps_spectator_count ex_spectator ex_globals ex_spec_count).
Defined.

(** Alice leaves table 7: the seats and the state of play are the same. *)
Lemma step1_frame_witness :
  ∃ game',
    currentGames (step1 ex_player ex_globals).2 !! 7 = Some game' ∧
    rules_state game' = rules_state ex_game ∧ seats game' = seats ex_game ∧
    Forall2 (λ p p', present p' = true → present p = true)
      (players ex_game) (players game').
Proof.
  destruct (step1_frame ex_player ex_globals) as (_ & _ & _ & _ & _ & H & _).
  exists (set_players (markAway 11 (players ex_game)) ex_game).
  split; [vm_compute; reflexivity|].
  destruct (H ex_game (set_players (markAway 11 (players ex_game)) ex_game))
    as (H1 & H2 & H3 & _).
  - reflexivity.
  - vm_compute. reflexivity.
  - split; [exact H1|]. split; [exact H2|exact H3].
Defined.

(** Dave returns to the lobby twice: the second call only reports that he
    is not in the list. *)
Lemma spectator_leaves_twice_witness :
  trace (step1 (step1 ex_spectator ex_globals).1
               (step1 ex_spectator ex_globals).2).2 =
  [Notify (allUserChange 21 "Lobby"); Notify (gameMemberChange 7);
   Notify (gameNumSpec 7); Notify (allUserChange 21 "Lobby");
   LogErrorNotSpectator "dave" 7].
Proof.
  destruct (spectator_leaves_twice ex_spectator ex_globals ex_game "dave")
    as [_ Ht].
  - reflexivity.
  - reflexivity.
  - reflexivity.
  - rewrite Ht. vm_compute. reflexivity.
Defined.

(** A session recorded as a player of table 7 whose user has no seat
    there. *)
Lemma player_without_seat_witness :
  let zed := mkSocket 30 "zed" "Playing" (mkAtTable 7 false) in
  currentGames (step1 zed ex_globals).2 = currentGames ex_globals ∧
  fired zed ex_globals =
    [allUserChange 30 "Lobby"; gameConnected 7; playerTable 30 7].
Proof.
  intros zed.
  apply (player_without_seat zed ex_globals ex_game).
  - reflexivity.
  - reflexivity.
  - repeat constructor; intros H; vm_compute in H; discriminate H.
Defined.

End LobbyMoreWitnesses.

Module NotesMoreWitnesses.
Import Notes NotesUI NotesExamples NotesUIExamples.

(** A player replaces the note of card 3 and reads it back. *)
Lemma set_then_get_witness :
  let g' := globals_of (set (λ _ _, true) 3%N "new" ex_globals) in
  get 3%N false g' = Ok (Some "new") g'.
Proof.
  destruct (set_then_get (λ _ _, true) 3%N "new" ex_globals) as (_ & _ & H).
  apply H; reflexivity.
Defined.

(** A spectator replaces their note of card 3 among those of three
    players. *)
Lemma set_syncs_own_entries_only_witness :
  let g' := globals_of (set (λ _ _, true) 3%N "new" ex_watching) in
  ∃ l', allNotes g' !! 3%N = Some l' ∧ length l' = 3%nat ∧
        lastNote g' = Some "new".
Proof.
  destruct (set_syncs_own_entries_only (λ _ _, true) 3%N "new" ex_watching
              [mkNoteObject "alice" "old"; mkNoteObject "bob" "b2";
               mkNoteObject "carol" ""])
    as (l' & H1 & H2 & _ & _ & H5).
  - reflexivity.
  - reflexivity.
  - exists l'. split; [exact H1|]. split; [exact H2|exact H5].
Defined.

(** A spectator writes a note on card 4, of which nobody has notes. *)
Lemma set_throws_without_entry_witness :
  ∃ g', set (λ _ _, true) 4%N "x" ex_watching = Throw g' ∧
        ourNotes g' = <[4%N := "x"]> (ourNotes ex_watching) ∧
        sent g' = [].
Proof.
  destruct (set_throws_without_entry (λ _ _, true) 4%N "x" ex_watching)
    as (g' & H1 & H2 & _ & _ & H5).
  - reflexivity.
  - reflexivity.
  - exists g'. split; [exact H1|]. split; [exact H2|exact H5].
Defined.

(** Committing the note that card 3 already has sends nothing. *)
Lemma set_sends_once_witness :
  sent (globals_of (set (λ _ _, true) 3%N "old" ex_globals)) = [].
Proof.
  destruct (set_sends_once (λ _ _, true) 3%N "old" ex_globals) as (_ & _ & H).
  apply H. reflexivity.
Defined.

(** What a spectator reads on card 3: carol's empty note is left out, and
    there is no break after the last line. *)
Lemma combined_notes_witness :
  get 3%N false ex_watching =
  Ok (Some "<strong>alice:</strong> old<br /><strong>bob:</strong> b2")
     ex_watching.
Proof.
  exact (combined_notes 3%N ex_watching eq_refl).
Defined.

(** The indicator of card 3 is switched on for the spectator. *)
Lemma update_agrees_with_indicator_witness :
  ∃ content visible,
    get 3%N false ex_watching = Ok (Some content) ex_watching ∧
    shouldShowIndicator 3%N ex_watching = Some visible ∧
    (visible = false ↔ content = "") ∧
    [TooltipContent 3%N
       (Some "<strong>alice:</strong> old<br /><strong>bob:</strong> b2");
     SetVisible 3%N true; BatchDraw] =
      [TooltipContent 3%N (Some content)] ++
      (if visible then [] else [TooltipClose 3%N]) ++
      [SetVisible 3%N visible] ++
      (if Bool.eqb false visible then [] else [BatchDraw]).
Proof.
  apply (update_agrees_with_indicator 3%N false ex_watching).
  vm_compute. reflexivity.
Defined.

(** In a replay a right click leaves the edited card as it is. *)
Lemma openEditTooltip_frame_witness :
  editingNote (globals_of (openEditTooltip (λ _ _, true) 5%N ex_replay)) =
  Some 3%N.
Proof.
  destruct (openEditTooltip_frame (λ _ _, true) 5%N ex_replay)
    as (_ & _ & _ & _ & _ & _ & _ & H).
  apply H. reflexivity.
Defined.


End NotesMoreWitnesses.

Module IndicatorWitnesses.
Import Notes NotesUI NotesIndicators NotesUIExamples.

(** The indicator of card 0 is set twice for the spectator. *)
Lemma setCardIndicator_twice_witness :
  ∃ b1,
    setCardIndicator 0%N ex_watching_all ex_board = Some b1 ∧
    deck b1 !! 0%nat = Some (mkCardUI 0%N (mkIndicator true true 15)) ∧
    setCardIndicator 0%N ex_watching_all b1 =
      Some (mkBoard (deck b1) (stackBases b1) (S (batchDraws b1))).
Proof.
  eexists. split; [vm_compute; reflexivity|]. split; [reflexivity|].
  apply (setCardIndicator_twice 0%N ex_watching_all ex_board).
  vm_compute. reflexivity.
Defined.

Lemma ex_board_numbered : numbered ex_board.
Proof.
  split.
  - intros [|[|i]] card H; vm_compute in H; try discriminate H;
      injection H as <-; reflexivity.
  - intros [|j] card H; vm_compute in H; try discriminate H;
      injection H as <-; reflexivity.
Defined.

(** All three indicators of the sample board: only that of card 0 is
    shown. *)
Lemma setAllCardIndicators_marks_every_card_witness :
  setAllCardIndicators ex_watching_all ex_board =
  Some (mkBoard [mkCardUI 0%N (mkIndicator true true 15);
                 mkCardUI 1%N (mkIndicator false false 0)]
                [mkCardUI 2%N (mkIndicator false false 0)] 3).
Proof.
  destruct (setAllCardIndicators_marks_every_card ex_watching_all ex_board)
    as [H _].
  - exact ex_board_numbered.
  - intros card Hin. vm_compute in Hin.
    repeat (apply elem_of_cons in Hin as [->|Hin]; [vm_compute; eauto|]).
    by apply elem_of_nil in Hin.
  - rewrite H. vm_compute. reflexivity.
Defined.

End IndicatorWitnesses.
